(** * ArborX query dispatch and the distributed ray-tracing example

    A shallow embedding of
    - [src/details/ArborX_DetailsBoundingVolumeHierarchyImpl.hpp]
      (the [TraversalPolicy] and the [queryDispatch] overloads), and
    - [examples/distributed_raytracing/example_distributed_raytracing.cpp]
      (the sorting records and their [operator<], the per-rank post
      callback, the grid of boxes and the rays of [main], the partition of
      the boxes over the MPI ranks, the merge of the per-rank partial
      results and the deposit of the energies),
    followed by the properties of these functions.

    Conventions.  A one-dimensional [Kokkos::View<T*>] is a [list T]; an
    index or a count held in an [int] that is never negative (offsets,
    counts, positions) is a [nat]; the signed [_buffer_size] is a [Z] that
    holds an [int] of 32 bits, with the wrap-around of its [std::abs]
    written out; the wrap-around of counts and sizes is not modelled.  A
    [Kokkos::parallel_for] over [0, n) is run in index order, as the serial
    execution space runs it.  The iterations of the loops of the
    dispatch and of the merge write pairwise disjoint locations; the loops
    of which this does not hold (the offsets that the per-rank callback
    resets, the generator of the rays, the atomic additions of the
    energies) say so where they are defined.  A thrown exception and the
    calls to the external collaborators (tree traversal, predicate sort,
    post callback) are made visible by a small monad that carries a trace
    of events and an outcome.  The tree, its traversal, the geometry and
    the floating-point numbers of the example are parameters. *)

From stdpp Require Import base numbers list sorting.

Set Default Proof Using "Type".

(** ** Outcome-and-trace monad *)

(** The only exception of the dispatch layer: the buffer optimisation
    failed and the policy forbids the second pass. *)
Inductive Error := CapacityExceeded.

Inductive Outcome (A : Type) :=
  | Returned (a : A)
  | Thrown (e : Error).
Arguments Returned {A} a.
Arguments Thrown {A} e.

Record Run (E A : Type) := MkRun { trace : list E; outcome : Outcome A }.
Arguments MkRun {E A} trace outcome.
Arguments trace {E A} r.
Arguments outcome {E A} r.

Definition ret {E A} (a : A) : Run E A := MkRun [] (Returned a).

Definition throw {E A} (e : Error) : Run E A := MkRun [] (Thrown e).

Definition tell {E} (ev : E) : Run E unit := MkRun [ev] (Returned tt).

Definition bind {E A B} (m : Run E A) (k : A → Run E B) : Run E B :=
  match outcome m with
  | Returned a => MkRun (trace m ++ trace (k a)) (outcome (k a))
  | Thrown e => MkRun (trace m) (Thrown e)
  end.

Notation "x <- m ;; k" := (bind m (fun x => k))
  (at level 100, m at next level, right associativity).
Notation "m ;;; k" := (bind m (fun _ => k))
  (at level 100, right associativity).

(** ** Views and the helpers of ArborX_DetailsUtils.hpp *)

(** Modelled from the spec: [reallocWithoutInitializing] of
    ArborX_DetailsUtils.hpp is not among the sources.
    [reallocWithoutInitializing(v, n)] leaves a fresh view of [n] cells whose
    content is whatever the allocation holds, here the value [uninit]. *)
Definition reallocWithoutInitializing {A} (uninit : A) (n : nat) : list A :=
  replicate n uninit.

(** [Kokkos::deep_copy(v, x)]: every cell of [v] is set to [x]. *)
Definition deep_copy {A} (v : list A) (x : A) : list A :=
  replicate (length v) x.

Fixpoint exclusive_scan (acc : nat) (v : list nat) : list nat :=
  match v with
  | [] => []
  | x :: v' => acc :: exclusive_scan (acc + x) v'
  end.

(** Modelled from the spec: [exclusivePrefixSum] of
    ArborX_DetailsUtils.hpp is not among the sources.  In place, cell [i]
    receives the sum of the cells before it; the last cell of the input
    is not read into any sum. *)
Definition exclusivePrefixSum (v : list nat) : list nat := exclusive_scan 0 v.

(** Modelled from the spec: [lastElement] of ArborX_DetailsUtils.hpp is not
    among the sources: the value of the last cell of a view. *)
Definition lastElement (v : list nat) : nat := default 0 (last v).

(** [out(o), out(o+1), ... = rs]: consecutive writes starting at slot [o]. *)
Fixpoint write_at {A} (o : nat) (rs : list A) (out : list A) : list A :=
  match rs with
  | [] => out
  | r :: rs' => write_at (S o) rs' (<[o := r]> out)
  end.

(** [Kokkos::parallel_for] over [0, length qs), iteration [i] receiving
    element [i] of the indexable collection [qs]. *)
Fixpoint parallel_for_from {Q St} (i : nat) (qs : list Q)
    (body : nat → Q → St → St) (s : St) : St :=
  match qs with
  | [] => s
  | q :: qs' => parallel_for_from (S i) qs' body (body i q s)
  end.

Definition parallel_for {Q St} (qs : list Q) (body : nat → Q → St → St) (s : St)
    : St :=
  parallel_for_from 0 qs body s.

(** The slice [values[offset[i] .. offset[i+1])] of a CSR table. *)
Definition slice {A} (offsets : list nat) (values : list A) (i : nat) : list A :=
  take (offsets !!! S i - offsets !!! i) (drop (offsets !!! i) values).

(** The offsets of a CSR table whose query [i] has [counts !! i] results. *)
Definition offsets_of (counts : list nat) : list nat :=
  exclusivePrefixSum (counts ++ [0]).

(** Every element of [l] sits in the slot of its key: the slots are those
    of the table with the per-key counts [cs]. *)
Definition owned_by {A} (key : A → nat) (cs : list nat) (l : list A) : Prop :=
  length l = sum_list cs ∧
  ∀ x a, l !! x = Some a →
    ∃ c y, cs !! key a = Some c ∧ y < c ∧ x = sum_list (take (key a) cs) + y.

(** ** std::sort and the permutation it leaves *)

(** [std::sort] with comparator [lt], as the insertion sort that it runs on
    short ranges: an element moves in front of another one only when the
    comparator says it is smaller.  The order of equivalent elements is
    left unspecified by the C++ standard; here they keep their order. *)
Fixpoint insert_sorted {A} (lt : A → A → bool) (x : A) (l : list A) : list A :=
  match l with
  | [] => [x]
  | y :: l' => if lt x y then x :: y :: l' else y :: insert_sorted lt x l'
  end.

Definition std_sort {A} (lt : A → A → bool) (l : list A) : list A :=
  foldl (fun sorted x => insert_sorted lt x sorted) [] l.

(** [std::iota(p, p + n, 0)] *)
Definition iota (n : nat) : list nat := seq 0 n.

(** [a] may stand before [b] in a range sorted by [lt]: [b] is not smaller
    than [a]. *)
Definition not_after {A} (lt : A → A → bool) (a b : A) : Prop := lt b a = false.

(** ** The [int] of the policy *)

(** The least and the greatest [int] (32 bits, two's complement). *)
Definition int_min : Z := -2147483648.

(** The [int] that an arithmetic result [z] leaves: [z] itself when it is
    in range, and [z] wrapped around modulo [2^32] when it is not. *)
Definition int_wrap (z : Z) : Z :=
  ((z - int_min) `mod` 4294967296 + int_min)%Z.

(** [std::abs(int)]: the magnitude of [x].  The magnitude of [int_min] is
    not an [int]: the C++ standard leaves this call undefined, and the
    negation that the two's-complement machine performs leaves [int_min]
    itself. *)
Definition std_abs (x : Z) : Z := int_wrap (Z.abs x).

(** ** TraversalPolicy *)

Inductive NearestQueryAlgorithm :=
  | StackBased_Default
  | PriorityQueueBased_Deprecated.

(** [_buffer_size] is an [int]: its values are those from [int_min] to
    [int_max]. *)
Record TraversalPolicy := MkTraversalPolicy {
  _buffer_size : Z;
  _sort_predicates : bool;
  _traversal_algorithm : NearestQueryAlgorithm
}.

(** [Experimental::TraversalPolicy()] *)
Definition defaultTraversalPolicy : TraversalPolicy :=
  {| _buffer_size := 0; _sort_predicates := true;
     _traversal_algorithm := StackBased_Default |}.

Definition setBufferSize (buffer_size : Z) (p : TraversalPolicy) : TraversalPolicy :=
  {| _buffer_size := buffer_size; _sort_predicates := _sort_predicates p;
     _traversal_algorithm := _traversal_algorithm p |}.

Definition setTraversalAlgorithm (a : NearestQueryAlgorithm) (p : TraversalPolicy)
    : TraversalPolicy :=
  {| _buffer_size := _buffer_size p; _sort_predicates := _sort_predicates p;
     _traversal_algorithm := a |}.

Definition setPredicateSorting (sort_predicates : bool) (p : TraversalPolicy)
    : TraversalPolicy :=
  {| _buffer_size := _buffer_size p; _sort_predicates := sort_predicates;
     _traversal_algorithm := _traversal_algorithm p |}.

(** ** Offset views, plain or wrapped by a permutation *)

(** The two kinds of offset view that [queryDispatch] hands to [queryImpl]:
    the view itself, or the view wrapped by [makePermutedView]. *)
Inductive OffsetView :=
  | PlainView (data : list nat)
  | PermutedView (permute : list nat) (data : list nat).

(** Modelled from the spec: [makePermutedView] is not among the sources.
    The offset view is wrapped through the permutation so that a write for
    the reordered position [i] is redirected to the slot of the original
    index [permute(i)]. *)
Definition makePermutedView (permute : list nat) (offset : list nat) : OffsetView :=
  PermutedView permute offset.

(** The memory behind a view. *)
Definition underlying (v : OffsetView) : list nat :=
  match v with PlainView d | PermutedView _ d => d end.

(** The cell of the memory that cell [i] of the view stands for. *)
Definition position (v : OffsetView) (i : nat) : nat :=
  match v with PlainView _ => i | PermutedView p _ => p !!! i end.

(** The same view over the memory [d]. *)
Definition with_data (v : OffsetView) (d : list nat) : OffsetView :=
  match v with PlainView _ => PlainView d | PermutedView p _ => PermutedView p d end.

(** Reading [v(i)] and writing [v(i) = x]. *)
Definition view_get (v : OffsetView) (i : nat) : nat :=
  underlying v !!! position v i.

Definition view_set (v : OffsetView) (i : nat) (x : nat) : OffsetView :=
  with_data v (<[position v i := x]> (underlying v)).

(** A view reorders [n] cells: its first [n] positions are a permutation of
    the first [n] cells of the underlying view. *)
Definition reorders (v : OffsetView) (n : nat) : Prop :=
  position v <$> seq 0 n ≡ₚ seq 0 n.

(** ** Events of a dispatch *)

Inductive Pass := CountingPass | WritingPass | BufferedPass.

Inductive Event (Pred In : Type) :=
  | SortedAlongZOrderCurve (permute : list nat)
  | Traversed (pass : Pass) (predicates : list Pred)
  | PostCallbackInvoked (predicates : list Pred) (offset : list nat) (input : list In).
Arguments SortedAlongZOrderCurve {Pred In} permute.
Arguments Traversed {Pred In} pass predicates.
Arguments PostCallbackInvoked {Pred In} predicates offset input.

Definition is_traversal {Pred In} (e : Event Pred In) : bool :=
  match e with Traversed _ _ => true | _ => false end.

Definition is_counting_pass {Pred In} (e : Event Pred In) : bool :=
  match e with Traversed CountingPass _ => true | _ => false end.

Definition is_post_callback {Pred In} (e : Event Pred In) : bool :=
  match e with PostCallbackInvoked _ _ _ => true | _ => false end.

(** ** queryImpl (ArborX_DetailsBufferOptimization.hpp) *)

Section QueryImpl.
Context {Pred Value In : Type}.
(** What the allocation of an output view holds before it is written. *)
Variable uninit : Value.
(** The tree traversal of one predicate together with the inline
    callback: the values the callback emits, in traversal order. *)
Variable run : Pred → list Value.

Local Abbreviation M := (Run (Event Pred In)).

(** Modelled from the spec: part of [queryImpl].  The count of results of
    every predicate of the view, as the traversal with the counting variant
    of the callback finds it. *)
Definition count_results (predicates : list Pred) : list nat :=
  map (fun q => length (run q)) predicates.

(** Modelled from the spec: part of [queryImpl].  [offset(i) = counts(i)],
    through the view. *)
Definition store_counts (counts : list nat) (offset : OffsetView) : OffsetView :=
  parallel_for counts (fun i c off => view_set off i c) offset.

(** Modelled from the spec: part of [queryImpl].  Pass 2: every match of
    predicate [i] is written at its pre-computed slot, from [offset(i)]
    on. *)
Definition writing_pass (predicates : list Pred) (offset : OffsetView)
    (out : list Value) : list Value :=
  parallel_for predicates
    (fun i q out => write_at (view_get offset i) (run q) out) out.

(** Modelled from the spec: part of [queryImpl], the two-pass path. *)
Definition two_pass (predicates : list Pred) (offset : OffsetView)
    : M (list nat * list Value) :=
  tell (Traversed CountingPass predicates) ;;;
  let counted := store_counts (count_results predicates) offset in
  let offsets := exclusivePrefixSum (underlying counted) in
  let out := reallocWithoutInitializing uninit (lastElement offsets) in
  tell (Traversed WritingPass predicates) ;;;
  ret (offsets, writing_pass predicates (with_data counted offsets) out).

(** Modelled from the spec: part of [queryImpl].  The capacity of
    predicate [i] in a pre-initialised offset view: the distance from its
    slot to the slot that follows it in memory. *)
Definition capacity (offset : OffsetView) (i : nat) : nat :=
  underlying offset !!! S (position offset i) - view_get offset i.

(** Modelled from the spec: part of [queryImpl].  The one traversal of the
    optimistic path: the matches of predicate [i] are written from
    [offset(i)] on, as long as they fit. *)
Definition buffered_pass (predicates : list Pred) (offset : OffsetView)
    (out : list Value) : list Value :=
  parallel_for predicates
    (fun i q out =>
       write_at (view_get offset i) (take (capacity offset i) (run q)) out) out.

(** Modelled from the spec: part of [queryImpl].  Some predicate has more
    results than its capacity. *)
Definition overflow (counts : list nat) (offset : OffsetView) : bool :=
  parallel_for counts (fun i c b => b || (capacity offset i <? c)) false.

(** Modelled from the spec: part of [queryImpl].  The results of
    predicate [i] move from their tentative slot [old(i)] to their final
    slot [new(i)]. *)
Definition compact (counts : list nat) (old new : OffsetView)
    (buffer out : list Value) : list Value :=
  parallel_for counts
    (fun i c out =>
       write_at (view_get new i) (take c (drop (view_get old i) buffer)) out) out.

(** Modelled from the spec: [queryImpl] of
    ArborX_DetailsBufferOptimization.hpp is not among the sources
    (pre-condition, as [queryDispatch] establishes it: [offset] and [out]
    are allocated, and when [buffer_size] is not zero [offset] holds the
    tentative offsets).
    - [buffer_size == 0]: two-pass.  Pass 1 traverses with a counting
      variant of the callback to fill [offset[i]] with the match count
      of query [i]; the offsets are exclusive-prefix-summed; [values] is
      allocated of the exact total size; pass 2 re-traverses, writing
      each match at its pre-computed slot.
    - [buffer_size = +k]: one traversal writes into the tentative slots;
      if any query overflows its slots the attempt is abandoned and the
      two-pass path is run, no error surfaced.
    - [buffer_size = -k]: the same attempt, but an overflow is reported
      as a capacity-exceeded failure, without retry.
    Without overflow the offsets are rebuilt as the exclusive prefix sum
    of the per-query counts and the results are moved to these slots
    (the invariant of the CSR result table: offsets are always built by
    exclusive prefix sum over per-query counts, and [values] has length
    [offset[n_queries]]). *)
Definition queryImpl (predicates : list Pred) (out : list Value)
    (offset : OffsetView) (buffer_size : Z) : M (list nat * list Value) :=
  if (buffer_size =? 0)%Z then two_pass predicates offset
  else
    tell (Traversed BufferedPass predicates) ;;;
    let counts := count_results predicates in
    let buffer := buffered_pass predicates offset out in
    if overflow counts offset then
      if (buffer_size <? 0)%Z then throw CapacityExceeded
      else two_pass predicates offset
    else
      let counted := store_counts counts offset in
      let offsets := exclusivePrefixSum (underlying counted) in
      let out' := reallocWithoutInitializing uninit (lastElement offsets) in
      ret (offsets, compact counts offset (with_data counted offsets) buffer out').
End QueryImpl.

(** ** The CSR table of a batch *)

(** The table every dispatch path aims at: the offsets of the per-query
    result counts and the results of the queries, one after the other, in
    the order of the batch. *)
Definition csr_of {Pred Value} (run : Pred → list Value) (batch : list Pred)
    : list nat * list Value :=
  (offsets_of ((fun q => length (run q)) <$> batch), concat (run <$> batch)).

(** The view [v] and the predicate view [predicates] present the batch
    [batch] in the same, reordered, order. *)
Definition presents {Pred} (v : OffsetView) (predicates batch : list Pred) : Prop :=
  length predicates = length batch ∧
  reorders v (length batch) ∧
  ∀ i, i < length batch → predicates !! i = batch !! position v i.

(** Some query has more results than its capacity. *)
Definition overflows {Pred Value} (run : Pred → list Value) (batch : list Pred)
    (caps : list nat) : bool :=
  existsb (fun qc => qc.2 <? length (run qc.1)) (zip batch caps).

(** The passes that the buffer policy prescribes: [b] is the signed
    buffer size handed to [queryImpl], [ov] tells whether some query has
    more results than its capacity. *)
Definition passes_of (b : Z) (ov : bool) : list Pass :=
  if (b =? 0)%Z then [CountingPass; WritingPass]
  else if ov && (0 <? b)%Z then [BufferedPass; CountingPass; WritingPass]
  else [BufferedPass].

(** The passes of a run, in the order of its traversals. *)
Definition passes {Pred In A} (r : Run (Event Pred In) A) : list Pass :=
  omap (fun e => match e with Traversed p _ => Some p | _ => None end) (trace r).

(** How many events of a trace satisfy [p]. *)
Definition count_events {E} (p : E → bool) (t : list E) : nat :=
  length (List.filter p t).

(** The shape of a CSR table for [n_queries] queries. *)
Definition is_csr {A} (n_queries : nat) (offsets : list nat) (values : list A)
    : Prop :=
  length offsets = n_queries + 1 ∧
  offsets !! 0 = Some 0 ∧
  (∀ i a b, offsets !! i = Some a → offsets !! (i + 1) = Some b → a ≤ b) ∧
  offsets !! n_queries = Some (length values).

(** What a dispatch returns, when it returns, is a CSR table. *)
Definition returns_csr {A} (n_queries : nat) (o : Outcome (list nat * list A))
    : Prop :=
  match o with
  | Returned (offsets, values) => is_csr n_queries offsets values
  | Thrown _ => True
  end.

(** Two outcomes are the same failure, or two tables with the same offsets
    whose slices hold the same results, up to their order in the slice. *)
Definition same_slices {A} (o1 o2 : Outcome (list nat * list A)) : Prop :=
  match o1, o2 with
  | Returned (offsets1, values1), Returned (offsets2, values2) =>
      offsets1 = offsets2 ∧
      ∀ i, slice offsets1 values1 i ≡ₚ slice offsets2 values2 i
  | Thrown e1, Thrown e2 => e1 = e2
  | _, _ => False
  end.

(** A run sorts the batch along the curve and then traverses nothing but
    the view reordered by [permute]. *)
Definition traverses_reordered {Pred In} (permute : list nat)
    (permuted_predicates : list Pred) (t : list (Event Pred In)) : Prop :=
  ∃ traversals, t = SortedAlongZOrderCurve permute :: traversals ∧
    traversals ≠ [] ∧
    Forall (fun e => ∃ pass, e = Traversed pass permuted_predicates) traversals.

(** ** ArborX::Details::BoundingVolumeHierarchyImpl *)

Section BoundingVolumeHierarchyImpl.
Context {BVH Bounds Pred float : Type}.

(** The external collaborators (out of the scope of the dispatch layer):
    the bounding region of the tree, the hits of the traversal of one
    spatial predicate (primitive indices, in traversal order), the hits of
    one nearest predicate (index and distance), the requested number of
    neighbours, and the position of a predicate on the space-filling
    curve laid over a bounding region. *)
Variable bounds : BVH → Bounds.
Variable traverse_spatial : BVH → Pred → list Z.
Variable traverse_nearest : BVH → Pred → list (Z * float).
Variable getK : Pred → nat.
Variable curve_key : Bounds → Pred → nat.

(** What a freshly allocated offset cell holds. *)
Variable uninit_offset : nat.

(** Modelled from the spec: [sortObjects] (ArborX_DetailsSortUtils.hpp)
    is not among the sources: the indices [0 .. n) sorted by their key. *)
Definition sortObjects (keys : list nat) : list nat :=
  std_sort (fun a b => keys !!! a <? keys !!! b) (iota (length keys)).

(** Modelled from the spec: [BatchedQueries::sortQueriesAlongZOrderCurve]
    (ArborX_DetailsBatchedQueries.hpp) is not among the sources: compute a
    key for each predicate by projecting it onto a space-filling curve
    derived from the bounding region; sort predicate indices by this key
    to obtain a permutation. *)
Definition sortQueriesAlongZOrderCurve (b : Bounds) (predicates : list Pred)
    : list nat :=
  sortObjects (map (curve_key b) predicates).

(** Modelled from the spec: [BatchedQueries::applyPermutation] is not
    among the sources: the reordered predicate view, whose element [i] is
    element [permute(i)] of the batch. *)
Definition applyPermutation (permute : list nat) (predicates : list Pred)
    : list Pred :=
  omap (fun i => predicates !! i) permute.

(** The traversal of one predicate with an inline callback: the callback
    receives the predicate and one hit after the other, and emits any
    number of values through its output functor. *)
Definition run_spatial {Value} (bvh : BVH) (callback : Pred → Z → list Value)
    (q : Pred) : list Value :=
  flat_map (callback q) (traverse_spatial bvh q).

Definition run_nearest {Value} (bvh : BVH)
    (callback : Pred → Z → float → list Value) (q : Pred) : list Value :=
  flat_map (fun h => callback q h.1 h.2) (traverse_nearest bvh q).

(** Modelled from the spec: the default callbacks of ArborX_Callbacks.hpp
    are not among the sources.  [CallbackDefaultSpatialPredicate] and
    [CallbackDefaultNearestPredicate] collect the primitive index,
    [CallbackDefaultNearestPredicateWithDistance] the pair of index and
    distance. *)
Definition CallbackDefaultSpatialPredicate (q : Pred) (index : Z) : list Z :=
  [index].
Definition CallbackDefaultNearestPredicate (q : Pred) (index : Z) (distance : float)
    : list Z :=
  [index].
Definition CallbackDefaultNearestPredicateWithDistance (q : Pred) (index : Z)
    (distance : float) : list (Z * float) :=
  [(index, distance)].

(** A post callback receives the predicates, the offsets and the collected
    hits, and leaves the final offsets and output. *)
Definition PostCallback (In Out : Type) : Type :=
  list Pred → list nat → list In → list Out → list nat * list Out.

(** [queryDispatch(SpatialPredicateTag, ...)], inline callback. *)
Definition queryDispatch_spatial_inline {Value In} (uninit : Value)
    (bvh : BVH) (predicates : list Pred) (callback : Pred → Z → list Value)
    (out : list Value) (offset : list nat) (policy : TraversalPolicy)
    : Run (Event Pred In) (list nat * list Value) :=
  let n_queries := length predicates in
  let offset := reallocWithoutInitializing uninit_offset (n_queries + 1) in
  let buffer_size := std_abs (_buffer_size policy) in
  let '(offset, out) :=
    if (0 <? buffer_size)%Z then
      (exclusivePrefixSum (deep_copy offset (Z.to_nat buffer_size)),
       reallocWithoutInitializing uninit (n_queries * Z.to_nat buffer_size))
    else (deep_copy offset 0, out) in
  if _sort_predicates policy then
    let permute := sortQueriesAlongZOrderCurve (bounds bvh) predicates in
    tell (SortedAlongZOrderCurve permute) ;;;
    let permuted_predicates := applyPermutation permute predicates in
    let permute := permute ++ [length permute] in
    let permuted_offset := makePermutedView permute offset in
    queryImpl uninit (run_spatial bvh callback) permuted_predicates out
      permuted_offset (_buffer_size policy)
  else
    queryImpl uninit (run_spatial bvh callback) predicates out
      (PlainView offset) (_buffer_size policy).

(** [queryDispatch(SpatialPredicateTag, ...)] collecting the indices. *)
Definition queryDispatch_spatial_indices {In} (uninit : Z) (bvh : BVH)
    (predicates : list Pred) (indices : list Z) (offset : list nat)
    (policy : TraversalPolicy) : Run (Event Pred In) (list nat * list Z) :=
  queryDispatch_spatial_inline uninit bvh predicates
    CallbackDefaultSpatialPredicate indices offset policy.

(** [queryDispatch(SpatialPredicateTag, ...)], post callback. *)
Definition queryDispatch_spatial_post {Out} (uninit : Z) (bvh : BVH)
    (predicates : list Pred) (callback : PostCallback Z Out)
    (out : list Out) (offset : list nat) (policy : TraversalPolicy)
    : Run (Event Pred Z) (list nat * list Out) :=
  let indices : list Z := [] in
  r <- queryDispatch_spatial_indices uninit bvh predicates indices offset policy ;;
  tell (PostCallbackInvoked predicates r.1 r.2) ;;;
  ret (callback predicates r.1 r.2 out).

(** [queryDispatch(NearestPredicateTag, ...)], inline callback. *)
Definition queryDispatch_nearest_inline {Value In} (uninit : Value)
    (bvh : BVH) (predicates : list Pred)
    (callback : Pred → Z → float → list Value)
    (out : list Value) (offset : list nat) (policy : TraversalPolicy)
    : Run (Event Pred In) (list nat * list Value) :=
  let use_deprecated_nearest_query_algorithm :=
    match _traversal_algorithm policy with
    | PriorityQueueBased_Deprecated => true
    | StackBased_Default => false
    end in
  let n_queries := length predicates in
  let offset := reallocWithoutInitializing uninit_offset (n_queries + 1) in
  let offset :=
    parallel_for predicates (fun i q off => <[i := getK q]> off) offset in
  let offset := exclusivePrefixSum offset in
  let n_results := lastElement offset in
  let out := reallocWithoutInitializing uninit n_results in
  if _sort_predicates policy && false then
    let permute := sortQueriesAlongZOrderCurve (bounds bvh) predicates in
    tell (SortedAlongZOrderCurve permute) ;;;
    let permuted_predicates := applyPermutation permute predicates in
    let permute := permute ++ [length permute] in
    let permuted_offset := makePermutedView permute offset in
    queryImpl uninit (run_nearest bvh callback) permuted_predicates out
      permuted_offset (-1)
  else
    queryImpl uninit (run_nearest bvh callback) predicates out
      (PlainView offset) (-1).

(** [queryDispatch(NearestPredicateTag, ...)], post callback. *)
Definition queryDispatch_nearest_post {Out} (uninit : Z * float) (bvh : BVH)
    (predicates : list Pred) (callback : PostCallback (Z * float) Out)
    (out : list Out) (offset : list nat) (policy : TraversalPolicy)
    : Run (Event Pred (Z * float)) (list nat * list Out) :=
  let pairs : list (Z * float) := [] in
  r <- queryDispatch_nearest_inline uninit bvh predicates
         CallbackDefaultNearestPredicateWithDistance pairs offset policy ;;
  tell (PostCallbackInvoked predicates r.1 r.2) ;;;
  ret (callback predicates r.1 r.2 out).

(** [queryDispatch(NearestPredicateTag, ...)] collecting the indices. *)
Definition queryDispatch_nearest_indices {In} (uninit : Z) (bvh : BVH)
    (predicates : list Pred) (indices : list Z) (offset : list nat)
    (policy : TraversalPolicy) : Run (Event Pred In) (list nat * list Z) :=
  queryDispatch_nearest_inline uninit bvh predicates
    CallbackDefaultNearestPredicate indices offset policy.

(** [queryDispatch(NearestPredicateTag, ...)] collecting the indices and
    the distances in two views ("split_pairs"). *)
Definition queryDispatch_nearest_indices_distances (uninit_index : Z)
    (uninit_distance : float) (uninit_pair : Z * float) (bvh : BVH)
    (predicates : list Pred) (indices : list Z) (offset : list nat)
    (distances : list float) (policy : TraversalPolicy)
    : Run (Event Pred (Z * float)) (list nat * list Z * list float) :=
  let out : list (Z * float) := [] in
  r <- queryDispatch_nearest_inline uninit_pair bvh predicates
         CallbackDefaultNearestPredicateWithDistance out offset policy ;;
  let out := r.2 in
  let n := length out in
  let indices := reallocWithoutInitializing uninit_index n in
  let distances := reallocWithoutInitializing uninit_distance n in
  let split :=
    parallel_for out
      (fun i pair views => (<[i := pair.1]> views.1, <[i := pair.2]> views.2))
      (indices, distances) in
  ret (r.1, split.1, split.2).

(** The capacities that a policy assumes for a batch of spatial
    predicates: for every query the [buffer_size] of the dispatch, which is
    [std::abs] of [_buffer_size] when that is positive, and no cell when it
    is not. *)
Definition assumed_capacity (policy : TraversalPolicy) (batch : list Pred)
    : list nat :=
  replicate (length batch) (Z.to_nat (std_abs (_buffer_size policy))).


(** The predicate view that the traversals of the spatial dispatch
    receive. *)
Definition spatial_view (bvh : BVH) (batch : list Pred) (policy : TraversalPolicy)
    : list Pred :=
  if _sort_predicates policy
  then applyPermutation (sortQueriesAlongZOrderCurve (bounds bvh) batch) batch
  else batch.

(** The offsets and the number of output cells that the nearest dispatch
    prepares before it calls [queryImpl]. *)
Definition nearest_offsets (batch : list Pred) : list nat :=
  offsets_of (getK <$> batch).

(** The run of a post-callback dispatch, given the run [inline] of the
    inline dispatch with the collecting callback: when [inline] returns a
    table, its traversals are followed by one invocation of the post
    callback on the whole batch and that table, and the callback's output is
    returned; when [inline] fails, the failure is the outcome and the
    callback is not invoked. *)
Definition runs_post_callback_after {In Out} (batch : list Pred)
    (callback : PostCallback In Out) (out : list Out)
    (inline : Run (Event Pred In) (list nat * list In))
    (r : Run (Event Pred In) (list nat * list Out)) : Prop :=
  match outcome inline with
  | Returned table =>
      trace r = trace inline ++ [PostCallbackInvoked batch table.1 table.2] ∧
      count_events is_post_callback (trace r) = 1 ∧
      outcome r = Returned (callback batch table.1 table.2 out)
  | Thrown e =>
      trace r = trace inline ∧
      count_events is_post_callback (trace r) = 0 ∧
      outcome r = Thrown e
  end.

End BoundingVolumeHierarchyImpl.

(** ** examples/distributed_raytracing/example_distributed_raytracing.cpp *)

(** [MPIbased::IntersectedRankForSorting] and [MPIbased::IntersectedRank],
    the base class as a field of the derived one.  [float] stands for the
    C++ [float]; only its comparison matters below. *)
Record IntersectedRankForSorting (float : Type) := MkIntersectedRankForSorting {
  entrylength : float;
  ray_id : nat
}.
Arguments MkIntersectedRankForSorting {float} entrylength ray_id.
Arguments entrylength {float} i.
Arguments ray_id {float} i.

Record IntersectedRank (float : Type) := MkIntersectedRank {
  for_sorting : IntersectedRankForSorting float;
  optical_path_length : float;
  intensity_contribution : float
}.
Arguments MkIntersectedRank {float} for_sorting optical_path_length
  intensity_contribution.
Arguments for_sorting {float} i.
Arguments optical_path_length {float} i.
Arguments intensity_contribution {float} i.

(** [for (int j = lo; j < hi; ++j) body] *)
Definition for_loop {St} (lo hi : nat) (body : nat → St → St) (s : St) : St :=
  foldl (fun s j => body j s) s (seq lo (hi - lo)).

(** [Kokkos::subview(v, std::pair(first, second))] *)
Definition subview {A} (v : list A) (range : nat * nat) : list A :=
  take (range.2 - range.1) (drop range.1 v).

(** What rank 0 prints. *)
Inductive Output :=
  | Running_with (nranks : nat)
  | Warning_indivisible (num_boxes nranks : nat).

Definition is_warning (o : Output) : bool :=
  match o with Warning_indivisible _ _ => true | Running_with _ => false end.

(** What one rank holds once [main] has cut out its part: the lines it
    printed, [num_boxes_per_rank], and its boxes and rays. *)
Record RankPart (Box Ray : Type) := MkRankPart {
  printed : list Output;
  num_boxes_per_rank : nat;
  boxes_for_rank : list Box;
  rays_for_rank : list Ray
}.
Arguments MkRankPart {Box Ray} printed num_boxes_per_rank boxes_for_rank
  rays_for_rank.
Arguments printed {Box Ray} r.
Arguments num_boxes_per_rank {Box Ray} r.
Arguments boxes_for_rank {Box Ray} r.
Arguments rays_for_rank {Box Ray} r.

(** [main], from [MPI_Comm_size] to the subviews of the rank: the counts
    are non-negative [int]s, on which [/] and [%] are the quotient and the
    remainder of the natural numbers. *)
Definition partition_for_rank {Box Ray} (boxes : list Box) (rays : list Ray)
    (rays_per_box : nat) (nranks rank : nat) : RankPart Box Ray :=
  let num_boxes := length boxes in
  let printed :=
    if rank =? 0 then
      Running_with nranks ::
      (if negb (num_boxes mod nranks =? 0)
       then [Warning_indivisible num_boxes nranks] else [])
    else [] in
  let num_boxes_per_rank := num_boxes / nranks in
  let boxes_for_rank :=
    subview boxes (num_boxes_per_rank * rank, num_boxes_per_rank * (rank + 1)) in
  let rays_for_rank :=
    subview rays (num_boxes_per_rank * rays_per_box * rank,
                  num_boxes_per_rank * rays_per_box * (rank + 1)) in
  MkRankPart printed num_boxes_per_rank boxes_for_rank rays_for_rank.

(** The boxes of all ranks, rank after rank. *)
Definition distributed_boxes {Box Ray} (boxes : list Box) (rays : list Ray)
    (rays_per_box nranks : nat) : list Box :=
  flat_map
    (fun rank => boxes_for_rank (partition_for_rank boxes rays rays_per_box nranks rank))
    (seq 0 nranks).

(** The rays of all ranks, rank after rank.  Ray [j] of box [i] is the
    cell [j + i * rays_per_box] of [rays]. *)
Definition distributed_rays {Box Ray} (boxes : list Box) (rays : list Ray)
    (rays_per_box nranks : nat) : list Ray :=
  flat_map
    (fun rank => rays_for_rank (partition_for_rank boxes rays rays_per_box nranks rank))
    (seq 0 nranks).

Section Merge.
Context {float : Type}.
(** [<] on [float], and the arithmetic of the accumulation. *)
Variable flt : float → float → bool.
Variable fzero : float.
Variable fadd fmul : float → float → float.
Variable fneg fexp : float → float.

(** [operator<] of [IntersectedRankForSorting] *)
Definition IntersectedRankForSorting_lt (l r : IntersectedRankForSorting float)
    : bool :=
  if ray_id l =? ray_id r then flt (entrylength l) (entrylength r)
  else ray_id l <? ray_id r.

(** [values(j).ray_id = i] *)
Definition set_ray_id (i : nat) (v : IntersectedRank float) : IntersectedRank float :=
  MkIntersectedRank
    (MkIntersectedRankForSorting (entrylength (for_sorting v)) i)
    (optical_path_length v) (intensity_contribution v).

(** "Applying ray IDs": the ray IDs of the originating rank are applied to
    the partial results, slice by slice. *)
Definition apply_ray_ids {Ray} (rays_for_rank : list Ray) (offsets : list nat)
    (values : list (IntersectedRank float)) : list (IntersectedRank float) :=
  parallel_for rays_for_rank
    (fun i _ values =>
       for_loop (offsets !!! i) (offsets !!! (i + 1))
         (fun j values => alter (set_ray_id i) j values) values)
    values.

(** "Example::copy sort_array": [sort_array(i) = values(i)], which keeps the
    base class. *)
Definition copy_sort_array (values : list (IntersectedRank float))
    : list (IntersectedRankForSorting float) :=
  for_sorting <$> values.

(** The comparator handed to [std::sort]:
    [sort_array_host(a) < sort_array_host(b)]. *)
Definition compare_indices (sort_array : list (IntersectedRankForSorting float))
    (a b : nat) : bool :=
  match sort_array !! a, sort_array !! b with
  | Some x, Some y => IntersectedRankForSorting_lt x y
  | _, _ => false
  end.

(** [std::iota] then [std::sort] of the indices (the host branch). *)
Definition sort_permutation (sort_array : list (IntersectedRankForSorting float))
    : list nat :=
  std_sort (compare_indices sort_array) (iota (length sort_array)).

(** The partial results of ray [i] in the order in which the accumulation
    loop reads them: [values(permutation(j))] for [j] from [offsets(i)] to
    [offsets(i + 1)]. *)
Definition merged_partial_results (offsets : list nat)
    (values : list (IntersectedRank float)) (permutation : list nat) (i : nat)
    : list (IntersectedRank float) :=
  omap (fun j => p ← permutation !! j; values !! p)
    (seq (offsets !!! i) (offsets !!! (i + 1) - offsets !!! i)).

(** One step of the accumulation, on the pair of [accum_opt_dist] and
    [ray_intensity]. *)
Definition accumulate (acc : float * float) (v : IntersectedRank float)
    : float * float :=
  (fadd acc.1 (optical_path_length v),
   fadd acc.2 (fmul (fexp (fneg acc.1)) (intensity_contribution v))).

(** "Evaluating ray intensities": [ray_intensity] of ray [i]. *)
Definition evaluate_ray_intensity (offsets : list nat)
    (values : list (IntersectedRank float)) (permutation : list nat) (i : nat)
    : float :=
  (for_loop (offsets !!! i) (offsets !!! (i + 1))
     (fun j acc =>
        match p ← permutation !! j; values !! p with
        | Some v => accumulate acc v
        | None => acc
        end)
     (fzero, fzero)).2.

(** The merge of [main]: the ray IDs are applied, the sort array is copied
    and sorted; the restored values and the permutation are what the
    accumulation reads. *)
Definition merge {Ray} (rays_for_rank : list Ray) (offsets : list nat)
    (values : list (IntersectedRank float))
    : list (IntersectedRank float) * list nat :=
  let values := apply_ray_ids rays_for_rank offsets values in
  let sort_array := copy_sort_array values in
  let permutation := sort_permutation sort_array in
  (values, permutation).

(** The partial results of ray [i] as the merge hands them to the
    accumulation. *)
Definition merged {Ray} (rays_for_rank : list Ray) (offsets : list nat)
    (values : list (IntersectedRank float)) (i : nat) : list (IntersectedRank float) :=
  let m := merge rays_for_rank offsets values in
  merged_partial_results offsets m.1 m.2 i.

(** Two tables hold the partial results of the same queries, each slice in
    another arrival order. *)
Definition arrival_orders (offsets : list nat)
    (values1 values2 : list (IntersectedRank float)) : Prop :=
  length values1 = length values2 ∧
  ∀ i, slice offsets values1 i ≡ₚ slice offsets values2 i.
End Merge.

(** The final order of the merge does not depend on the arrival order. *)
Definition merge_ignores_arrival_order {float Ray} (flt : float → float → bool)
    (rays_for_rank : list Ray) (offsets : list nat)
    (values1 values2 : list (IntersectedRank float)) : Prop :=
  ∀ i, i < length rays_for_rank →
    merged flt rays_for_rank offsets values1 i
    = merged flt rays_for_rank offsets values2 i.

(** No box is left out of the parts of the ranks. *)
Definition no_box_dropped {Box Ray} (boxes : list Box) (rays : list Ray)
    (rays_per_box nranks : nat) : Prop :=
  ∀ box, box ∈ boxes → box ∈ distributed_boxes boxes rays rays_per_box nranks.

(** ** The per-rank callback of the example *)

(** [v(i)], the read of a cell of a view of records or floats.  A read
    outside the view is undefined behaviour in the source; the model gives
    it the value [undefined]. *)
Definition read {A} (undefined : A) (v : list A) (i : nat) : A :=
  default undefined (v !! i).

(** [Kokkos::realloc(v, n)]: a fresh view of [n] cells, each holding the
    initial value [init] of the allocation. *)
Definition realloc {A} (init : A) (n : nat) : list A := replicate n init.

(** The host branch of the sort, for any element type: [std::iota], then
    [std::sort] of the indices with the comparator
    [sort_array_host(a) < sort_array_host(b)]. *)
Definition sort_indices {A} (lt : A → A → bool) (sort_array : list A) : list nat :=
  std_sort
    (fun a b =>
       match sort_array !! a, sort_array !! b with
       | Some x, Some y => lt x y
       | _, _ => false
       end)
    (iota (length sort_array)).

Module IntersectsBased.

(** [IntersectsBased::IntersectedCellForSorting] *)
Record IntersectedCellForSorting (float : Type) := MkIntersectedCellForSorting {
  entrylength : float;
  ray_id : nat
}.
Arguments MkIntersectedCellForSorting {float} entrylength ray_id.
Arguments entrylength {float} i.
Arguments ray_id {float} i.

(** [operator<] of [IntersectedCellForSorting] *)
Definition IntersectedCellForSorting_lt {float} (flt : float → float → bool)
    (l r : IntersectedCellForSorting float) : bool :=
  if ray_id l =? ray_id r then flt (entrylength l) (entrylength r)
  else ray_id l <? ray_id r.

End IntersectsBased.

Section AccumulateRayRankIntersections.
Context {float Ray Box Query : Type}.
(** [<] and the arithmetic of [float]; [of_int] is the conversion of an
    [int]; [kappa], [sigma], [temp] and [pi] are the constants of the
    example. *)
Variable flt : float → float → bool.
Variable fzero : float.
Variable fadd fsub fmul fdiv fpow : float → float → float.
Variable fneg fexp : float → float.
Variable of_int : nat → float.
Variable kappa sigma temp pi : float.
(** [ArborX::getGeometry] of a query and [overlapDistance] of a ray and a
    box, which yields [length] and [entrylength]. *)
Variable getGeometry : Query → Ray.
Variable overlapDistance : Ray → Box → float * float.
(** What the memory of a view holds where nothing was written. *)
Variable uninit_box : Box.
Variable uninit_distance : float.
Variable uninit_cell : IntersectsBased.IntersectedCellForSorting float.
Variable fresh_rank : IntersectedRank float.

(** The first "Evaluating ray-cell interaction" loop: for every
    intersection [j] of ray [i], [optical_distances(j)] and
    [sort_array(j)]. *)
Definition evaluate_ray_cell_interaction (boxes : list Box) (queries : list Query)
    (offset : list nat) (in_ : list Z)
    : list float * list (IntersectsBased.IntersectedCellForSorting float) :=
  let nintersects := length in_ in
  parallel_for queries
    (fun i q views =>
       let ray := getGeometry q in
       for_loop (offset !!! i) (offset !!! (i + 1))
         (fun j views =>
            let box := read uninit_box boxes (Z.to_nat (in_ !!! j)) in
            let '(length, entrylength) := overlapDistance ray box in
            (<[j := fmul length kappa]> views.1,
             <[j := IntersectsBased.MkIntersectedCellForSorting entrylength i]>
               views.2))
         views)
    (replicate nintersects uninit_distance, replicate nintersects uninit_cell).

(** One step of the second loop, on the pair of [accum_optical_length] and
    [intensity_contribution]. *)
Definition accumulate_cell (acc : float * float) (optical_distance : float)
    : float * float :=
  let optical_length_in := acc.1 in
  let accum_optical_length := fadd acc.1 optical_distance in
  (accum_optical_length,
   fadd acc.2
     (fmul (fdiv (fmul sigma (fpow temp (of_int 4))) pi)
        (fsub (fexp (fneg optical_length_in)) (fexp (fneg accum_optical_length))))).

(** [MPIbased::AccumulateRayRankIntersections::operator()], a post
    callback.  Both loops run their iterations one after the other in index
    order, as the serial execution space runs them.  The iterations of the
    second loop are not independent: iteration [i] reads [offset(i)] and
    the loop bound [offset(i + 1)] before it resets [offset(i)], and
    iteration [i + 1] resets [offset(i + 1)]; what the loop accumulates
    under another schedule is not what this definition gives.
    [n] is unsigned in the source, so that [i == n - 1] holds for no [i]
    when [n] is [0]: the test is [i + 1 = n] here.  The sort is the host
    branch of the source; the box that the second loop binds and never uses
    is left out. *)
Definition AccumulateRayRankIntersections (boxes : list Box) (rank : nat)
    (queries : list Query) (offset : list nat) (in_ : list Z)
    (out : list (IntersectedRank float)) : list nat * list (IntersectedRank float) :=
  let n := length offset - 1 in
  let out := realloc fresh_rank n in
  let '(optical_distances, sort_array) :=
    evaluate_ray_cell_interaction boxes queries offset in_ in
  let permutation :=
    sort_indices (IntersectsBased.IntersectedCellForSorting_lt flt) sort_array in
  parallel_for queries
    (fun i q '(offset, out) =>
       let '(accum_optical_length, intensity_contribution) :=
         for_loop (offset !!! i) (offset !!! (i + 1))
           (fun j acc =>
              accumulate_cell acc
                (read uninit_distance optical_distances (permutation !!! j)))
           (fzero, fzero) in
       let rankentrylength :=
         IntersectsBased.entrylength
           (read uninit_cell sort_array (permutation !!! (offset !!! i))) in
       let out :=
         <[i := MkIntersectedRank (MkIntersectedRankForSorting rankentrylength 0)
                  accum_optical_length intensity_contribution]> out in
       let offset := <[i := i]> offset in
       let offset := if i + 1 =? n then <[n := n]> offset else offset in
       (offset, out))
    (offset, out).

(** The reads of the callback stay inside the views: the table is a CSR
    table of one slice per query, every recorded index is the index of a
    box, and [offset(i)] is the index of an intersection for every ray [i]
    (the last ray has an intersection). *)
Definition reads_in_range (boxes : list Box) (queries : list Query)
    (offset : list nat) (in_ : list Z) : Prop :=
  is_csr (length queries) offset in_ ∧
  Forall (fun b => (0 ≤ b < Z.of_nat (length boxes))%Z) in_ ∧
  ∀ i, i < length queries → offset !!! i < length in_.

(** What ray [i] meets in its boxes, in the order of the table: [length]
    and [entrylength] of every intersection of its slice. *)
Definition overlaps_of_ray (boxes : list Box) (offset : list nat) (in_ : list Z)
    (i : nat) (q : Query) : list (float * float) :=
  (fun b => overlapDistance (getGeometry q) (read uninit_box boxes (Z.to_nat b)))
    <$> slice offset in_ i.
End AccumulateRayRankIntersections.

(** ** The set-up of [main] and the deposit of the energies *)

Module ArborX.

(** [ArborX::Point], [ArborX::Box] and [ArborX::Experimental::Ray], as far
    as the example builds and reads them; the direction of a ray has the
    three coordinates of a point. *)
Record Point (float : Type) := MkPoint { c0 : float; c1 : float; c2 : float }.
Arguments MkPoint {float} c0 c1 c2.
Arguments c0 {float} p.
Arguments c1 {float} p.
Arguments c2 {float} p.

Record Box (float : Type) := MkBox {
  minCorner : Point float;
  maxCorner : Point float
}.
Arguments MkBox {float} minCorner maxCorner.
Arguments minCorner {float} b.
Arguments maxCorner {float} b.

Record Ray (float : Type) := MkRay {
  origin : Point float;
  direction : Point float
}.
Arguments MkRay {float} origin direction.
Arguments origin {float} r.
Arguments direction {float} r.

End ArborX.

(** [Kokkos::MDRangePolicy<Kokkos::Rank<3>>] over [{0,0,0}, {nx,ny,nz}] and
    [Kokkos::Rank<2>] over [{0,0}, {n0,n1}], run in index order. *)
Definition MDRange3 {St} (nx ny nz : nat) (body : nat → nat → nat → St → St)
    (s : St) : St :=
  for_loop 0 nx
    (fun i s => for_loop 0 ny (fun j s => for_loop 0 nz (fun k s => body i j k s) s) s)
    s.

Definition MDRange2 {St} (n0 n1 : nat) (body : nat → nat → St → St) (s : St) : St :=
  for_loop 0 n0 (fun i s => for_loop 0 n1 (fun j s => body i j s) s) s.

(** [int startbox = num_boxes_per_rank * rank;
     int bid = (int)i / rays_per_box + startbox;] *)
Definition global_box_id (num_boxes_per_rank rank rays_per_box i : nat) : nat :=
  let startbox := num_boxes_per_rank * rank in
  i / rays_per_box + startbox.

Section Main.
Context {float G : Type}.
Variable fzero : float.
Variable fadd fsub fmul fdiv : float → float → float.
Variable fneg fexp fcos fsin facos : float → float.
Variable of_int : nat → float.
Variable kappa pi two_pi : float.
(** [Kokkos::rand<GeneratorType, float>::draw(g, range)] and [draw(g)] on a
    generator state.  The pool of generators is one state, handed from an
    iteration to the next. *)
Variable draw : G → float → float * G.
Variable draw_unit : G → float * G.
Variable uninit_box : ArborX.Box float.
Variable uninit_ray : ArborX.Ray float.

(** The box of the cell [(i, j, k)] of the grid:
    [{{i * dx, j * dy, k * dz}, {(i + 1) * dx, (j + 1) * dy, (k + 1) * dz}}]. *)
Definition grid_box (dx dy dz : float) (i j k : nat) : ArborX.Box float :=
  ArborX.MkBox
    (ArborX.MkPoint (fmul (of_int i) dx) (fmul (of_int j) dy) (fmul (of_int k) dz))
    (ArborX.MkPoint (fmul (of_int (i + 1)) dx) (fmul (of_int (j + 1)) dy)
       (fmul (of_int (k + 1)) dz)).

(** "Example::initialize_boxes" *)
Definition initialize_boxes (nx ny nz : nat) (dx dy dz : float)
    (boxes : list (ArborX.Box float)) : list (ArborX.Box float) :=
  MDRange3 nx ny nz
    (fun i j k boxes =>
       let box_id := i + nx * j + nx * ny * k in
       <[box_id := grid_box dx dy dz i j k]> boxes)
    boxes.

(** The ray that "Example::initialize_rays" shoots from the box [b] with the
    generator [g], and the generator after its five draws. *)
Definition initialize_ray (b : ArborX.Box float) (dx dy dz : float) (g : G)
    : ArborX.Ray float * G :=
  let '(r0, g) := draw g dx in
  let '(r1, g) := draw g dy in
  let '(r2, g) := draw g dz in
  let origin :=
    ArborX.MkPoint (fadd (ArborX.c0 (ArborX.minCorner b)) r0)
      (fadd (ArborX.c1 (ArborX.minCorner b)) r1)
      (fadd (ArborX.c2 (ArborX.minCorner b)) r2) in
  let '(upsilon, g) := draw g two_pi in
  let '(u, g) := draw_unit g in
  let theta := facos (fsub (of_int 1) (fmul (of_int 2) u)) in
  let direction :=
    ArborX.MkPoint (fmul (fcos upsilon) (fsin theta))
      (fmul (fsin upsilon) (fsin theta)) (fcos theta) in
  (ArborX.MkRay origin direction, g).

(** "Example::initialize_rays" *)
Definition initialize_rays (boxes : list (ArborX.Box float))
    (num_boxes rays_per_box : nat) (dx dy dz : float)
    (rays : list (ArborX.Ray float)) (rand_pool : G) : list (ArborX.Ray float) * G :=
  MDRange2 num_boxes rays_per_box
    (fun i j '(rays, g) =>
       let b := read uninit_box boxes i in
       let '(ray, g) := initialize_ray b dx dy dz g in
       (<[j + i * rays_per_box := ray]> rays, g))
    (rays, rand_pool).

(** "Example::problem_setup": the grid of boxes and the rays of [main]. *)
Definition problem_setup (nx ny nz rays_per_box : nat) (lx ly lz : float)
    (rand_pool : G) : list (ArborX.Box float) * list (ArborX.Ray float) :=
  let num_boxes := nx * ny * nz in
  let dx := fdiv lx (of_int nx) in
  let dy := fdiv ly (of_int ny) in
  let dz := fdiv lz (of_int nz) in
  let boxes :=
    initialize_boxes nx ny nz dx dy dz (replicate num_boxes uninit_box) in
  let rays :=
    (initialize_rays boxes num_boxes rays_per_box dx dy dz
       (replicate (rays_per_box * num_boxes) uninit_ray) rand_pool).1 in
  (boxes, rays).

(** [Kokkos::atomic_add(&energy(bid), x)] *)
Definition atomic_add (energy : list float) (bid : nat) (x : float) : list float :=
  alter (fun e => fadd e x) bid energy.

(** What ray [i] adds to the energy of its box. *)
Definition deposited (offsets : list nat) (values : list (IntersectedRank float))
    (permutation : list nat) (rays_per_box i : nat) : float :=
  let ray_intensity :=
    evaluate_ray_intensity fzero fadd fmul fneg fexp offsets values permutation i in
  fdiv (fmul (fmul (fmul ray_intensity (of_int 4)) pi) kappa) (of_int rays_per_box).

(** "Evaluating ray intensities": [energy_distributed_intersects] of one
    rank, from a view of [num_boxes] zeros; the atomic additions are made in
    index order. *)
Definition evaluate_ray_intensities {Ray} (rays_for_rank : list Ray)
    (offsets : list nat) (values : list (IntersectedRank float))
    (permutation : list nat) (num_boxes num_boxes_per_rank rank rays_per_box : nat)
    : list float :=
  parallel_for rays_for_rank
    (fun i _ energy =>
       let bid := global_box_id num_boxes_per_rank rank rays_per_box i in
       atomic_add energy bid (deposited offsets values permutation rays_per_box i))
    (replicate num_boxes fzero).
End Main.

(** ** A small tree and a small scene for the examples *)

(** The predicates are numbers.  The spatial predicate [q] matches the
    primitives [0 .. q - 1]; the nearest predicate [q] asks for [q]
    neighbours among five primitives, primitive [i] at distance [i + 1];
    the key of [q] on the curve is [10 - q]. *)
Definition example_bounds (bvh : unit) : unit := tt.

Definition example_traverse_spatial (bvh : unit) (q : nat) : list Z :=
  Z.of_nat <$> seq 0 q.

Definition example_traverse_nearest (bvh : unit) (q : nat) : list (Z * nat) :=
  (fun i => (Z.of_nat i, S i)) <$> seq 0 (q `min` 5).

Definition example_getK (q : nat) : nat := q.

Definition example_curve_key (b : unit) (q : nat) : nat := 10 - q.

Definition example_spatial_inline (policy : TraversalPolicy) (batch : list nat)
    : Run (Event nat Z) (list nat * list Z) :=
  queryDispatch_spatial_inline example_bounds example_traverse_spatial
    example_curve_key 0 0%Z tt batch CallbackDefaultSpatialPredicate [] [] policy.

Definition example_nearest_inline (policy : TraversalPolicy) (batch : list nat)
    : Run (Event nat (Z * nat)) (list nat * list (Z * nat)) :=
  queryDispatch_nearest_inline example_bounds example_traverse_nearest example_getK
    example_curve_key 0 (0%Z, 0) tt batch
    CallbackDefaultNearestPredicateWithDistance [] [] policy.

(** A post callback that hands the collected table on. *)
Definition example_post_callback : PostCallback (Pred:=nat) Z Z :=
  fun predicates offset indices out => (offset, indices).

Definition example_spatial_post (policy : TraversalPolicy) (batch : list nat)
    : Run (Event nat Z) (list nat * list Z) :=
  queryDispatch_spatial_post example_bounds example_traverse_spatial
    example_curve_key 0 0%Z tt batch example_post_callback [] [] policy.

(** Partial results of one ray, with entry distances as integers: host A
    entered at [1], host B at [3], and a host C entered at [1] as well. *)
Definition host_A : IntersectedRank Z :=
  MkIntersectedRank (MkIntersectedRankForSorting 1%Z 0) 10%Z 100%Z.

Definition host_B : IntersectedRank Z :=
  MkIntersectedRank (MkIntersectedRankForSorting 3%Z 0) 20%Z 200%Z.

Definition host_C : IntersectedRank Z :=
  MkIntersectedRank (MkIntersectedRankForSorting 1%Z 0) 30%Z 300%Z.

(** A rank with the boxes [0], [1] and [2] on a line, and two rays, at [0]
    and at [3]: a ray enters the box [b] at the distance [|b - ray|] and
    runs the length [2 * b + 1] through it.  The floats are integers, [exp]
    is the identity, [kappa] is [10], [sigma] is [1], [temp] is [2] and [pi]
    is [3]. *)
Definition example_overlapDistance (ray box : Z) : Z * Z :=
  ((2 * box + 1)%Z, Z.abs (box - ray)).

Definition example_boxes : list Z := [0; 1; 2]%Z.

Definition example_queries : list Z := [0; 3]%Z.

(** The callback of the example on the table with the offsets [0; 2; 3]:
    the first ray meets two boxes, the second ray one. *)
Definition example_rank_callback (in_ : list Z)
    : list nat * list (IntersectedRank Z) :=
  AccumulateRayRankIntersections Z.ltb 0%Z Z.add Z.sub Z.mul Z.div Z.pow Z.opp id
    Z.of_nat 10%Z 1%Z 2%Z 3%Z id example_overlapDistance 0%Z 0%Z
    (IntersectsBased.MkIntersectedCellForSorting 0%Z 0)
    (MkIntersectedRank (MkIntersectedRankForSorting 0%Z 0) 0%Z 0%Z)
    example_boxes 0 example_queries [0; 2; 3] in_ [].

(** A generator that counts its draws: a draw yields the range plus the
    count. *)
Definition example_draw (g : nat) (range : Z) : Z * nat :=
  ((range + Z.of_nat g)%Z, S g).

Definition example_draw_unit (g : nat) : Z * nat := (Z.of_nat g, S g).

(** The set-up of [main] for a grid of [2 x 1 x 1] boxes of side [2] with
    two rays per box. *)
Definition example_setup : list (ArborX.Box Z) * list (ArborX.Ray Z) :=
  problem_setup Z.add Z.sub Z.mul Z.div id id id Z.of_nat 6%Z example_draw
    example_draw_unit
    (ArborX.MkBox (ArborX.MkPoint 0 0 0) (ArborX.MkPoint 0 0 0))%Z
    (ArborX.MkRay (ArborX.MkPoint 0 0 0) (ArborX.MkPoint 0 0 0))%Z
    2 1 1 2 4%Z 2%Z 2%Z 0.

(** * Properties *)

(** ** The outcome-and-trace monad *)

Lemma outcome_bind_tell {E A} (ev : E) (k : Run E A) :
  outcome (tell ev ;;; k) = outcome k.
Proof. reflexivity. Qed.

Lemma trace_bind_tell {E A} (ev : E) (k : Run E A) :
  trace (tell ev ;;; k) = ev :: trace k.
Proof. reflexivity. Qed.

(** ** Exclusive prefix sums *)

Lemma length_exclusive_scan acc v : length (exclusive_scan acc v) = length v.
Proof. revert acc. induction v as [|x v IH]; intros acc; simpl; [done|]. by rewrite IH. Qed.

Lemma lookup_exclusive_scan acc v i :
  i < length v → exclusive_scan acc v !! i = Some (acc + sum_list (take i v)).
Proof.
  revert acc i. induction v as [|x v IH]; intros acc i Hi; simpl in *; [lia|].
  destruct i as [|i]; simpl.
  - f_equal. lia.
  - rewrite IH by lia. f_equal. lia.
Qed.

Lemma exclusive_scan_snoc acc cs g :
  exclusive_scan acc (cs ++ [g]) = exclusive_scan acc cs ++ [acc + sum_list cs].
Proof.
  revert acc. induction cs as [|c cs IH]; intros acc; simpl.
  - f_equal. lia.
  - rewrite IH. do 3 f_equal. lia.
Qed.

Lemma exclusivePrefixSum_snoc cs g : exclusivePrefixSum (cs ++ [g]) = offsets_of cs.
Proof. unfold offsets_of, exclusivePrefixSum. by rewrite !exclusive_scan_snoc. Qed.

Lemma length_offsets_of cs : length (offsets_of cs) = S (length cs).
Proof.
  unfold offsets_of, exclusivePrefixSum.
  rewrite length_exclusive_scan, length_app. simpl. lia.
Qed.

Lemma lookup_offsets_of cs i :
  i ≤ length cs → offsets_of cs !! i = Some (sum_list (take i cs)).
Proof.
  intros Hi. unfold offsets_of, exclusivePrefixSum.
  rewrite lookup_exclusive_scan by (rewrite length_app; simpl; lia).
  simpl. f_equal. rewrite take_app_le by done. done.
Qed.

Lemma lookup_total_offsets_of cs i :
  i ≤ length cs → offsets_of cs !!! i = sum_list (take i cs).
Proof. intros Hi. apply list_lookup_total_correct. by apply lookup_offsets_of. Qed.

Lemma lastElement_offsets_of cs : lastElement (offsets_of cs) = sum_list cs.
Proof.
  unfold lastElement. rewrite last_lookup, length_offsets_of. simpl.
  rewrite lookup_offsets_of by done. simpl. by rewrite firstn_all.
Qed.

Lemma sum_list_take_S cs m c :
  cs !! m = Some c → sum_list (take (S m) cs) = sum_list (take m cs) + c.
Proof.
  intros Hm. rewrite (take_S_r _ _ _ Hm), sum_list_with_app. simpl. lia.
Qed.

Lemma sum_list_take_mono cs m m' :
  m ≤ m' → sum_list (take m cs) ≤ sum_list (take m' cs).
Proof.
  intros Hle. replace m' with (m + (m' - m)) by lia.
  rewrite <- take_take_drop, sum_list_with_app. lia.
Qed.

Lemma locate_slot cs x :
  x < sum_list cs →
  ∃ m c y, cs !! m = Some c ∧ y < c ∧ x = sum_list (take m cs) + y.
Proof.
  revert x. induction cs as [|c cs IH]; intros x Hx; simpl in *; [lia|].
  destruct (decide (x < c)) as [Hlt|Hge].
  - exists 0, c, x. simpl. split_and!; [done|done|lia].
  - destruct (IH (x - c)) as (m & c' & y & Hm & Hy & Hxy); [lia|].
    exists (S m), c', y. simpl. split_and!; [done|done|lia].
Qed.

Lemma lookup_concat_slot {A} (rss : list (list A)) m rs y :
  rss !! m = Some rs → y < length rs →
  concat rss !! (sum_list (take m (length <$> rss)) + y) = rs !! y.
Proof.
  revert m. induction rss as [|rs0 rss IH]; intros m Hm Hy; [done|].
  destruct m as [|m]; csimpl in *.
  - simplify_eq. by rewrite lookup_app_l.
  - rewrite lookup_app_r by lia.
    replace (length rs0 + sum_list (take m (length <$> rss)) + y - length rs0)
      with (sum_list (take m (length <$> rss)) + y) by lia.
    by apply IH.
Qed.

Lemma length_concat_sum {A} (rss : list (list A)) :
  length (concat rss) = sum_list (length <$> rss).
Proof. induction rss as [|rs rss IH]; simpl; [done|]. rewrite length_app. by rewrite IH. Qed.

(** ** Consecutive writes and parallel loops *)

Lemma length_write_at {A} o (rs out : list A) :
  length (write_at o rs out) = length out.
Proof.
  revert o out. induction rs as [|r rs IH]; intros o out; simpl; [done|].
  by rewrite IH, length_insert.
Qed.

Lemma lookup_write_at_miss {A} o (rs out : list A) x :
  x < o ∨ o + length rs ≤ x → write_at o rs out !! x = out !! x.
Proof.
  revert o out. induction rs as [|r rs IH]; intros o out Hx; simpl in *; [done|].
  rewrite IH by lia. apply list_lookup_insert_ne. lia.
Qed.

Lemma lookup_write_at_hit {A} o (rs out : list A) y :
  y < length rs → o + y < length out → write_at o rs out !! (o + y) = rs !! y.
Proof.
  revert o out y. induction rs as [|r rs IH]; intros o out y Hy Ho; simpl in *; [lia|].
  destruct y as [|y]; simpl.
  - rewrite lookup_write_at_miss by lia.
    rewrite Nat.add_0_r. apply list_lookup_insert_eq. lia.
  - replace (o + S y) with (S o + y) by lia.
    apply IH; [lia|]. rewrite length_insert. lia.
Qed.

Lemma parallel_for_from_ind {Q St} (P : nat → St → Prop)
    (body : nat → Q → St → St) qs i s :
  P i s →
  (∀ j q s', qs !! j = Some q → P (i + j) s' → P (S (i + j)) (body (i + j) q s')) →
  P (i + length qs) (parallel_for_from i qs body s).
Proof.
  revert i s. induction qs as [|q qs IH]; intros i s Hs Hstep; simpl.
  - by rewrite Nat.add_0_r.
  - replace (i + S (length qs)) with (S i + length qs) by lia.
    apply IH.
    + specialize (Hstep 0 q s). rewrite Nat.add_0_r in Hstep. by apply Hstep.
    + intros j q' s' Hj Hs'. specialize (Hstep (S j) q' s').
      replace (i + S j) with (S i + j) in Hstep by lia. by apply Hstep.
Qed.

Lemma parallel_for_ind {Q St} (P : nat → St → Prop)
    (body : nat → Q → St → St) qs s :
  P 0 s →
  (∀ j q s', qs !! j = Some q → P j s' → P (S j) (body j q s')) →
  P (length qs) (parallel_for qs body s).
Proof.
  intros Hs Hstep. apply (parallel_for_from_ind P body qs 0 s Hs). exact Hstep.
Qed.

Lemma parallel_for_from_fmap {P Q St} (f : P → Q) (body : nat → Q → St → St) ps i s :
  parallel_for_from i (f <$> ps) body s
  = parallel_for_from i ps (fun j p => body j (f p)) s.
Proof. revert i s. induction ps as [|p ps IH]; intros i s; csimpl; [done|]. apply IH. Qed.

Lemma parallel_for_from_ext {Q St} (body1 body2 : nat → Q → St → St) qs i s :
  (∀ j q s', qs !! j = Some q → body1 (i + j) q s' = body2 (i + j) q s') →
  parallel_for_from i qs body1 s = parallel_for_from i qs body2 s.
Proof.
  revert i s. induction qs as [|q qs IH]; intros i s Hext; simpl; [done|].
  specialize (Hext 0 q s eq_refl) as H0. rewrite Nat.add_0_r in H0. rewrite H0.
  apply IH. intros j q' s' Hj. specialize (Hext (S j) q' s' Hj).
  by replace (i + S j) with (S i + j) in Hext by lia.
Qed.

Lemma parallel_for_from_pair {Q A B} (fa : nat → Q → A → A) (fb : nat → Q → B → B)
    qs i a b :
  parallel_for_from i qs (fun j q s => (fa j q s.1, fb j q s.2)) (a, b)
  = (parallel_for_from i qs fa a, parallel_for_from i qs fb b).
Proof. revert i a b. induction qs as [|q qs IH]; intros i a b; simpl; [done|]. apply IH. Qed.

(** [v(i) = f (qs(i))] for every [i], on a view as long as [qs]. *)
Lemma parallel_for_store {Q A} (f : Q → A) (qs : list Q) (u : A) :
  parallel_for qs (fun i q v => <[i := f q]> v) (replicate (length qs) u) = f <$> qs.
Proof.
  pose (P := fun (j : nat) (v : list A) =>
    length v = length qs ∧ ∀ k q, k < j → qs !! k = Some q → v !! k = Some (f q)).
  assert (P (length qs)
            (parallel_for qs (fun i q v => <[i := f q]> v) (replicate (length qs) u)))
    as [Hlen Hhit].
  { apply parallel_for_ind.
    - split; [by rewrite length_replicate|intros; lia].
    - intros j q v Hj [Hlen Hhit]. split; [by rewrite length_insert|].
      apply lookup_lt_Some in Hj as Hjn.
      intros k q' Hk Hkq. destruct (decide (k = j)) as [->|Hne].
      + assert (q' = q) as -> by congruence. apply list_lookup_insert_eq. lia.
      + rewrite list_lookup_insert_ne by done. apply Hhit; [lia|done]. }
  apply list_eq. intros k. rewrite list_lookup_fmap.
  destruct (qs !! k) as [q|] eqn:Hq; simpl.
  - apply Hhit; [|done]. by apply lookup_lt_Some in Hq.
  - apply lookup_ge_None. apply lookup_ge_None in Hq. lia.
Qed.

(** ** Offset views *)

Lemma underlying_with_data v d : underlying (with_data v d) = d.
Proof. by destruct v. Qed.

Lemma position_with_data v d i : position (with_data v d) i = position v i.
Proof. by destruct v. Qed.

Lemma with_data_with_data v d d' : with_data (with_data v d) d' = with_data v d'.
Proof. by destruct v. Qed.

Lemma with_data_underlying v : with_data v (underlying v) = v.
Proof. by destruct v. Qed.

Lemma view_set_with_data v d i x :
  view_set (with_data v d) i x = with_data v (<[position v i := x]> d).
Proof. by destruct v. Qed.

Lemma view_get_with_data v d i : view_get (with_data v d) i = d !!! position v i.
Proof. by destruct v. Qed.

Section Reordered.
Variable v : OffsetView.
Variable n : nat.
Hypothesis Hperm : reorders v n.

Lemma position_lt i : i < n → position v i < n.
Proof using Hperm.
  intros Hi.
  assert (position v i ∈ seq 0 n) as Hin.
  { rewrite <- Hperm. apply list_elem_of_fmap. exists i. split; [done|].
    apply elem_of_seq. lia. }
  apply elem_of_seq in Hin. lia.
Qed.

Lemma position_inj i j : i < n → j < n → position v i = position v j → i = j.
Proof using Hperm.
  intros Hi Hj Heq.
  assert (NoDup (position v <$> seq 0 n)) as Hnd.
  { rewrite Hperm. apply NoDup_seq. }
  eapply (NoDup_lookup _ i j (position v i) Hnd).
  - rewrite list_lookup_fmap, lookup_seq_lt by done. done.
  - rewrite list_lookup_fmap, lookup_seq_lt by done. simpl. by rewrite Heq.
Qed.

Lemma position_surj m : m < n → ∃ i, i < n ∧ position v i = m.
Proof using Hperm.
  intros Hm.
  assert (m ∈ position v <$> seq 0 n) as Hin.
  { rewrite Hperm. apply elem_of_seq. lia. }
  apply list_elem_of_fmap in Hin as (i & -> & Hi).
  apply elem_of_seq in Hi. exists i. split; [lia|done].
Qed.

(** Storing one count per position fills the first [n] cells of the
    underlying view, cell [position v i] receiving count [i]. *)
Lemma store_counts_spec (cs : list nat) :
  length cs = n → n ≤ length (underlying v) →
  ∃ d, store_counts cs v = with_data v d
     ∧ length d = length (underlying v)
     ∧ (∀ k c, cs !! k = Some c → d !! position v k = Some c)
     ∧ (∀ x, n ≤ x → d !! x = underlying v !! x).
Proof using Hperm.
  intros Hcs Hdata. unfold store_counts.
  pose (P := fun (j : nat) (off : OffsetView) =>
    ∃ d, off = with_data v d ∧ length d = length (underlying v)
       ∧ (∀ k c, k < j → cs !! k = Some c → d !! position v k = Some c)
       ∧ (∀ x, n ≤ x → d !! x = underlying v !! x)).
  assert (P (length cs) (parallel_for cs (fun i c off => view_set off i c) v))
    as (d & Hd & Hlen & Hhit & Hmiss).
  { apply parallel_for_ind.
    - exists (underlying v). rewrite with_data_underlying.
      split_and!; [done|done|intros; lia|done].
    - intros j c s' Hj (d & -> & Hlen & Hhit & Hmiss).
      apply lookup_lt_Some in Hj as Hjn. rewrite Hcs in Hjn.
      exists (<[position v j := c]> d). rewrite view_set_with_data.
      split_and!; [done|by rewrite length_insert|..].
      + intros k c' Hk Hkc. destruct (decide (k = j)) as [->|Hne].
        * assert (c' = c) as -> by congruence. apply list_lookup_insert_eq.
          pose proof (position_lt j Hjn). lia.
        * rewrite list_lookup_insert_ne.
          -- apply Hhit; [lia|done].
          -- intros Heq. apply Hne. symmetry. apply position_inj; [done|lia|done].
      + intros x Hx. rewrite list_lookup_insert_ne; [by apply Hmiss|].
        pose proof (position_lt j Hjn). lia. }
  exists d. split_and!; [done|done|..|done].
  intros k c Hk. apply Hhit; [|done]. by apply lookup_lt_Some in Hk.
Qed.

(** Writing, for every position [k], a list of at most [caps(position k)]
    values at the slot that the offsets of [caps] give to cell
    [position k]: every value then sits at its place in that slot. *)
Lemma slots_spec {Q A} (caps : list nat) (qs : list Q) (res : nat → Q → list A)
    (out : list A) :
  length caps = n → length qs = n → sum_list caps ≤ length out →
  (∀ k q c, qs !! k = Some q → caps !! position v k = Some c →
            length (res k q) ≤ c) →
  let final := parallel_for qs
    (fun i q o => write_at (view_get (with_data v (offsets_of caps)) i) (res i q) o)
    out in
  length final = length out ∧
  ∀ k q y, qs !! k = Some q → y < length (res k q) →
    final !! (sum_list (take (position v k) caps) + y) = res k q !! y.
Proof using Hperm.
  intros Hcaps Hqs Hout Hfit final.
  pose (P := fun (j : nat) (o : list A) =>
    length o = length out ∧
    ∀ k q y, k < j → qs !! k = Some q → y < length (res k q) →
      o !! (sum_list (take (position v k) caps) + y) = res k q !! y).
  assert (P (length qs) final) as [Hlen Hhit].
  { apply parallel_for_ind.
    - split; [done|]. intros; lia.
    - intros j q o Hj [Hlen Hhit].
      apply lookup_lt_Some in Hj as Hjn. rewrite Hqs in Hjn.
      pose proof (position_lt j Hjn) as Hpj.
      rewrite view_get_with_data, lookup_total_offsets_of by lia.
      destruct (lookup_lt_is_Some_2 caps (position v j)) as [cj Hcj]; [lia|].
      pose proof (Hfit j q cj Hj Hcj) as Hfj.
      pose proof (sum_list_take_S caps _ _ Hcj) as HSj.
      split; [by rewrite length_write_at|].
      intros k q' y Hk Hkq Hy. destruct (decide (k = j)) as [->|Hne].
      + assert (q' = q) as -> by congruence. apply lookup_write_at_hit; [done|].
        pose proof (sum_list_take_mono caps (S (position v j)) n Hpj) as Hm.
        rewrite <- Hcaps, firstn_all in Hm. lia.
      + assert (k < n) as Hkn by lia.
        pose proof (position_lt k Hkn) as Hpk.
        destruct (lookup_lt_is_Some_2 caps (position v k)) as [ck Hck]; [lia|].
        pose proof (Hfit k q' ck Hkq Hck) as Hfk.
        pose proof (sum_list_take_S caps _ _ Hck) as HSk.
        assert (position v k ≠ position v j) as Hpne.
        { intros Heq. apply Hne. by apply position_inj. }
        rewrite lookup_write_at_miss; [apply Hhit; [lia|done|done]|].
        destruct (decide (position v k < position v j)) as [Hlt|Hge].
        * left.
          pose proof (sum_list_take_mono caps (S (position v k)) (position v j)).
          lia.
        * right.
          pose proof (sum_list_take_mono caps (S (position v j)) (position v k)).
          lia. }
  split; [done|]. intros k q y Hk Hy. apply Hhit; [|done|done].
  by apply lookup_lt_Some in Hk.
Qed.
End Reordered.

(** ** The CSR table of a batch *)

Lemma overflows_spec {Pred Value} (run : Pred → list Value) batch caps :
  overflows run batch caps = true ↔
  ∃ m q c, batch !! m = Some q ∧ caps !! m = Some c ∧ c < length (run q).
Proof.
  unfold overflows. rewrite existsb_exists. split.
  - intros ([q c] & Hin & Hlt). apply list_elem_of_In, list_elem_of_lookup in Hin.
    destruct Hin as [m Hm]. apply lookup_zip_Some in Hm as [Hq Hc].
    apply Nat.ltb_lt in Hlt. by exists m, q, c.
  - intros (m & q & c & Hq & Hc & Hlt). exists (q, c). split.
    + apply list_elem_of_In, list_elem_of_lookup. exists m. by apply lookup_zip_Some.
    + by apply Nat.ltb_lt.
Qed.

Lemma snoc_of_prefix (d l : list nat) :
  length d = S (length l) → (∀ m, m < length l → d !! m = l !! m) →
  ∃ g, d = l ++ [g].
Proof.
  intros Hlen Hpre.
  destruct (lookup_lt_is_Some_2 d (length l)) as [g Hg]; [lia|].
  exists g. apply list_eq. intros i.
  destruct (decide (i < length l)) as [Hlt|Hge].
  - rewrite lookup_app_l by done. by apply Hpre.
  - destruct (decide (i = length l)) as [->|Hne].
    + rewrite lookup_app_r by lia. by rewrite Nat.sub_diag.
    + rewrite !(proj2 (lookup_ge_None _ _)); [done|..].
      * rewrite length_app. simpl. lia.
      * lia.
Qed.

Lemma slots_concat {A} (rss : list (list A)) (final : list A) :
  length final = sum_list (length <$> rss) →
  (∀ m rs y, rss !! m = Some rs → y < length rs →
     final !! (sum_list (take m (length <$> rss)) + y) = rs !! y) →
  final = concat rss.
Proof.
  intros Hlen Hslot. apply list_eq. intros x.
  destruct (decide (x < sum_list (length <$> rss))) as [Hlt|Hge].
  - destruct (locate_slot _ _ Hlt) as (m & c & y & Hm & Hy & ->).
    rewrite list_lookup_fmap in Hm.
    destruct (rss !! m) as [rs|] eqn:Hrs; simplify_eq/=.
    rewrite (Hslot m rs y Hrs Hy). symmetry. by apply lookup_concat_slot.
  - rewrite !(proj2 (lookup_ge_None _ _)); [done|..].
    + rewrite length_concat_sum. lia.
    + lia.
Qed.

Section QueryImplCorrect.
Context {Pred Value In : Type}.
Variable uninit : Value.
Variable run : Pred → list Value.
Variable batch predicates : list Pred.
Variable v : OffsetView.
Hypothesis Hpresents : presents v predicates batch.

Local Abbreviation n := (length batch).
Local Abbreviation cnt := (fun q : Pred => length (run q)).

Lemma presents_lookup i q :
  predicates !! i = Some q → batch !! position v i = Some q.
Proof using Hpresents.
  destruct Hpresents as (Hlen & Hperm & Hview). intros Hi.
  rewrite <- Hview; [done|]. apply lookup_lt_Some in Hi. lia.
Qed.

Lemma presents_surj m q :
  batch !! m = Some q → ∃ i, predicates !! i = Some q ∧ position v i = m.
Proof using Hpresents.
  destruct Hpresents as (Hlen & Hperm & Hview). intros Hm.
  apply lookup_lt_Some in Hm as Hmn.
  destruct (position_surj v n Hperm m Hmn) as (i & Hi & <-).
  exists i. split; [|done]. by rewrite Hview.
Qed.

Lemma store_counts_presented :
  length (underlying v) = S n →
  ∃ g, store_counts (count_results run predicates) v
       = with_data v ((cnt <$> batch) ++ [g]).
Proof using Hpresents.
  destruct Hpresents as (Hlen & Hperm & Hview). intros Hdata.
  destruct (store_counts_spec v n Hperm (count_results run predicates))
    as (d & Hd & Hdlen & Hhit & _).
  { unfold count_results. rewrite length_map. done. }
  { lia. }
  destruct (snoc_of_prefix d (cnt <$> batch)) as [g ->].
  - rewrite length_fmap. lia.
  - intros m Hm. rewrite length_fmap in Hm.
    destruct (lookup_lt_is_Some_2 batch m Hm) as [q Hq].
    destruct (presents_surj m q Hq) as (i & Hi & <-).
    rewrite (Hhit i (cnt q)).
    + rewrite list_lookup_fmap, Hq. done.
    + unfold count_results. change (map ?f ?l) with (f <$> l).
      rewrite list_lookup_fmap, Hi. done.
  - by exists g.
Qed.

(** Writing, through the view, one list of values per predicate at the
    slots of the final offsets leaves the results in batch order. *)
Lemma slots_presented (res : nat → Pred → list Value) :
  (∀ k q, predicates !! k = Some q → res k q = run q) →
  parallel_for predicates
    (fun i q o =>
       write_at (view_get (with_data v (offsets_of (cnt <$> batch))) i) (res i q) o)
    (reallocWithoutInitializing uninit (sum_list (cnt <$> batch)))
  = concat (run <$> batch).
Proof using Hpresents.
  destruct Hpresents as (Hlen & Hperm & Hview). intros Hres.
  destruct (slots_spec v n Hperm (cnt <$> batch) predicates res
              (reallocWithoutInitializing uninit (sum_list (cnt <$> batch))))
    as [Hflen Hslot].
  { by rewrite length_fmap. }
  { done. }
  { unfold reallocWithoutInitializing. by rewrite length_replicate. }
  { intros k q c Hk Hc. rewrite (Hres k q Hk).
    rewrite list_lookup_fmap, (presents_lookup k q Hk) in Hc.
    simpl in Hc. injection Hc as <-. done. }
  apply slots_concat.
  - rewrite Hflen. unfold reallocWithoutInitializing.
    rewrite length_replicate, <- list_fmap_compose. done.
  - intros m rs y Hm Hy. rewrite list_lookup_fmap in Hm.
    destruct (batch !! m) as [q|] eqn:Hq; [|done]. simpl in Hm.
    injection Hm as <-.
    destruct (presents_surj m q Hq) as (i & Hi & <-).
    rewrite <- list_fmap_compose.
    specialize (Hslot i q y Hi). rewrite (Hres i q Hi) in Hslot.
    by apply Hslot.
Qed.

Lemma two_pass_outcome :
  length (underlying v) = S n →
  outcome (two_pass (In:=In) uninit run predicates v) = Returned (csr_of run batch).
Proof using Hpresents.
  intros Hdata. unfold two_pass. rewrite !outcome_bind_tell. simpl.
  destruct (store_counts_presented Hdata) as [g ->].
  rewrite underlying_with_data, with_data_with_data, exclusivePrefixSum_snoc.
  rewrite lastElement_offsets_of. unfold csr_of, writing_pass. do 2 f_equal.
  by apply (slots_presented (fun _ q => run q)).
Qed.
End QueryImplCorrect.

Lemma overflow_spec (counts : list nat) (offset : OffsetView) :
  overflow counts offset = true ↔
  ∃ i c, counts !! i = Some c ∧ capacity offset i < c.
Proof.
  unfold overflow.
  pose (P := fun (j : nat) (b : bool) =>
    b = true ↔ ∃ i c, i < j ∧ counts !! i = Some c ∧ capacity offset i < c).
  assert (P (length counts)
            (parallel_for counts (fun i c b => b || (capacity offset i <? c)) false))
    as HP.
  { apply parallel_for_ind.
    - split; [done|]. intros (i & c & Hi & _). lia.
    - intros j c b Hj HPj. unfold P in *. rewrite orb_true_iff, HPj, Nat.ltb_lt.
      split.
      + intros [(i & c' & Hi & Hc & Hlt)|Hlt].
        * exists i, c'. split_and!; [lia|done|done].
        * exists j, c. split_and!; [lia|done|done].
      + intros (i & c' & Hi & Hc & Hlt). destruct (decide (i = j)) as [->|Hne].
        * right. congruence.
        * left. exists i, c'. split_and!; [lia|done|done]. }
  unfold P in HP. rewrite HP. split.
  - intros (i & c & _ & Hc & Hlt). by exists i, c.
  - intros (i & c & Hc & Hlt). exists i, c. split_and!; [|done|done].
    by apply lookup_lt_Some in Hc.
Qed.

Section BufferedCorrect.
Context {Pred Value In : Type}.
Variable uninit : Value.
Variable run : Pred → list Value.
Variable batch predicates : list Pred.
Variable v : OffsetView.
Variable caps : list nat.
Hypothesis Hpresents : presents v predicates batch.
Hypothesis Hcaps : length caps = length batch.
Hypothesis Htentative : underlying v = offsets_of caps.

Local Abbreviation n := (length batch).
Local Abbreviation cnt := (fun q : Pred => length (run q)).

Lemma length_tentative : length (underlying v) = S n.
Proof using Hcaps Htentative. by rewrite Htentative, length_offsets_of, Hcaps. Qed.

Lemma capacity_presented i q :
  predicates !! i = Some q → caps !! position v i = Some (capacity v i).
Proof using Hpresents Hcaps Htentative.
  intros Hi. destruct Hpresents as (Hlen & Hperm & Hview).
  apply lookup_lt_Some in Hi. rewrite Hlen in Hi.
  pose proof (position_lt v n Hperm i Hi) as Hp.
  destruct (lookup_lt_is_Some_2 caps (position v i)) as [c Hc]; [lia|].
  rewrite Hc. f_equal. unfold capacity, view_get. rewrite Htentative.
  rewrite !lookup_total_offsets_of by lia.
  rewrite (sum_list_take_S _ _ _ Hc). lia.
Qed.

Lemma overflow_presented :
  overflow (count_results run predicates) v = overflows run batch caps.
Proof using Hpresents Hcaps Htentative.
  apply eq_true_iff_eq. rewrite overflow_spec, overflows_spec.
  unfold count_results.
  change (map ?f ?l) with (f <$> l). split.
  - intros (i & c & Hc & Hlt). rewrite list_lookup_fmap in Hc.
    destruct (predicates !! i) as [q|] eqn:Hq; [|done]. simpl in Hc.
    injection Hc as <-. exists (position v i), q, (capacity v i).
    split_and!; [by apply (presents_lookup _ _ _ Hpresents)
                |by apply (capacity_presented i q)|done].
  - intros (m & q & c & Hm & Hc & Hlt).
    destruct (presents_surj _ _ _ Hpresents m q Hm) as (i & Hi & <-).
    exists i, (cnt q). rewrite list_lookup_fmap, Hi. split; [done|].
    rewrite (capacity_presented i q Hi) in Hc. injection Hc as <-. done.
Qed.

(** Without overflow the buffered pass leaves the results of every
    predicate at its tentative slot. *)
Lemma buffered_pass_slot out i q :
  sum_list caps ≤ length out →
  overflows run batch caps = false → predicates !! i = Some q →
  take (cnt q) (drop (view_get v i) (buffered_pass run predicates v out)) = run q.
Proof using Hpresents Hcaps Htentative.
  intros Hout Hno Hi. destruct Hpresents as (Hlen & Hperm & Hview).
  assert (∀ k q', predicates !! k = Some q' → cnt q' ≤ capacity v k) as Hfit.
  { intros k q' Hk. destruct (decide (cnt q' ≤ capacity v k)); [done|].
    exfalso. apply not_true_iff_false in Hno. apply Hno.
    rewrite <- overflow_presented. apply overflow_spec.
    exists k, (cnt q'). unfold count_results. change (map ?f ?l) with (f <$> l).
    rewrite list_lookup_fmap, Hk. split; [done|lia]. }
  destruct (slots_spec v n Hperm caps predicates
              (fun k q' => take (capacity v k) (run q')) out)
    as [Hflen Hslot]; [done|done|done|..].
  { intros k q' c Hk Hc. rewrite (capacity_presented k q' Hk) in Hc.
    injection Hc as <-. rewrite length_take. lia. }
  rewrite <- Htentative, with_data_underlying in Hslot, Hflen.
  fold (buffered_pass run predicates v out) in Hslot, Hflen.
  pose proof (Hfit i q Hi) as Hfi.
  apply lookup_lt_Some in Hi as Hin. rewrite Hlen in Hin.
  pose proof (position_lt v n Hperm i Hin) as Hp.
  assert (view_get v i = sum_list (take (position v i) caps)) as Hget.
  { unfold view_get. rewrite Htentative. apply lookup_total_offsets_of. lia. }
  apply list_eq. intros y. destruct (decide (y < cnt q)) as [Hy|Hy].
  - rewrite lookup_take_lt, lookup_drop, Hget by done.
    rewrite (Hslot i q y Hi).
    + by rewrite take_ge by lia.
    + rewrite length_take. lia.
  - rewrite lookup_take_ge by lia. symmetry. apply lookup_ge_None. lia.
Qed.

Lemma queryImpl_zero out :
  outcome (queryImpl (In:=In) uninit run predicates out v 0)
  = Returned (csr_of run batch).
Proof using Hpresents Hcaps Htentative.
  unfold queryImpl. rewrite Z.eqb_refl.
  apply two_pass_outcome; [done|apply length_tentative].
Qed.

Lemma queryImpl_fits out b :
  sum_list caps ≤ length out →
  b ≠ 0%Z → overflows run batch caps = false →
  outcome (queryImpl (In:=In) uninit run predicates out v b)
  = Returned (csr_of run batch).
Proof using Hpresents Hcaps Htentative.
  intros Hout Hb Hno. unfold queryImpl.
  destruct (Z.eqb_spec b 0) as [|_]; [done|]. rewrite outcome_bind_tell.
  rewrite overflow_presented, Hno.
  simpl. destruct (store_counts_presented run batch predicates v Hpresents
                     length_tentative) as [g ->].
  rewrite underlying_with_data, with_data_with_data, exclusivePrefixSum_snoc.
  rewrite lastElement_offsets_of. unfold csr_of, compact, count_results.
  do 2 f_equal. change (map ?f ?l) with (f <$> l).
  unfold parallel_for. rewrite parallel_for_from_fmap.
  apply (slots_presented uninit run batch predicates v Hpresents
           (fun i q => take (cnt q)
              (drop (view_get v i) (buffered_pass run predicates v out)))).
  intros k q Hk. by apply buffered_pass_slot.
Qed.

Lemma queryImpl_overflow_negative out b :
  (b < 0)%Z → overflows run batch caps = true →
  outcome (queryImpl (In:=In) uninit run predicates out v b)
  = Thrown CapacityExceeded.
Proof using Hpresents Hcaps Htentative.
  intros Hb Hov. unfold queryImpl.
  destruct (Z.eqb_spec b 0) as [|_]; [lia|]. rewrite outcome_bind_tell.
  rewrite overflow_presented, Hov.
  destruct (Z.ltb_spec b 0); [done|lia].
Qed.

Lemma queryImpl_overflow_positive out b :
  (0 < b)%Z → overflows run batch caps = true →
  outcome (queryImpl (In:=In) uninit run predicates out v b)
  = Returned (csr_of run batch).
Proof using Hpresents Hcaps Htentative.
  intros Hb Hov. unfold queryImpl.
  destruct (Z.eqb_spec b 0) as [|_]; [lia|]. rewrite outcome_bind_tell.
  rewrite overflow_presented, Hov.
  destruct (Z.ltb_spec b 0); [lia|].
  apply two_pass_outcome; [done|apply length_tentative].
Qed.

(** The traversals of a call of [queryImpl]. *)
Lemma queryImpl_trace out b :
  trace (queryImpl (In:=In) uninit run predicates out v b)
  = if (b =? 0)%Z then
      [Traversed CountingPass predicates; Traversed WritingPass predicates]
    else if overflows run batch caps && (0 <? b)%Z then
      [Traversed BufferedPass predicates;
       Traversed CountingPass predicates; Traversed WritingPass predicates]
    else [Traversed BufferedPass predicates].
Proof using Hpresents Hcaps Htentative.
  unfold queryImpl. destruct (Z.eqb_spec b 0) as [->|Hb]; [done|].
  rewrite trace_bind_tell, overflow_presented.
  destruct (overflows run batch caps); [|done].
  destruct (Z.ltb_spec b 0), (Z.ltb_spec 0 b); try lia; done.
Qed.
End BufferedCorrect.

(** ** std::sort *)

Section StdSort.
Context {A : Type}.
Variable lt : A → A → bool.

Lemma insert_sorted_Permutation x l : insert_sorted lt x l ≡ₚ x :: l.
Proof.
  induction l as [|y l IH]; simpl; [done|].
  destruct (lt x y); [done|]. rewrite IH. apply Permutation_swap.
Qed.

Lemma std_sort_Permutation l : std_sort lt l ≡ₚ l.
Proof.
  unfold std_sort.
  assert (∀ acc, foldl (fun sorted x => insert_sorted lt x sorted) acc l ≡ₚ acc ++ l)
    as Hgen.
  { induction l as [|x l IH]; intros acc; simpl.
    - by rewrite app_nil_r.
    - rewrite IH, insert_sorted_Permutation. simpl. apply Permutation_middle. }
  apply (Hgen []).
Qed.

Hypothesis lt_asym : ∀ a b, lt a b = true → lt b a = false.

Lemma insert_sorted_Sorted x l :
  Sorted (not_after lt) l → Sorted (not_after lt) (insert_sorted lt x l).
Proof using lt_asym.
  induction l as [|y l IH]; intros Hl; simpl.
  - repeat constructor.
  - destruct (lt x y) eqn:Hxy.
    + constructor; [done|]. constructor. by apply lt_asym.
    + apply Sorted_inv in Hl as [Hl Hhd]. constructor; [by apply IH|].
      destruct l as [|z l]; simpl.
      * by constructor.
      * destruct (lt x z); constructor; [done|]. by apply HdRel_inv in Hhd.
Qed.

Lemma std_sort_Sorted l : Sorted (not_after lt) (std_sort lt l).
Proof using lt_asym.
  unfold std_sort.
  assert (∀ acc, Sorted (not_after lt) acc →
            Sorted (not_after lt) (foldl (fun sorted x => insert_sorted lt x sorted) acc l))
    as Hgen.
  { induction l as [|x l IH]; intros acc Hacc; simpl; [done|].
    apply IH. by apply insert_sorted_Sorted. }
  apply Hgen. constructor.
Qed.
End StdSort.

Lemma Sorted_weaken {A} (R1 R2 : relation A) l :
  (∀ a b, R1 a b → R2 a b) → Sorted R1 l → Sorted R2 l.
Proof.
  intros Himpl. induction 1 as [|x l Hl IH Hhd]; constructor; [done|].
  destruct Hhd; constructor. by apply Himpl.
Qed.

(** ** Predicate reordering *)

Section Reordering.
Context {Pred : Type}.

Lemma sortObjects_Permutation keys : sortObjects keys ≡ₚ seq 0 (length keys).
Proof. unfold sortObjects, iota. apply std_sort_Permutation. Qed.

(** Along the permutation the keys ascend. *)
Lemma sortObjects_Sorted keys :
  Sorted (fun a b => keys !!! a ≤ keys !!! b) (sortObjects keys).
Proof.
  unfold sortObjects.
  eapply Sorted_weaken; [|apply std_sort_Sorted].
  - intros a b Hab. unfold not_after in Hab. apply Nat.ltb_ge in Hab. done.
  - intros a b Hab. apply Nat.ltb_lt in Hab. apply Nat.ltb_ge. lia.
Qed.

Lemma length_applyPermutation (permute : list nat) (batch : list Pred) :
  Forall (fun m => m < length batch) permute →
  length (applyPermutation permute batch) = length permute.
Proof.
  unfold applyPermutation. induction 1 as [|m p Hm _ IH]; [done|]. csimpl.
  destruct (lookup_lt_is_Some_2 batch m Hm) as [q ->]. simpl. by rewrite IH.
Qed.

Lemma lookup_applyPermutation (permute : list nat) (batch : list Pred) i m :
  Forall (fun m => m < length batch) permute →
  permute !! i = Some m → applyPermutation permute batch !! i = batch !! m.
Proof.
  unfold applyPermutation. intros Hall. revert i.
  induction Hall as [|m' p Hm _ IH]; intros i Hi; [done|]. csimpl.
  destruct (lookup_lt_is_Some_2 batch m' Hm) as [q Hq]. rewrite Hq. simpl.
  destruct i as [|i]; simpl in *; [by simplify_eq|]. by apply IH.
Qed.

Lemma presents_plain (d : list nat) (batch : list Pred) :
  presents (PlainView d) batch batch.
Proof.
  split_and!; [done| |done]. unfold reorders. simpl.
  by rewrite list_fmap_id.
Qed.

Lemma presents_permuted (permute d : list nat) (batch : list Pred) :
  permute ≡ₚ seq 0 (length batch) →
  presents (makePermutedView (permute ++ [length permute]) d)
           (applyPermutation permute batch) batch.
Proof.
  intros Hperm.
  assert (length permute = length batch) as Hlen.
  { rewrite Hperm. apply length_seq. }
  assert (Forall (fun m => m < length batch) permute) as Hall.
  { rewrite Hperm. apply Forall_seq. intros; lia. }
  assert (∀ i, i < length batch →
            permute !! i = Some (position (makePermutedView
              (permute ++ [length permute]) d) i)) as Hpos.
  { intros i Hi. simpl. rewrite lookup_total_app_l by lia.
    apply list_lookup_lookup_total_lt. lia. }
  split_and!.
  - rewrite length_applyPermutation by done. done.
  - unfold reorders. rewrite <- Hperm at 2.
    match goal with |- ?l ≡ₚ _ => assert (l = permute) as ->; [|done] end.
    apply list_eq. intros i. rewrite list_lookup_fmap.
    destruct (decide (i < length batch)) as [Hi|Hi].
    + rewrite lookup_seq_lt by done. simpl. symmetry. by apply Hpos.
    + rewrite lookup_seq_ge by lia. simpl. symmetry. apply lookup_ge_None. lia.
  - intros i Hi. apply lookup_applyPermutation; [done|]. by apply Hpos.
Qed.
End Reordering.

Lemma queryImpl_outcome {Pred Value In} (uninit : Value) (run : Pred → list Value)
    (batch predicates : list Pred) (v : OffsetView) (caps : list nat)
    (out : list Value) (b : Z) :
  presents v predicates batch → length caps = length batch →
  underlying v = offsets_of caps → sum_list caps ≤ length out → b ≠ 0%Z →
  outcome (queryImpl (In:=In) uninit run predicates out v b)
  = if (b <? 0)%Z && overflows run batch caps then Thrown CapacityExceeded
    else Returned (csr_of run batch).
Proof.
  intros Hp Hcaps Hv Hout Hb.
  destruct (overflows run batch caps) eqn:Hov.
  - destruct (Z.ltb_spec b 0); simpl.
    + by eapply queryImpl_overflow_negative.
    + eapply queryImpl_overflow_positive; [done..|lia|done].
  - rewrite andb_false_r. by eapply queryImpl_fits.
Qed.

Lemma tentative_offsets (u k n : nat) :
  exclusivePrefixSum (deep_copy (reallocWithoutInitializing u (n + 1)) k)
  = offsets_of (replicate n k).
Proof.
  unfold deep_copy, reallocWithoutInitializing. rewrite length_replicate.
  rewrite Nat.add_1_r, replicate_S_end. apply exclusivePrefixSum_snoc.
Qed.

Lemma zero_offsets (u n : nat) :
  deep_copy (reallocWithoutInitializing u (n + 1)) 0 = offsets_of (replicate n 0).
Proof.
  unfold deep_copy, reallocWithoutInitializing, offsets_of, exclusivePrefixSum.
  rewrite length_replicate, Nat.add_1_r, <- replicate_S_end.
  induction (S n) as [|m IH]; [done|]. simpl. by rewrite <- IH.
Qed.

(** ** The magnitude of an [int] *)


Lemma std_abs_int_min : std_abs int_min = int_min.
Proof. reflexivity. Qed.

Lemma std_abs_zero : std_abs 0 = 0%Z.
Proof. reflexivity. Qed.

(** ** CSR tables *)

Lemma is_csr_csr_of {Pred Value} (run : Pred → list Value) (batch : list Pred) :
  is_csr (length batch) (csr_of run batch).1 (csr_of run batch).2.
Proof.
  unfold csr_of, is_csr. simpl.
  set (cs := (fun q => length (run q)) <$> batch).
  assert (length cs = length batch) as Hcs by (unfold cs; by rewrite length_fmap).
  split_and!.
  - rewrite length_offsets_of. lia.
  - by rewrite lookup_offsets_of by lia.
  - intros i a b Ha Hb.
    apply lookup_lt_Some in Hb as Hi. rewrite length_offsets_of in Hi.
    rewrite lookup_offsets_of in Ha by lia. rewrite lookup_offsets_of in Hb by lia.
    injection Ha as <-. injection Hb as <-. apply sum_list_take_mono. lia.
  - rewrite <- Hcs, lookup_offsets_of by done. rewrite firstn_all.
    rewrite length_concat_sum. unfold cs. by rewrite <- list_fmap_compose.
Qed.

(** In the table of a batch, the slice of query [i] holds the results of
    query [i]. *)
Lemma slice_csr_of {Pred Value} (run : Pred → list Value) (batch : list Pred) i q :
  batch !! i = Some q →
  slice (csr_of run batch).1 (csr_of run batch).2 i = run q.
Proof.
  intros Hq. unfold csr_of, slice. simpl.
  set (cs := (fun q => length (run q)) <$> batch).
  assert (cs !! i = Some (length (run q))) as Hc.
  { unfold cs. by rewrite list_lookup_fmap, Hq. }
  apply lookup_lt_Some in Hc as Hi.
  rewrite !lookup_total_offsets_of by lia.
  rewrite (sum_list_take_S _ _ _ Hc).
  replace (sum_list (take i cs) + length (run q) - sum_list (take i cs))
    with (length (run q)) by lia.
  assert (cs = length <$> (run <$> batch)) as Hcs.
  { unfold cs. by rewrite <- list_fmap_compose. }
  apply list_eq. intros y. destruct (decide (y < length (run q))) as [Hy|Hy].
  - rewrite lookup_take_lt, lookup_drop, Hcs by done.
    apply lookup_concat_slot; [|done]. by rewrite list_lookup_fmap, Hq.
  - rewrite lookup_take_ge by lia. symmetry. apply lookup_ge_None. lia.
Qed.

Lemma same_slices_refl {A} (o : Outcome (list nat * list A)) : same_slices o o.
Proof. destruct o as [[offsets values]|e]; simpl; done. Qed.

Lemma outcome_bind {E A B} (m : Run E A) (k : A → Run E B) :
  outcome (bind m k)
  = match outcome m with Returned a => outcome (k a) | Thrown e => Thrown e end.
Proof. unfold bind. by destruct (outcome m). Qed.

Lemma trace_bind {E A B} (m : Run E A) (k : A → Run E B) :
  trace (bind m k)
  = match outcome m with Returned a => trace m ++ trace (k a) | Thrown e => trace m end.
Proof. unfold bind. by destruct (outcome m). Qed.


Lemma count_events_app {E} (p : E → bool) (t1 t2 : list E) :
  count_events p (t1 ++ t2) = count_events p t1 + count_events p t2.
Proof. unfold count_events. by rewrite List.filter_app, length_app. Qed.

Lemma count_events_traversed {Pred In} (p : Event Pred In → bool) (ps : list Pass)
    (view : list Pred) :
  (∀ pass, p (Traversed pass view) = false) →
  count_events p ((fun pass => Traversed pass view) <$> ps) = 0.
Proof.
  intros Hp. unfold count_events. induction ps as [|pass ps IH]; csimpl; [done|].
  by rewrite Hp.
Qed.

(** ** The dispatch of a batch *)

Section DispatchCorrect.
Context {BVH Bounds Pred float : Type}.
Variable bounds : BVH → Bounds.
Variable traverse_spatial : BVH → Pred → list Z.
Variable traverse_nearest : BVH → Pred → list (Z * float).
Variable getK : Pred → nat.
Variable curve_key : Bounds → Pred → nat.
Variable uninit_offset : nat.

Local Abbreviation spatial_inline In :=
  (queryDispatch_spatial_inline (In:=In) bounds traverse_spatial curve_key
     uninit_offset).
Local Abbreviation spatial_post :=
  (queryDispatch_spatial_post bounds traverse_spatial curve_key uninit_offset).
Local Abbreviation nearest_inline In :=
  (queryDispatch_nearest_inline (In:=In) bounds traverse_nearest getK curve_key
     uninit_offset).
Local Abbreviation nearest_post :=
  (queryDispatch_nearest_post bounds traverse_nearest getK curve_key uninit_offset).
Local Abbreviation sorted_along_curve :=
  (fun (bvh : BVH) (batch : list Pred) =>
     sortQueriesAlongZOrderCurve curve_key (bounds bvh) batch).

Lemma sortQueries_Permutation bvh (batch : list Pred) :
  sorted_along_curve bvh batch ≡ₚ seq 0 (length batch).
Proof.
  unfold sortQueriesAlongZOrderCurve. rewrite sortObjects_Permutation.
  by rewrite length_map.
Qed.

(** The outcome of the spatial dispatch with an inline callback, for
    every batch and every policy. *)
Lemma spatial_inline_outcome {Value In} (uninit : Value) bvh batch callback
    out offset policy :
  outcome (spatial_inline In uninit bvh batch callback out offset policy)
  = if (_buffer_size policy <? 0)%Z
       && overflows (run_spatial traverse_spatial bvh callback) batch
            (assumed_capacity policy batch)
    then Thrown CapacityExceeded
    else Returned (csr_of (run_spatial traverse_spatial bvh callback) batch).
Proof.
  unfold queryDispatch_spatial_inline, assumed_capacity.
  destruct policy as [b sort algo]. simpl.
  destruct (Z.eqb_spec b 0) as [->|Hb].
  - rewrite std_abs_zero. simpl.
    destruct sort; [rewrite outcome_bind_tell|]; unfold queryImpl;
      rewrite Z.eqb_refl; apply two_pass_outcome.
    + apply presents_permuted, sortQueries_Permutation.
    + unfold deep_copy, reallocWithoutInitializing. simpl.
      rewrite !length_replicate. lia.
    + apply presents_plain.
    + unfold deep_copy, reallocWithoutInitializing. simpl.
      rewrite !length_replicate. lia.
  - destruct (Z.ltb_spec 0 (std_abs b)) as [Hk|Hk].
    + rewrite tentative_offsets.
      destruct sort; [rewrite outcome_bind_tell|].
      * eapply queryImpl_outcome; [|by rewrite length_replicate|done|..|done].
        -- apply presents_permuted, sortQueries_Permutation.
        -- unfold reallocWithoutInitializing.
           rewrite sum_list_replicate, length_replicate. lia.
      * eapply queryImpl_outcome; [|by rewrite length_replicate|done|..|done].
        -- apply presents_plain.
        -- unfold reallocWithoutInitializing.
           rewrite sum_list_replicate, length_replicate. lia.
    + replace (Z.to_nat (std_abs b)) with 0 by lia. rewrite zero_offsets.
      destruct sort; [rewrite outcome_bind_tell|].
      * eapply queryImpl_outcome; [|by rewrite length_replicate|done|..|done].
        -- apply presents_permuted, sortQueries_Permutation.
        -- rewrite sum_list_replicate. lia.
      * eapply queryImpl_outcome; [|by rewrite length_replicate|done|..|done].
        -- apply presents_plain.
        -- rewrite sum_list_replicate. lia.
Qed.

Lemma queryImpl_trace_passes {Value In} (uninit : Value) (run : Pred → list Value)
    (batch predicates : list Pred) v caps out b :
  presents v predicates batch → length caps = length batch →
  underlying v = offsets_of caps →
  trace (queryImpl (In:=In) uninit run predicates out v b)
  = (fun p => Traversed p predicates) <$> passes_of b (overflows run batch caps).
Proof.
  intros Hp Hcaps Hv. rewrite (queryImpl_trace uninit run batch predicates v caps);
    [|done..].
  unfold passes_of. destruct (b =? 0)%Z; [done|].
  by destruct (overflows run batch caps && (0 <? b)%Z).
Qed.

Lemma spatial_inline_trace {Value In} (uninit : Value) bvh batch callback
    out offset policy :
  trace (spatial_inline In uninit bvh batch callback out offset policy)
  = (if _sort_predicates policy
     then [SortedAlongZOrderCurve (sorted_along_curve bvh batch)] else [])
    ++ ((fun p => Traversed p (spatial_view bounds curve_key bvh batch policy))
          <$> passes_of (_buffer_size policy)
                (overflows (run_spatial traverse_spatial bvh callback) batch
                   (assumed_capacity policy batch))).
Proof.
  unfold queryDispatch_spatial_inline, assumed_capacity, spatial_view.
  destruct policy as [b sort algo]. simpl.
  destruct (Z.ltb_spec 0 (std_abs b)) as [Hk|Hk].
  - rewrite tentative_offsets.
    destruct sort; [rewrite trace_bind_tell; f_equal|].
    + eapply queryImpl_trace_passes; [|by rewrite length_replicate|done].
      apply presents_permuted, sortQueries_Permutation.
    + eapply queryImpl_trace_passes; [|by rewrite length_replicate|done].
      apply presents_plain.
  - replace (Z.to_nat (std_abs b)) with 0 by lia. rewrite zero_offsets.
    destruct sort; [rewrite trace_bind_tell; f_equal|].
    + eapply queryImpl_trace_passes; [|by rewrite length_replicate|done].
      apply presents_permuted, sortQueries_Permutation.
    + eapply queryImpl_trace_passes; [|by rewrite length_replicate|done].
      apply presents_plain.
Qed.

(** *** Nearest predicates *)

Lemma nearest_offsets_prepared (batch : list Pred) :
  ∃ g, parallel_for batch (fun i q off => <[i := getK q]> off)
         (reallocWithoutInitializing uninit_offset (length batch + 1))
       = (getK <$> batch) ++ [g].
Proof.
  pose (P := fun (j : nat) (off : list nat) =>
    length off = S (length batch) ∧
    ∀ k q, k < j → batch !! k = Some q → off !! k = Some (getK q)).
  assert (P (length batch)
            (parallel_for batch (fun i q off => <[i := getK q]> off)
               (reallocWithoutInitializing uninit_offset (length batch + 1))))
    as [Hlen Hhit].
  { apply parallel_for_ind.
    - split; [|intros; lia]. unfold reallocWithoutInitializing.
      rewrite length_replicate. lia.
    - intros j q off Hj [Hlen Hhit]. split; [by rewrite length_insert|].
      apply lookup_lt_Some in Hj as Hjn.
      intros k q' Hk Hkq. destruct (decide (k = j)) as [->|Hne].
      + assert (q' = q) as -> by congruence.
        apply list_lookup_insert_eq. lia.
      + rewrite list_lookup_insert_ne by done. apply Hhit; [lia|done]. }
  apply snoc_of_prefix.
  - by rewrite length_fmap.
  - intros m Hm. rewrite length_fmap in Hm.
    destruct (lookup_lt_is_Some_2 batch m Hm) as [q Hq].
    rewrite list_lookup_fmap, Hq. simpl. by apply Hhit.
Qed.

(** The nearest dispatch is one call of [queryImpl], on the batch in its
    own order, with the buffer argument [-1], the prepared offsets and an
    output view of exactly [lastElement] of these offsets cells. *)
Lemma nearest_inline_prepared {Value In} (uninit : Value) bvh batch callback
    out offset policy :
  nearest_inline In uninit bvh batch callback out offset policy
  = queryImpl uninit (run_nearest traverse_nearest bvh callback) batch
      (reallocWithoutInitializing uninit (lastElement (nearest_offsets getK batch)))
      (PlainView (nearest_offsets getK batch)) (-1).
Proof.
  unfold queryDispatch_nearest_inline, nearest_offsets.
  rewrite andb_false_r.
  destruct (nearest_offsets_prepared batch) as [g ->].
  by rewrite exclusivePrefixSum_snoc.
Qed.

Lemma nearest_inline_outcome {Value In} (uninit : Value) bvh batch callback
    out offset policy :
  outcome (nearest_inline In uninit bvh batch callback out offset policy)
  = if overflows (run_nearest traverse_nearest bvh callback) batch (getK <$> batch)
    then Thrown CapacityExceeded
    else Returned (csr_of (run_nearest traverse_nearest bvh callback) batch).
Proof.
  rewrite nearest_inline_prepared.
  rewrite (queryImpl_outcome uninit _ batch batch _ (getK <$> batch)); [done|..].
  - apply presents_plain.
  - by rewrite length_fmap.
  - done.
  - unfold nearest_offsets, reallocWithoutInitializing.
    by rewrite lastElement_offsets_of, length_replicate.
  - done.
Qed.

Lemma nearest_inline_trace {Value In} (uninit : Value) bvh batch callback
    out offset policy :
  trace (nearest_inline In uninit bvh batch callback out offset policy)
  = [Traversed BufferedPass batch].
Proof.
  rewrite nearest_inline_prepared.
  rewrite (queryImpl_trace_passes uninit _ batch batch _ (getK <$> batch));
    [|apply presents_plain|by rewrite length_fmap|done].
  unfold passes_of. simpl. by rewrite andb_false_r.
Qed.

(** *** The buffer policy of the spatial dispatch *)



(** *** Predicate sorting *)

Lemma nearest_inline_ignores_policy {Value In} (uninit : Value) bvh batch callback
    out offset policy policy' :
  nearest_inline In uninit bvh batch callback out offset policy
  = nearest_inline In uninit bvh batch callback out offset policy'.
Proof. by rewrite !nearest_inline_prepared. Qed.

(** C4.  For both predicate kinds and both callback kinds, the dispatch of
    a batch with [_sort_predicates] enabled has the outcome of the dispatch
    with it disabled: the same failure, or the same offsets and in the slice
    of every original query the same results. *)
Theorem sort_predicates_keeps_results {Value Out} (uninit : Value) bvh batch
    (callback : Pred → Z → list Value)
    (nearest_callback : Pred → Z → float → list Value)
    (post : PostCallback Z Out) (nearest_post_callback : PostCallback (Z * float) Out)
    (uninit_index : Z) (uninit_pair : Z * float) out post_out offset policy :
  let sorted := setPredicateSorting true policy in
  let unsorted := setPredicateSorting false policy in
  same_slices
    (outcome (spatial_inline Z uninit bvh batch callback out offset sorted))
    (outcome (spatial_inline Z uninit bvh batch callback out offset unsorted)) ∧
  same_slices
    (outcome (nearest_inline Z uninit bvh batch nearest_callback out offset sorted))
    (outcome (nearest_inline Z uninit bvh batch nearest_callback out offset unsorted)) ∧
  outcome (spatial_post uninit_index bvh batch post post_out offset sorted)
  = outcome (spatial_post uninit_index bvh batch post post_out offset unsorted) ∧
  outcome (nearest_post uninit_pair bvh batch nearest_post_callback post_out offset sorted)
  = outcome (nearest_post uninit_pair bvh batch nearest_post_callback post_out offset
               unsorted).
Proof.
  intros sorted unsorted.
  assert (∀ V (u : V) (cb : Pred → Z → list V) (o : list V),
    outcome (spatial_inline Z u bvh batch cb o offset sorted)
    = outcome (spatial_inline Z u bvh batch cb o offset unsorted)) as Hspatial.
  { intros V u cb o. by rewrite !spatial_inline_outcome. }
  split_and!.
  - rewrite Hspatial. apply same_slices_refl.
  - rewrite (nearest_inline_ignores_policy _ _ _ _ _ _ sorted unsorted).
    apply same_slices_refl.
  - unfold queryDispatch_spatial_post, queryDispatch_spatial_indices.
    rewrite !outcome_bind. by rewrite Hspatial.
  - unfold queryDispatch_nearest_post. rewrite !outcome_bind.
    by rewrite (nearest_inline_ignores_policy _ _ _ _ _ _ sorted unsorted).
Qed.

(** C5, as the code has it.  With [_sort_predicates] enabled the spatial
    dispatch sorts the predicate indices by their key on the curve of the
    tree's bounds (a permutation of the indices along which the keys
    ascend), traverses nothing but the view reordered by it, and still
    returns a table whose slice [i] holds the results of the original query
    [i]: every write landed in the slot of the original query.  The nearest dispatch never sorts, whatever
    the flag says: its one pass traverses the batch in its own order. *)
Theorem sorting_reorders_spatial_dispatch_only {Value In} (uninit : Value) bvh batch
    (callback : Pred → Z → list Value)
    (nearest_callback : Pred → Z → float → list Value) out offset policy :
  let permute := sortQueriesAlongZOrderCurve curve_key (bounds bvh) batch in
  let permuted_predicates := applyPermutation permute batch in
  let keys := curve_key (bounds bvh) <$> batch in
  let sorted := setPredicateSorting true policy in
  let r := spatial_inline In uninit bvh batch callback out offset sorted in
  (permute ≡ₚ seq 0 (length batch) ∧
   Sorted (fun a b => keys !!! a ≤ keys !!! b) permute ∧
   (∀ i m, permute !! i = Some m → permuted_predicates !! i = batch !! m) ∧
   traverses_reordered permute permuted_predicates (trace r) ∧
   returns_csr (length batch) (outcome r) ∧
   ∀ offsets values, outcome r = Returned (offsets, values) →
     ∀ i q, batch !! i = Some q →
       slice offsets values i = run_spatial traverse_spatial bvh callback q) ∧
  trace (nearest_inline In uninit bvh batch nearest_callback out offset sorted)
  = [Traversed BufferedPass batch].
Proof.
  intros permute permuted keys sorted r.
  assert (permute ≡ₚ seq 0 (length batch)) as Hperm
    by apply sortQueries_Permutation.
  split; [split_and!|].
  - done.
  - apply sortObjects_Sorted.
  - intros i m Him. apply lookup_applyPermutation; [|done].
    rewrite Hperm. apply Forall_seq. intros; lia.
  - unfold r. rewrite spatial_inline_trace. simpl.
    eexists. split; [reflexivity|]. split.
    + unfold passes_of. destruct (_ =? _)%Z; [done|]. by destruct (_ && _).
    + apply Forall_fmap, Forall_true. intros pass. by exists pass.
  - unfold r. rewrite spatial_inline_outcome.
    destruct (_ && _); [done|]. apply (is_csr_csr_of _ batch).
  - intros offsets values. unfold r. rewrite spatial_inline_outcome.
    destruct (_ && _); [done|]. intros [= <- <-] i q Hq.
    by apply (slice_csr_of (run_spatial traverse_spatial bvh callback) batch).
  - apply nearest_inline_trace.
Qed.

(** *** Nearest predicates *)

(** C6.  Nearest predicates, inline callback: the dispatch is a single
    call of [queryImpl] with the offsets already final in shape: cell [i]
    was set to the requested count [getK] of query [i] (the last cell holds
    whatever the allocation held) and the exclusive prefix sum was taken, so
    that [offsets !! i] is the sum of the counts before [i]; the output view
    is allocated to exactly the last offset, the sum of all counts; the run
    makes one traversal, and no counting pass. *)
Theorem nearest_offsets_need_no_counting_pass {Value In} (uninit : Value) bvh batch
    (callback : Pred → Z → float → list Value) out offset policy :
  let r := nearest_inline In uninit bvh batch callback out offset policy in
  let offsets := nearest_offsets getK batch in
  let values :=
    reallocWithoutInitializing uninit (lastElement offsets) in
  r = queryImpl uninit (run_nearest traverse_nearest bvh callback) batch values
        (PlainView offsets) (-1) ∧
  (∃ g, offsets = exclusivePrefixSum ((getK <$> batch) ++ [g])) ∧
  (∀ i, i ≤ length batch → offsets !! i = Some (sum_list (take i (getK <$> batch)))) ∧
  length values = lastElement offsets ∧
  lastElement offsets = sum_list (getK <$> batch) ∧
  passes r = [BufferedPass] ∧
  count_events is_counting_pass (trace r) = 0 ∧
  count_events is_traversal (trace r) = 1.
Proof.
  intros r offsets values. unfold r, offsets, values.
  rewrite nearest_inline_trace. unfold passes. rewrite nearest_inline_trace.
  split_and!; try done.
  - apply nearest_inline_prepared.
  - exists 0. unfold nearest_offsets. by rewrite exclusivePrefixSum_snoc.
  - intros i Hi. unfold nearest_offsets. apply lookup_offsets_of.
    by rewrite length_fmap.
  - unfold reallocWithoutInitializing. by rewrite length_replicate.
  - unfold nearest_offsets. apply lastElement_offsets_of.
Qed.

(** C10.  The nearest dispatch, inline or post, does not read
    [_buffer_size]: two policies that differ in nothing else give the same
    run (the same traversals, the same outcome), and the run is the call of
    [queryImpl] with the buffer argument [-1] on the offsets that the
    requested counts fix. *)
Theorem nearest_dispatch_ignores_buffer_size {Value Out} (uninit : Value) bvh batch
    (callback : Pred → Z → float → list Value)
    (post : PostCallback (Z * float) Out) (uninit_pair : Z * float)
    out post_out offset policy (b1 b2 : Z) :
  nearest_inline Z uninit bvh batch callback out offset (setBufferSize b1 policy)
  = nearest_inline Z uninit bvh batch callback out offset (setBufferSize b2 policy) ∧
  nearest_post uninit_pair bvh batch post post_out offset (setBufferSize b1 policy)
  = nearest_post uninit_pair bvh batch post post_out offset (setBufferSize b2 policy) ∧
  nearest_inline Z uninit bvh batch callback out offset (setBufferSize b1 policy)
  = queryImpl uninit (run_nearest traverse_nearest bvh callback) batch
      (reallocWithoutInitializing uninit (lastElement (nearest_offsets getK batch)))
      (PlainView (nearest_offsets getK batch)) (-1).
Proof.
  split_and!.
  - apply nearest_inline_ignores_policy.
  - unfold queryDispatch_nearest_post.
    by rewrite (nearest_inline_ignores_policy _ _ _ _ _ _
                  (setBufferSize b1 policy) (setBufferSize b2 policy)).
  - apply nearest_inline_prepared.
Qed.

(** *** Post callbacks *)

Lemma spatial_inline_no_post_callback {Value In} (uninit : Value) bvh batch callback
    out offset policy :
  count_events is_post_callback
    (trace (spatial_inline In uninit bvh batch callback out offset policy)) = 0.
Proof.
  rewrite spatial_inline_trace, count_events_app, count_events_traversed by done.
  by destruct (_sort_predicates policy).
Qed.

(** C7, as the code has it.  A post-callback dispatch runs the inline
    dispatch with the default collecting callback (primitive indices for
    spatial predicates, pairs of index and distance for nearest ones) on an
    empty view; if that dispatch returns, the post callback is invoked
    exactly once, after the traversals, with the batch and the returned
    table, and its output is the result; if that dispatch fails with
    [CapacityExceeded], the post callback is not invoked and the failure is
    the result. *)
Theorem post_dispatch_invokes_callback_after_inline {Out} bvh batch
    (post : PostCallback Z Out) (nearest_post_callback : PostCallback (Z * float) Out)
    (uninit_index : Z) (uninit_pair : Z * float) out offset policy :
  runs_post_callback_after batch post out
    (spatial_inline Z uninit_index bvh batch CallbackDefaultSpatialPredicate []
       offset policy)
    (spatial_post uninit_index bvh batch post out offset policy) ∧
  runs_post_callback_after batch nearest_post_callback out
    (nearest_inline (Z * float) uninit_pair bvh batch
       CallbackDefaultNearestPredicateWithDistance [] offset policy)
    (nearest_post uninit_pair bvh batch nearest_post_callback out offset policy).
Proof.
  split.
  - unfold runs_post_callback_after, queryDispatch_spatial_post,
      queryDispatch_spatial_indices.
    rewrite trace_bind, outcome_bind.
    pose proof (spatial_inline_no_post_callback (In:=Z) uninit_index bvh batch
                  CallbackDefaultSpatialPredicate [] offset policy) as Hnone.
    destruct (outcome _) as [table|e]; [|done].
    split_and!; [done| |done].
    rewrite count_events_app, Hnone. done.
  - unfold runs_post_callback_after, queryDispatch_nearest_post.
    rewrite trace_bind, outcome_bind.
    rewrite !nearest_inline_trace.
    destruct (outcome _) as [table|e]; done.
Qed.

(** *** The shape of the returned table *)

(** C8.  Whatever an inline-callback dispatch returns, for spatial or
    nearest predicates and every policy, is a CSR table: the offsets have
    [n_queries + 1] cells, begin with [0], never decrease, and their last
    cell is the length of the values (the spatial dispatch does return
    under a buffer size that is not negative, the nearest dispatch when no
    query has more hits than it requested).  So is what the overloads that
    collect indices, or indices and distances, return, and so is the table
    that a post-callback dispatch hands to the post callback; the
    post-callback dispatch then returns a CSR table as soon as the callback
    maps CSR tables to CSR tables. *)
Theorem returned_offsets_are_csr {Value Out} (uninit : Value) bvh batch
    (callback : Pred → Z → list Value)
    (nearest_callback : Pred → Z → float → list Value)
    (post : PostCallback Z Out) (nearest_post_callback : PostCallback (Z * float) Out)
    (uninit_index : Z) (uninit_pair : Z * float) out indices post_out offset policy :
  let n_queries := length batch in
  returns_csr n_queries
    (outcome (spatial_inline Z uninit bvh batch callback out offset policy)) ∧
  ((0 ≤ _buffer_size policy)%Z →
   ∃ table,
     outcome (spatial_inline Z uninit bvh batch callback out offset policy)
     = Returned table) ∧
  returns_csr n_queries
    (outcome (nearest_inline Z uninit bvh batch nearest_callback out offset policy)) ∧
  (overflows (run_nearest traverse_nearest bvh nearest_callback) batch
     (getK <$> batch) = false →
   ∃ table,
     outcome (nearest_inline Z uninit bvh batch nearest_callback out offset policy)
     = Returned table) ∧
  returns_csr n_queries
    (outcome (queryDispatch_spatial_indices (In:=Z) bounds traverse_spatial curve_key
                uninit_offset uninit_index bvh batch indices offset policy)) ∧
  returns_csr n_queries
    (outcome (queryDispatch_nearest_indices (In:=Z) bounds traverse_nearest getK
                curve_key uninit_offset uninit_index bvh batch indices offset policy)) ∧
  (∀ uninit_distance distances offsets indices' distances',
     outcome (queryDispatch_nearest_indices_distances bounds traverse_nearest getK
                curve_key uninit_offset uninit_index uninit_distance uninit_pair bvh
                batch indices offset distances policy)
     = Returned (offsets, indices', distances') →
     is_csr n_queries offsets indices' ∧ is_csr n_queries offsets distances') ∧
  ((∀ offsets values, is_csr n_queries offsets values →
      is_csr n_queries (post batch offsets values post_out).1
                       (post batch offsets values post_out).2) →
   returns_csr n_queries
     (outcome (spatial_post uninit_index bvh batch post post_out offset policy))) ∧
  ((∀ offsets values, is_csr n_queries offsets values →
      is_csr n_queries (nearest_post_callback batch offsets values post_out).1
                       (nearest_post_callback batch offsets values post_out).2) →
   returns_csr n_queries
     (outcome (nearest_post uninit_pair bvh batch nearest_post_callback post_out
                 offset policy))).
Proof.
  intros n_queries. unfold n_queries.
  assert (∀ V (u : V) (cb : Pred → Z → list V) (o : list V),
    returns_csr (length batch)
      (outcome (spatial_inline Z u bvh batch cb o offset policy))) as Hspatial.
  { intros V u cb o. rewrite spatial_inline_outcome.
    destruct (_ && _); [done|]. apply (is_csr_csr_of _ batch). }
  assert (∀ V (u : V) (cb : Pred → Z → float → list V) (o : list V),
    returns_csr (length batch)
      (outcome (nearest_inline Z u bvh batch cb o offset policy))) as Hnearest.
  { intros V u cb o. rewrite nearest_inline_outcome.
    destruct (overflows _ _ _); [done|]. apply (is_csr_csr_of _ batch). }
  split_and!.
  - apply Hspatial.
  - intros Hb. rewrite spatial_inline_outcome.
    destruct (Z.ltb_spec (_buffer_size policy) 0); [lia|]. simpl. by eexists.
  - apply Hnearest.
  - intros Hno. rewrite nearest_inline_outcome, Hno. by eexists.
  - apply Hspatial.
  - apply Hnearest.
  - intros uninit_distance distances offsets indices' distances'.
    unfold queryDispatch_nearest_indices_distances.
    rewrite outcome_bind, nearest_inline_outcome.
    destruct (overflows _ _ _); [done|].
    pose proof (is_csr_csr_of
      (run_nearest traverse_nearest bvh CallbackDefaultNearestPredicateWithDistance)
      batch) as Hcsr.
    destruct (csr_of _ _) as [offs pairs]. simpl in *.
    unfold parallel_for, reallocWithoutInitializing.
    rewrite (parallel_for_from_pair (fun j (pair : Z * float) v => <[j := pair.1]> v)
               (fun j (pair : Z * float) v => <[j := pair.2]> v)).
    simpl. fold (parallel_for pairs (fun j (pair : Z * float) v => <[j := pair.1]> v)
                   (replicate (length pairs) uninit_index)).
    fold (parallel_for pairs (fun j (pair : Z * float) v => <[j := pair.2]> v)
                   (replicate (length pairs) uninit_distance)).
    rewrite !parallel_for_store. intros [= <- <- <-].
    destruct Hcsr as (H1 & H2 & H3 & H4).
    split; (split_and!; [done|done|done|by rewrite length_fmap]).
  - intros Hpost. unfold queryDispatch_spatial_post, queryDispatch_spatial_indices.
    rewrite outcome_bind. rewrite spatial_inline_outcome.
    destruct (_ && _); [done|]. simpl.
    pose proof (Hpost _ _ (is_csr_csr_of
      (run_spatial traverse_spatial bvh CallbackDefaultSpatialPredicate) batch)) as H.
    by destruct (post _ _ _ _).
  - intros Hpost. unfold queryDispatch_nearest_post.
    rewrite outcome_bind. rewrite nearest_inline_outcome.
    destruct (overflows _ _ _); [done|]. simpl.
    pose proof (Hpost _ _ (is_csr_csr_of
      (run_nearest traverse_nearest bvh CallbackDefaultNearestPredicateWithDistance)
      batch)) as H.
    by destruct (nearest_post_callback _ _ _ _).
Qed.
End DispatchCorrect.

(** ** Loops, slices and sorted lists *)

Lemma foldl_alter_lookup {A} (f : A → A) (l : list A) lo k x :
  foldl (fun s j => alter f j s) l (seq lo k) !! x
  = if decide (lo ≤ x < lo + k) then f <$> l !! x else l !! x.
Proof.
  revert lo l. induction k as [|k IH]; intros lo l; simpl.
  - rewrite decide_False by lia. done.
  - rewrite IH. destruct (decide (x = lo)) as [->|Hne].
    + rewrite decide_False by lia. rewrite decide_True by lia.
      apply list_lookup_alter_eq.
    + rewrite list_lookup_alter_ne by done.
      destruct (decide (S lo ≤ x < S lo + k)).
      * rewrite decide_True by lia. done.
      * rewrite decide_False by lia. done.
Qed.

Lemma foldl_alter_length {A} (f : A → A) (l : list A) lo k :
  length (foldl (fun s j => alter f j s) l (seq lo k)) = length l.
Proof.
  revert lo l. induction k as [|k IH]; intros lo l; simpl; [done|].
  by rewrite IH, length_alter.
Qed.

Lemma foldl_skip_omap {A B C} (g : C → option B) (f : A → B → A) (l : list C) a :
  foldl (fun acc j => match g j with Some v => f acc v | None => acc end) a l
  = foldl f a (omap g l).
Proof.
  revert a. induction l as [|j l IH]; intros a; csimpl; [done|].
  rewrite IH. by destruct (g j).
Qed.

Lemma omap_seq_lookup {A} (g : nat → option A) (l : list A) lo k :
  (∀ j, lo ≤ j < lo + k → g j = l !! j) → lo + k ≤ length l →
  omap g (seq lo k) = take k (drop lo l).
Proof.
  revert lo. induction k as [|k IH]; intros lo Hg Hlen; csimpl; [done|].
  destruct (lookup_lt_is_Some_2 l lo) as [x Hx]; [lia|].
  rewrite (Hg lo) by lia. rewrite Hx. simpl.
  rewrite (drop_S _ _ _ Hx). simpl. f_equal. apply IH; [|lia].
  intros j Hj. apply Hg. lia.
Qed.

Lemma StronglySorted_of_lookup {A} (R : relation A) (l : list A) :
  (∀ x x' a b, x < x' → l !! x = Some a → l !! x' = Some b → R a b) →
  StronglySorted R l.
Proof.
  induction l as [|a l IH]; intros Hl; constructor.
  - apply IH. intros x x' b c Hlt Hb Hc. apply (Hl (S x) (S x')); [lia|done|done].
  - apply Forall_lookup_2. intros i b Hb. apply (Hl 0 (S i)); [lia|done|done].
Qed.

Lemma Sorted_omap {A B} (g : A → option B) (R1 : relation A) (R2 : relation B) l :
  (∀ x, x ∈ l → is_Some (g x)) →
  (∀ x y a b, g x = Some a → g y = Some b → R1 x y → R2 a b) →
  Sorted R1 l → Sorted R2 (omap g l).
Proof.
  intros Hsome HR Hl. induction Hl as [|x l Hl IH Hhd]; csimpl; [constructor|].
  destruct (Hsome x) as [a Ha]; [left|]. rewrite Ha. simpl. constructor.
  - apply IH. intros y Hy. apply Hsome. by right.
  - destruct Hhd as [|y l' Hxy]; csimpl; [constructor|].
    destruct (Hsome y) as [b Hb]; [right; left|]. rewrite Hb. simpl.
    constructor. by eapply HR.
Qed.

Lemma Sorted_weaken_Forall {A} (Q : A → Prop) (R1 R2 : relation A) l :
  Forall Q l → (∀ a b, Q a → Q b → R1 a b → R2 a b) →
  Sorted R1 l → Sorted R2 l.
Proof.
  intros HQ Himpl Hl. induction Hl as [|x l Hl IH Hhd]; [constructor|].
  apply Forall_cons in HQ as [Hx HQ]. constructor; [by apply IH|].
  destruct Hhd as [|y l' Hxy]; constructor.
  apply Forall_cons in HQ as [Hy _]. by apply Himpl.
Qed.

Lemma filter_all {A} (P : A → Prop) `{∀ x, Decision (P x)} (l : list A) :
  Forall P l → filter P l = l.
Proof.
  induction 1 as [|x l Hx _ IH]; [done|]. by rewrite filter_cons_True, IH.
Qed.

Lemma filter_none {A} (P : A → Prop) `{∀ x, Decision (P x)} (l : list A) :
  Forall (fun x => ¬ P x) l → filter P l = [].
Proof.
  induction 1 as [|x l Hx _ IH]; [done|]. by rewrite filter_cons_False.
Qed.

(** A CSR table is the table of its per-query counts. *)
Lemma is_csr_inv {A} (n : nat) (offsets : list nat) (values : list A) :
  is_csr n offsets values →
  ∃ cs, length cs = n ∧ offsets = offsets_of cs ∧ length values = sum_list cs.
Proof.
  intros (Hlen & H0 & Hmono & Hlast).
  pose (cs := (fun i => offsets !!! (i + 1) - offsets !!! i) <$> seq 0 n).
  assert (length cs = n) as Hcs by (unfold cs; by rewrite length_fmap, length_seq).
  assert (∀ i, i ≤ n → offsets !! i = Some (sum_list (take i cs))) as Hsum.
  { induction i as [|i IH]; intros Hi; [done|].
    destruct (lookup_lt_is_Some_2 offsets (S i)) as [b Hb]; [lia|].
    specialize (IH ltac:(lia)).
    assert (cs !! i = Some (b - sum_list (take i cs))) as Hci.
    { unfold cs at 1. rewrite list_lookup_fmap, lookup_seq_lt by lia. simpl.
      rewrite Nat.add_1_r.
      rewrite (list_lookup_total_correct _ _ _ Hb).
      by rewrite (list_lookup_total_correct _ _ _ IH). }
    rewrite (sum_list_take_S _ _ _ Hci), Hb. f_equal.
    assert (offsets !! (i + 1) = Some b) as Hb' by (by rewrite Nat.add_1_r).
    pose proof (Hmono i _ _ IH Hb') as Hle. lia. }
  exists cs. split_and!; [done| |].
  - apply list_eq. intros i. destruct (decide (i ≤ n)) as [Hi|Hi].
    + rewrite Hsum by done. symmetry. apply lookup_offsets_of. lia.
    + rewrite !(proj2 (lookup_ge_None _ _)); [done|..].
      * rewrite length_offsets_of. lia.
      * lia.
  - rewrite Hsum in Hlast by done. injection Hlast as Hlast.
    rewrite <- Hcs, firstn_all in Hlast. done.
Qed.

Lemma slot_unique (cs : list nat) i i' c c' y y' :
  cs !! i = Some c → cs !! i' = Some c' → y < c → y' < c' →
  sum_list (take i cs) + y = sum_list (take i' cs) + y' → i = i'.
Proof.
  intros Hc Hc' Hy Hy' Heq.
  pose proof (sum_list_take_S _ _ _ Hc) as HS.
  pose proof (sum_list_take_S _ _ _ Hc') as HS'.
  destruct (Nat.lt_trichotomy i i') as [Hlt|[->|Hgt]]; [|done|].
  - pose proof (sum_list_take_mono cs (S i) i'). lia.
  - pose proof (sum_list_take_mono cs (S i') i). lia.
Qed.

Section Owned.
Context {A : Type}.
Variable key : A → nat.
Variable cs : list nat.

Lemma owned_by_slot (l : list A) i c y a :
  owned_by key cs l → cs !! i = Some c → y < c →
  l !! (sum_list (take i cs) + y) = Some a → key a = i.
Proof.
  intros [_ Hown] Hc Hy Ha. destruct (Hown _ _ Ha) as (c' & y' & Hc' & Hy' & Heq).
  symmetry. by eapply slot_unique.
Qed.

Lemma owned_by_sorted (l : list A) :
  owned_by key cs l → StronglySorted (fun a b => key a ≤ key b) l.
Proof.
  intros [_ Hown]. apply StronglySorted_of_lookup. intros x x' a b Hlt Ha Hb.
  destruct (Hown _ _ Ha) as (c & y & Hc & Hy & ->).
  destruct (Hown _ _ Hb) as (c' & y' & Hc' & Hy' & ->).
  destruct (decide (key a ≤ key b)) as [|Hgt]; [done|]. exfalso.
  pose proof (sum_list_take_S _ _ _ Hc').
  pose proof (sum_list_take_mono cs (S (key b)) (key a)). lia.
Qed.

Lemma owned_by_sorted_Permutation (l l' : list A) :
  owned_by key cs l → l' ≡ₚ l → Sorted (fun a b => key a ≤ key b) l' →
  owned_by key cs l'.
Proof.
  intros Hown Hperm Hsorted.
  assert (key <$> l' = key <$> l) as Hkeys.
  { apply (Sorted_unique le).
    - by apply (Sorted_fmap _ (fun a b => key a ≤ key b)).
    - apply (Sorted_fmap _ (fun a b => key a ≤ key b)); [done|].
      apply StronglySorted_Sorted. by apply owned_by_sorted.
    - by rewrite Hperm. }
  destruct Hown as [Hlen Hown]. split; [by rewrite Hperm|].
  intros x a Ha.
  assert ((key <$> l) !! x = Some (key a)) as Hk.
  { rewrite <- Hkeys, list_lookup_fmap, Ha. done. }
  rewrite list_lookup_fmap in Hk.
  destruct (l !! x) as [a'|] eqn:Ha'; [|done]. simpl in Hk. injection Hk as Hk.
  rewrite <- Hk. by apply Hown.
Qed.

(** The slice of key [i] holds exactly the elements with that key. *)
Lemma owned_by_slice (l : list A) i c :
  owned_by key cs l → cs !! i = Some c →
  take c (drop (sum_list (take i cs)) l) = filter (fun a => key a = i) l.
Proof.
  intros Hown Hc. pose proof Hown as [Hlen Hslot].
  set (lo := sum_list (take i cs)).
  pose proof (sum_list_take_S _ _ _ Hc) as HS.
  assert (lo + c ≤ length l) as Hfit.
  { rewrite Hlen. apply lookup_lt_Some in Hc as Hi.
    pose proof (sum_list_take_mono cs (S i) (length cs) Hi) as Hm.
    rewrite firstn_all in Hm. unfold lo. lia. }
  rewrite <- (take_drop lo l) at 2.
  rewrite <- (take_drop c (drop lo l)) at 2. rewrite !filter_app.
  rewrite (filter_none _ (take lo l)), (filter_all _ (take c (drop lo l))),
    (filter_none _ (drop c (drop lo l))).
  - by rewrite app_nil_r.
  - apply Forall_lookup_2. intros x a Ha. rewrite !lookup_drop in Ha.
    destruct (Hslot _ _ Ha) as (c' & y' & Hc' & Hy' & Heq). intros Hk.
    rewrite Hk in Hc', Heq. assert (c' = c) as -> by congruence.
    fold lo in Heq. lia.
  - apply Forall_lookup_2. intros x a Ha.
    apply lookup_lt_Some in Ha as Hx. rewrite length_take, length_drop in Hx.
    rewrite lookup_take_lt, lookup_drop in Ha by lia.
    eapply (owned_by_slot l i c x a); [done|done|lia|done].
  - apply Forall_lookup_2. intros x a Ha.
    apply lookup_lt_Some in Ha as Hx. rewrite length_take in Hx.
    rewrite lookup_take_lt in Ha by lia.
    destruct (Hslot _ _ Ha) as (c' & y' & Hc' & Hy' & Heq). intros Hk.
    rewrite Hk in Hc', Heq. fold lo in Heq. lia.
Qed.

Lemma owned_by_slice_Permutation (l l' : list A) i c :
  owned_by key cs l → owned_by key cs l' → l' ≡ₚ l → cs !! i = Some c →
  take c (drop (sum_list (take i cs)) l')
  ≡ₚ take c (drop (sum_list (take i cs)) l).
Proof.
  intros Hl Hl' Hperm Hc. rewrite !(owned_by_slice _ i c) by done.
  by rewrite Hperm.
Qed.
End Owned.

(** ** The merge of the distributed ray tracing *)

Lemma applyPermutation_iota {A} (l : list A) :
  applyPermutation (seq 0 (length l)) l = l.
Proof.
  unfold applyPermutation. rewrite (omap_seq_lookup _ l 0 (length l)); [|done|lia].
  by rewrite drop_0, firstn_all.
Qed.

Lemma applyPermutation_Permutation {A} (permute : list nat) (l : list A) :
  permute ≡ₚ seq 0 (length l) → applyPermutation permute l ≡ₚ l.
Proof.
  intros Hperm. rewrite <- (applyPermutation_iota l) at 2.
  unfold applyPermutation. by rewrite Hperm.
Qed.

Section MergeCorrect.
Context {float : Type}.
Variable flt : float → float → bool.
(** The comparison of the entry distances is a strict total order (the
    distances are numbers: no NaN among them). *)
Hypothesis flt_irrefl : ∀ a, flt a a = false.
Hypothesis flt_trans : ∀ a b c, flt a b = true → flt b c = true → flt a c = true.
Hypothesis flt_total : ∀ a b, flt a b = false → flt b a = false → a = b.
(** The arithmetic of the accumulation, on which nothing is assumed. *)
Variable fzero : float.
Variable fadd fmul : float → float → float.
Variable fneg fexp : float → float.

Local Abbreviation rid := (fun v : IntersectedRank float => ray_id (for_sorting v)).
Local Abbreviation dist :=
  (fun v : IntersectedRank float => entrylength (for_sorting v)).

Lemma flt_asym a b : flt a b = true → flt b a = false.
Proof using flt_irrefl flt_trans.
  intros Hab. destruct (flt b a) eqn:Hba; [|done].
  pose proof (flt_trans _ _ _ Hab Hba) as Haa. by rewrite flt_irrefl in Haa.
Qed.

Lemma flt_not_after_trans a b c :
  flt b a = false → flt c b = false → flt c a = false.
Proof using flt_irrefl flt_trans flt_total.
  intros Hba Hcb. destruct (flt c a) eqn:Hca; [|done]. exfalso.
  destruct (flt a b) eqn:Hab.
  - pose proof (flt_trans _ _ _ Hca Hab). congruence.
  - pose proof (flt_total _ _ Hab Hba) as ->. congruence.
Qed.

Lemma IntersectedRankForSorting_lt_asym x y :
  IntersectedRankForSorting_lt flt x y = true →
  IntersectedRankForSorting_lt flt y x = false.
Proof using flt_irrefl flt_trans.
  unfold IntersectedRankForSorting_lt.
  destruct (Nat.eqb_spec (ray_id x) (ray_id y)) as [Heq|Hne].
  - rewrite Heq, Nat.eqb_refl. apply flt_asym.
  - destruct (Nat.eqb_spec (ray_id y) (ray_id x)) as [Heq'|_]; [congruence|].
    intros Hlt. apply Nat.ltb_lt in Hlt. apply Nat.ltb_ge. lia.
Qed.

Lemma lt_not_after_ray_id (a b : IntersectedRank float) :
  IntersectedRankForSorting_lt flt (for_sorting b) (for_sorting a) = false →
  rid a ≤ rid b.
Proof.
  unfold IntersectedRankForSorting_lt.
  destruct (Nat.eqb_spec (rid b) (rid a)) as [Heq|Hne]; [lia|].
  intros Hlt. apply Nat.ltb_ge in Hlt. done.
Qed.

Lemma lt_not_after_dist (a b : IntersectedRank float) :
  rid a = rid b →
  IntersectedRankForSorting_lt flt (for_sorting b) (for_sorting a) = false →
  flt (dist b) (dist a) = false.
Proof.
  unfold IntersectedRankForSorting_lt. intros ->. by rewrite Nat.eqb_refl.
Qed.

(** After "Applying ray IDs" the partial result at place [y] of slice [i]
    is the one that was there, with the ray ID [i]. *)
Lemma apply_ray_ids_spec {Ray} (rays : list Ray) (cs : list nat)
    (values : list (IntersectedRank float)) :
  length rays = length cs → length values = sum_list cs →
  let restored := apply_ray_ids rays (offsets_of cs) values in
  length restored = length values ∧
  ∀ i c y, cs !! i = Some c → y < c →
    restored !! (sum_list (take i cs) + y)
    = set_ray_id i <$> values !! (sum_list (take i cs) + y).
Proof.
  intros Hrays Hvalues restored. unfold restored, apply_ray_ids.
  pose (P := fun (j : nat) (vals : list (IntersectedRank float)) =>
    length vals = length values ∧
    (∀ i c y, i < j → cs !! i = Some c → y < c →
       vals !! (sum_list (take i cs) + y)
       = set_ray_id i <$> values !! (sum_list (take i cs) + y)) ∧
    (∀ x, sum_list (take j cs) ≤ x → vals !! x = values !! x)).
  match goal with |- length ?r = _ ∧ _ => assert (P (length rays) r) as HP end.
  { apply parallel_for_ind.
    - split_and!; [done|intros; lia|done].
    - intros j q vals Hj (Hlen & Hdone & Hrest).
      apply lookup_lt_Some in Hj as Hjn. rewrite Hrays in Hjn.
      destruct (lookup_lt_is_Some_2 cs j Hjn) as [cj Hcj].
      pose proof (sum_list_take_S _ _ _ Hcj) as HSj.
      unfold for_loop.
      rewrite !lookup_total_offsets_of by lia.
      replace (sum_list (take (j + 1) cs) - sum_list (take j cs)) with cj
        by (rewrite Nat.add_1_r; lia).
      split_and!.
      + by rewrite foldl_alter_length.
      + intros i c y Hi Hc Hy. rewrite foldl_alter_lookup.
        pose proof (sum_list_take_S _ _ _ Hc) as HSi.
        destruct (decide (i = j)) as [->|Hne].
        * assert (c = cj) as -> by congruence.
          rewrite decide_True by lia. by rewrite Hrest by lia.
        * pose proof (sum_list_take_mono cs (S i) j).
          rewrite decide_False by lia. apply (Hdone i c y); [lia|done|done].
      + intros x Hx. rewrite foldl_alter_lookup.
        rewrite decide_False by lia. apply Hrest. lia. }
  destruct HP as (Hlen & Hdone & _). split; [done|].
  intros i c y Hc Hy. apply (Hdone i c y); [|done|done].
  apply lookup_lt_Some in Hc. lia.
Qed.

Lemma apply_ray_ids_owned {Ray} (rays : list Ray) (cs : list nat)
    (values : list (IntersectedRank float)) :
  length rays = length cs → length values = sum_list cs →
  owned_by rid cs (apply_ray_ids rays (offsets_of cs) values).
Proof.
  intros Hrays Hvalues.
  destruct (apply_ray_ids_spec rays cs values Hrays Hvalues) as [Hlen Hslot].
  split; [congruence|]. intros x a Ha.
  apply lookup_lt_Some in Ha as Hx. rewrite Hlen, Hvalues in Hx.
  destruct (locate_slot _ _ Hx) as (i & c & y & Hc & Hy & ->).
  rewrite (Hslot i c y Hc Hy) in Ha.
  destruct (values !! _) as [v|]; [|done]. simpl in Ha. injection Ha as <-.
  simpl. by exists c, y.
Qed.

Lemma apply_ray_ids_slice {Ray} (rays : list Ray) (cs : list nat)
    (values : list (IntersectedRank float)) i c :
  length rays = length cs → length values = sum_list cs → cs !! i = Some c →
  take c (drop (sum_list (take i cs)) (apply_ray_ids rays (offsets_of cs) values))
  = set_ray_id i <$> take c (drop (sum_list (take i cs)) values).
Proof.
  intros Hrays Hvalues Hc.
  destruct (apply_ray_ids_spec rays cs values Hrays Hvalues) as [Hlen Hslot].
  apply list_eq. intros y. rewrite list_lookup_fmap.
  destruct (decide (y < c)) as [Hy|Hy].
  - rewrite !lookup_take_lt, !lookup_drop by done. by apply (Hslot i c y).
  - rewrite !lookup_take_ge by lia. done.
Qed.

Lemma sort_permutation_Permutation (sa : list (IntersectedRankForSorting float)) :
  sort_permutation flt sa ≡ₚ seq 0 (length sa).
Proof. unfold sort_permutation, iota. apply std_sort_Permutation. Qed.

Lemma compare_indices_asym (sa : list (IntersectedRankForSorting float)) a b :
  compare_indices flt sa a b = true → compare_indices flt sa b a = false.
Proof using flt_irrefl flt_trans.
  unfold compare_indices. destruct (sa !! a), (sa !! b); try done.
  apply IntersectedRankForSorting_lt_asym.
Qed.

(** The values read through the sorted permutation are in the order of
    [operator<]. *)
Lemma sorted_values_Sorted (restored : list (IntersectedRank float)) :
  Sorted
    (fun a b =>
       IntersectedRankForSorting_lt flt (for_sorting b) (for_sorting a) = false)
    (applyPermutation (sort_permutation flt (copy_sort_array restored)) restored).
Proof using flt_irrefl flt_trans.
  unfold applyPermutation.
  eapply (Sorted_omap _
            (not_after (compare_indices flt (copy_sort_array restored)))).
  - intros p Hp. rewrite sort_permutation_Permutation in Hp.
    apply elem_of_seq in Hp. apply lookup_lt_is_Some_2.
    unfold copy_sort_array in Hp. rewrite length_fmap in Hp. lia.
  - intros p q a b Ha Hb Hpq. unfold not_after, compare_indices in Hpq.
    unfold copy_sort_array in Hpq. rewrite !list_lookup_fmap, Ha, Hb in Hpq.
    done.
  - apply std_sort_Sorted. apply compare_indices_asym.
Qed.

Lemma Sorted_drop {A} (R : relation A) (l : list A) k :
  Sorted R l → Sorted R (drop k l).
Proof.
  revert l. induction k as [|k IH]; intros l Hl; [by rewrite drop_0|].
  destruct l as [|x l]; [done|]. simpl. apply IH. by apply Sorted_inv in Hl as [? _].
Qed.

Lemma Sorted_take {A} (R : relation A) (l : list A) k :
  Sorted R l → Sorted R (take k l).
Proof.
  intros Hl. revert k. induction Hl as [|x l Hl IH Hhd]; intros k.
  - by rewrite take_nil.
  - destruct k as [|k]; simpl; [constructor|]. constructor; [apply IH|].
    destruct Hhd as [|y l' Hxy]; [rewrite take_nil; constructor|].
    destruct k; simpl; by constructor.
Qed.

Lemma NoDup_fmap_elem_of_inj {A B} (f : A → B) (l : list A) x y :
  NoDup (f <$> l) → x ∈ l → y ∈ l → f x = f y → x = y.
Proof.
  intros Hnd Hx Hy Hf.
  apply list_elem_of_lookup in Hx as [i Hi]. apply list_elem_of_lookup in Hy as [j Hj].
  assert (i = j) as ->; [|congruence].
  apply (NoDup_lookup _ i j (f x) Hnd).
  - by rewrite list_lookup_fmap, Hi.
  - by rewrite list_lookup_fmap, Hj, Hf.
Qed.

Lemma slice_offsets_of {A} (cs : list nat) (values : list A) i c :
  cs !! i = Some c →
  slice (offsets_of cs) values i = take c (drop (sum_list (take i cs)) values).
Proof.
  intros Hc. apply lookup_lt_Some in Hc as Hi. unfold slice.
  rewrite !lookup_total_offsets_of by lia.
  rewrite (sum_list_take_S _ _ _ Hc). do 2 f_equal. lia.
Qed.

(** What the accumulation loop reads for ray [i] is the slice of ray [i]
    of the values read through the permutation. *)
Lemma merged_slice {Ray} (rays : list Ray) (cs : list nat)
    (values : list (IntersectedRank float)) i c :
  length rays = length cs → length values = sum_list cs → cs !! i = Some c →
  let restored := apply_ray_ids rays (offsets_of cs) values in
  merged flt rays (offsets_of cs) values i
  = take c (drop (sum_list (take i cs))
      (applyPermutation (sort_permutation flt (copy_sort_array restored)) restored)).
Proof.
  intros Hrays Hvalues Hc restored. unfold merged, merge, merged_partial_results.
  simpl. fold restored. apply lookup_lt_Some in Hc as Hi.
  pose proof (sum_list_take_S _ _ _ Hc) as HS.
  rewrite !lookup_total_offsets_of by lia.
  replace (sum_list (take (i + 1) cs) - sum_list (take i cs)) with c
    by (rewrite Nat.add_1_r; lia).
  set (P := sort_permutation flt (copy_sort_array restored)).
  assert (length restored = sum_list cs) as Hlen.
  { destruct (apply_ray_ids_spec rays cs values Hrays Hvalues) as [Hl _].
    unfold restored. congruence. }
  assert (P ≡ₚ seq 0 (length restored)) as HP.
  { unfold P. rewrite sort_permutation_Permutation.
    unfold copy_sort_array. by rewrite length_fmap. }
  assert (Forall (fun p => p < length restored) P) as Hall.
  { rewrite HP. apply Forall_seq. intros; lia. }
  assert (length (applyPermutation P restored) = sum_list cs) as HlenS.
  { rewrite length_applyPermutation by done. rewrite HP, length_seq. done. }
  apply omap_seq_lookup.
  - intros j Hj.
    assert (j < length P) as HjP.
    { rewrite HP, length_seq, Hlen.
      pose proof (sum_list_take_mono cs (S i) (length cs) Hi) as Hm.
      rewrite firstn_all in Hm. lia. }
    destruct (lookup_lt_is_Some_2 P j HjP) as [p Hp]. rewrite Hp. simpl.
    symmetry. by apply lookup_applyPermutation.
  - rewrite HlenS.
    pose proof (sum_list_take_mono cs (S i) (length cs) Hi) as Hm.
    rewrite firstn_all in Hm. lia.
Qed.

Lemma evaluate_ray_intensity_merged (offsets : list nat)
    (values : list (IntersectedRank float)) (permutation : list nat) i :
  evaluate_ray_intensity fzero fadd fmul fneg fexp offsets values permutation i
  = (foldl (accumulate fadd fmul fneg fexp) (fzero, fzero)
       (merged_partial_results offsets values permutation i)).2.
Proof.
  unfold evaluate_ray_intensity, merged_partial_results, for_loop.
  f_equal. apply foldl_skip_omap.
Qed.

(** The facts on one slice of the merge of one table. *)
Lemma merged_facts {Ray} (rays : list Ray) (cs : list nat)
    (values : list (IntersectedRank float)) i c :
  length rays = length cs → length values = sum_list cs → cs !! i = Some c →
  let m := merged flt rays (offsets_of cs) values i in
  Forall (fun v => rid v = i) m ∧
  m ≡ₚ set_ray_id i <$> slice (offsets_of cs) values i ∧
  Sorted (fun a b => flt (dist b) (dist a) = false) m.
Proof using flt_irrefl flt_trans.
  intros Hrays Hvalues Hc m. unfold m.
  rewrite (merged_slice rays cs values i c) by done.
  set (restored := apply_ray_ids rays (offsets_of cs) values).
  set (S := applyPermutation (sort_permutation flt (copy_sort_array restored)) restored).
  pose proof (apply_ray_ids_owned rays cs values Hrays Hvalues) as HownR.
  fold restored in HownR.
  assert (S ≡ₚ restored) as Hperm.
  { apply applyPermutation_Permutation. rewrite sort_permutation_Permutation.
    unfold copy_sort_array. by rewrite length_fmap. }
  pose proof (sorted_values_Sorted restored) as Hsorted. fold S in Hsorted.
  assert (owned_by rid cs S) as HownS.
  { eapply owned_by_sorted_Permutation; [exact HownR|done|].
    eapply Sorted_weaken; [|exact Hsorted]. apply lt_not_after_ray_id. }
  assert (Forall (fun v => rid v = i)
            (take c (drop (sum_list (take i cs)) S))) as Hall.
  { rewrite (owned_by_slice rid cs S i c HownS Hc).
    apply Forall_forall. intros v Hv. by apply list_elem_of_filter in Hv as [? _]. }
  split_and!.
  - done.
  - rewrite (owned_by_slice_Permutation rid cs restored S i c) by done.
    unfold restored. rewrite (apply_ray_ids_slice rays cs values i c) by done.
    by rewrite (slice_offsets_of cs values i c).
  - eapply (Sorted_weaken_Forall (fun v => rid v = i)); [exact Hall| |].
    + intros a b Ha Hb. apply lt_not_after_dist. congruence.
    + by apply Sorted_take, Sorted_drop.
Qed.

(** C1, as the code has it.  In the merge, for every ray [i] of the
    originating rank: every partial result that the accumulation reads
    carries the ray ID [i] again; they are the partial results of the slice
    of [i], all of them and no other; they are read in ascending entry
    distance, and the accumulation is the fold over them in that order.  For
    every other arrival order of the partial results the entry distances are
    read in the same order, and so are the partial results themselves as
    soon as no two partial results of the ray have the same entry distance
    (partial results that tie keep their arrival order). *)
Theorem merge_orders_by_entry_distance {Ray} (rays : list Ray) (offsets : list nat)
    (values values' : list (IntersectedRank float)) (i : nat) :
  is_csr (length rays) offsets values →
  arrival_orders offsets values values' →
  i < length rays →
  let m := merged flt rays offsets values i in
  let m' := merged flt rays offsets values' i in
  let restored := (merge flt rays offsets values).1 in
  let permutation := (merge flt rays offsets values).2 in
  Forall (fun v => ray_id (for_sorting v) = i) m ∧
  m ≡ₚ set_ray_id i <$> slice offsets values i ∧
  Sorted (fun a b => flt (dist b) (dist a) = false) m ∧
  evaluate_ray_intensity fzero fadd fmul fneg fexp offsets restored permutation i
  = (foldl (accumulate fadd fmul fneg fexp) (fzero, fzero) m).2 ∧
  dist <$> m = dist <$> m' ∧
  (NoDup (dist <$> slice offsets values i) → m = m').
Proof using flt_irrefl flt_trans flt_total.
  intros Hcsr [Hlen' Hslices] Hi m m' restored permutation.
  destruct (is_csr_inv _ _ _ Hcsr) as (cs & Hcs & -> & Hvalues).
  destruct (lookup_lt_is_Some_2 cs i) as [c Hc]; [lia|].
  assert (length values' = sum_list cs) as Hvalues' by congruence.
  destruct (merged_facts rays cs values i c) as (Hid & Hperm & Hsorted);
    [congruence|done|done|].
  destruct (merged_facts rays cs values' i c) as (Hid' & Hperm' & Hsorted');
    [congruence|done|done|].
  fold m in Hid, Hperm, Hsorted. fold m' in Hid', Hperm', Hsorted'.
  assert (m ≡ₚ m') as Hmm.
  { rewrite Hperm, Hperm'. by rewrite (Hslices i). }
  assert (Transitive (fun a b : float => flt b a = false)) as Htrans.
  { intros a b c' Hab Hbc. by eapply flt_not_after_trans. }
  assert (Transitive
            (fun a b : IntersectedRank float => flt (dist b) (dist a) = false))
    as Htrans'.
  { intros a b c' Hab Hbc. by eapply flt_not_after_trans. }
  split_and!; [done|done|done| | |].
  - unfold restored, permutation, m, merged. apply evaluate_ray_intensity_merged.
  - apply (@Sorted_unique_strong _ (fun a b : float => flt b a = false) Htrans).
    + intros x1 x2 _ _ H12 H21. by apply flt_total.
    + by apply (Sorted_fmap _
                  (fun a b : IntersectedRank float => flt (dist b) (dist a) = false)).
    + by apply (Sorted_fmap _
                  (fun a b : IntersectedRank float => flt (dist b) (dist a) = false)).
    + by rewrite Hmm.
  - intros Hnodup.
    assert (NoDup (dist <$> m)) as Hnd.
    { rewrite Hperm, <- list_fmap_compose.
      by rewrite (list_fmap_ext (dist ∘ set_ray_id i) dist) by done. }
    apply (@Sorted_unique_strong _ _ Htrans'); [|done|done|done].
    intros x1 x2 Hx1 Hx2 H12 H21. apply (NoDup_fmap_elem_of_inj dist m); [done|done| |].
    + by rewrite Hmm.
    + by apply flt_total.
Qed.
End MergeCorrect.

(** ** The partition of the boxes over the ranks *)

Lemma length_subview_of_chunk {A} (v : list A) k r :
  k * (r + 1) ≤ length v → length (subview v (k * r, k * (r + 1))) = k.
Proof.
  intros Hfit. unfold subview. simpl. rewrite length_take, length_drop. nia.
Qed.

Lemma flat_map_chunks {A} (v : list A) k m :
  flat_map (fun r => subview v (k * r, k * (r + 1))) (seq 0 m) = take (k * m) v.
Proof.
  induction m as [|m IH].
  - by rewrite Nat.mul_0_r.
  - rewrite seq_S, flat_map_app, IH. simpl. rewrite app_nil_r. unfold subview. simpl.
    replace (k * (m + 1) - k * m) with k by nia.
    rewrite take_take_drop. f_equal. nia.
Qed.

(** C9, as the code has it.  When the number of boxes is not a multiple of
    the number of ranks, rank 0 prints the warning (no other rank prints
    anything) and the run goes on with an even split: every rank takes
    [num_boxes / nranks] boxes, the ranks together hold the first
    [nranks * (num_boxes / nranks)] boxes, and the last [num_boxes mod
    nranks] boxes, at least one, are in the part of no rank.  The rays
    follow the boxes: every rank takes the rays of its boxes, and in the
    view of [rays_per_box] rays per box that [main] allocates the rays in
    the part of no rank are the [rays_per_box] rays of each box that is in
    the part of no rank. *)
Theorem indivisible_boxes_are_warned_and_cut {Box Ray} (boxes : list Box)
    (rays : list Ray) (rays_per_box nranks : nat) :
  0 < nranks → length boxes mod nranks ≠ 0 →
  let part := partition_for_rank boxes rays rays_per_box nranks in
  let per_rank := length boxes / nranks in
  printed (part 0)
  = [Running_with nranks; Warning_indivisible (length boxes) nranks] ∧
  (∀ rank, 0 < rank → printed (part rank) = []) ∧
  (∀ rank, rank < nranks →
     num_boxes_per_rank (part rank) = per_rank ∧
     length (boxes_for_rank (part rank)) = per_rank ∧
     boxes_for_rank (part rank) = take per_rank (drop (per_rank * rank) boxes)) ∧
  distributed_boxes boxes rays rays_per_box nranks = take (per_rank * nranks) boxes ∧
  boxes
  = distributed_boxes boxes rays rays_per_box nranks
    ++ drop (per_rank * nranks) boxes ∧
  length (drop (per_rank * nranks) boxes) = length boxes mod nranks ∧
  0 < length (drop (per_rank * nranks) boxes) ∧
  (∀ rank, rank < nranks →
     rays_for_rank (part rank)
     = take (per_rank * rays_per_box)
         (drop (per_rank * rays_per_box * rank) rays)) ∧
  distributed_rays boxes rays rays_per_box nranks
  = take (per_rank * rays_per_box * nranks) rays ∧
  (length rays = rays_per_box * length boxes →
     rays
     = distributed_rays boxes rays rays_per_box nranks
       ++ drop (per_rank * rays_per_box * nranks) rays ∧
     length (drop (per_rank * rays_per_box * nranks) rays)
     = rays_per_box * (length boxes mod nranks) ∧
     ∀ i j, i < length boxes → j < rays_per_box →
       (per_rank * nranks ≤ i ↔
        per_rank * rays_per_box * nranks ≤ j + i * rays_per_box)).
Proof.
  intros Hranks Hmod part per_rank.
  pose proof (Nat.div_mod_eq (length boxes) nranks) as Hdiv. fold per_rank in Hdiv.
  assert (distributed_boxes boxes rays rays_per_box nranks
          = take (per_rank * nranks) boxes) as Hall.
  { unfold distributed_boxes. simpl. fold per_rank. apply flat_map_chunks. }
  split_and!.
  - unfold part, partition_for_rank. simpl.
    destruct (Nat.eqb_spec (length boxes mod nranks) 0); [done|]. done.
  - intros rank Hrank. unfold part, partition_for_rank. simpl.
    destruct (Nat.eqb_spec rank 0); [lia|done].
  - intros rank Hrank. unfold part, partition_for_rank. simpl. fold per_rank.
    split_and!; [done| |].
    + apply length_subview_of_chunk. nia.
    + unfold subview. simpl. do 2 f_equal. nia.
  - done.
  - by rewrite Hall, take_drop.
  - rewrite length_drop. nia.
  - rewrite length_drop. nia.
  - intros rank Hrank. unfold part, partition_for_rank, subview. simpl.
    fold per_rank. do 2 f_equal. nia.
  - unfold distributed_rays. simpl. fold per_rank. apply flat_map_chunks.
  - intros Hrays.
    assert (distributed_rays boxes rays rays_per_box nranks
            = take (per_rank * rays_per_box * nranks) rays) as Hallrays.
    { unfold distributed_rays. simpl. fold per_rank. apply flat_map_chunks. }
    split_and!.
    + by rewrite Hallrays, take_drop.
    + rewrite length_drop, Hrays. nia.
    + intros i j Hi Hj. split; intros Hle; [nia|].
      destruct (decide (per_rank * nranks ≤ i)) as [|Hlt]; [done|]. nia.
Qed.

(** ** Scenarios *)

(** [buffer_size = +2] with a query that matches 5 primitives: the fallback
    is engaged and all 5 matches are returned. *)
Example positive_buffer_falls_back :
  example_spatial_inline (setBufferSize 2 defaultTraversalPolicy) [5]
  = MkRun [SortedAlongZOrderCurve [0]; Traversed BufferedPass [5];
           Traversed CountingPass [5]; Traversed WritingPass [5]]
      (Returned ([0; 5], [0; 1; 2; 3; 4]%Z)).
Proof. reflexivity. Qed.

(** [buffer_size = -2] with the same query: [CapacityExceeded]. *)
Example negative_buffer_fails :
  example_spatial_inline (setBufferSize (-2) defaultTraversalPolicy) [5]
  = MkRun [SortedAlongZOrderCurve [0]; Traversed BufferedPass [5]]
      (Thrown CapacityExceeded).
Proof. reflexivity. Qed.

(** One query for the 3 nearest among 5 primitives at distances 1 to 5. *)
Example three_nearest_of_five :
  outcome (example_nearest_inline defaultTraversalPolicy [3])
  = Returned ([0; 3], [(0%Z, 1); (1%Z, 2); (2%Z, 3)]).
Proof. reflexivity. Qed.

(** A query for 7 neighbours among 5 primitives returns the 5. *)
Example fewer_primitives_than_requested :
  outcome (example_nearest_inline defaultTraversalPolicy [7])
  = Returned ([0; 5], [(0%Z, 1); (1%Z, 2); (2%Z, 3); (3%Z, 4); (4%Z, 5)]).
Proof. reflexivity. Qed.



(** C5 fails for nearest predicates.  With sorting requested, the nearest
    dispatch of the batch [1; 2], whose
    keys descend, still traverses [1; 2]: the view reordered by the sorted
    permutation [1; 0] would be [2; 1]. *)
Lemma nearest_dispatch_does_not_reorder :
  let batch := [1; 2] in
  let permute := sortQueriesAlongZOrderCurve example_curve_key tt batch in
  permute = [1; 0] ∧
  applyPermutation permute batch = [2; 1] ∧
  trace (example_nearest_inline (setPredicateSorting true defaultTraversalPolicy) batch)
  = [Traversed BufferedPass [1; 2]] ∧
  ¬ traverses_reordered permute (applyPermutation permute batch)
      (trace (example_nearest_inline
                (setPredicateSorting true defaultTraversalPolicy) batch)).
Proof.
  split_and!; [reflexivity..|].
  intros (traversals & Htrace & _). vm_compute in Htrace. discriminate.
Qed.

(** C7 fails when the inline dispatch fails.  A spatial post-callback
    dispatch under [buffer_size = -1] of a query with two matches: the
    inline dispatch fails, and the post callback is not invoked. *)
Lemma post_callback_not_invoked_after_failure :
  let r := example_spatial_post (setBufferSize (-1) defaultTraversalPolicy) [2] in
  outcome r = Thrown CapacityExceeded ∧
  count_events is_post_callback (trace r) = 0 ∧
  count_events is_post_callback (trace r) ≠ 1.
Proof. split_and!; [reflexivity|reflexivity|]. vm_compute. discriminate. Qed.

Lemma Z_ltb_trans (a b c : Z) : (a <? b)%Z = true → (b <? c)%Z = true → (a <? c)%Z = true.
Proof. rewrite !Z.ltb_lt. lia. Qed.

Lemma Z_ltb_total (a b : Z) : (a <? b)%Z = false → (b <? a)%Z = false → a = b.
Proof. rewrite !Z.ltb_ge. lia. Qed.

Lemma is_csr_one_ray (a b : IntersectedRank Z) : is_csr 1 [0; 2] [a; b].
Proof.
  split_and!; [done|done| |done].
  intros [|[|i]] x y Hx Hy; simpl in *; simplify_eq; lia.
Qed.

Lemma arrival_orders_swap (a b : IntersectedRank Z) :
  arrival_orders [0; 2] [a; b] [b; a].
Proof.
  split; [done|]. intros [|[|i]]; [apply Permutation_swap|done|done].
Qed.

(** C1 on the scenario of two hosts: A entered at [1], B at [3];
    whichever arrives first, the merge reads A, then B. *)
Lemma merge_orders_by_entry_distance_witness :
  merged Z.ltb [()] [0; 2] [host_B; host_A] 0 = [host_A; host_B] ∧
  merged Z.ltb [()] [0; 2] [host_B; host_A] 0
  = merged Z.ltb [()] [0; 2] [host_A; host_B] 0.
Proof.
  split; [reflexivity|].
  pose proof (merge_orders_by_entry_distance Z.ltb Z.ltb_irrefl Z_ltb_trans Z_ltb_total
                0%Z Z.add Z.mul Z.opp id [()] [0; 2] [host_B; host_A] [host_A; host_B] 0
                (is_csr_one_ray host_B host_A) (arrival_orders_swap host_B host_A)
                (Nat.lt_0_succ 0)) as (_ & _ & _ & _ & _ & Hsame).
  apply Hsame. vm_compute. compute_done.
Defined.

(** C1 fails on ties.  Hosts A and C, both entered at [1]: the merge reads
    them in the order in which they arrived, so two arrival orders give two
    final orders. *)
Lemma tied_entry_distances_keep_arrival_order :
  is_csr 1 [0; 2] [host_A; host_C] ∧
  arrival_orders [0; 2] [host_A; host_C] [host_C; host_A] ∧
  merged Z.ltb [()] [0; 2] [host_A; host_C] 0 = [host_A; host_C] ∧
  merged Z.ltb [()] [0; 2] [host_C; host_A] 0 = [host_C; host_A] ∧
  ¬ merge_ignores_arrival_order Z.ltb [()] [0; 2] [host_A; host_C] [host_C; host_A].
Proof.
  split_and!.
  - apply is_csr_one_ray.
  - apply arrival_orders_swap.
  - reflexivity.
  - reflexivity.
  - intros Hsame. specialize (Hsame 0 (Nat.lt_0_succ 0)).
    vm_compute in Hsame. discriminate.
Qed.

(** C9 on ten boxes and three ranks. *)
Lemma indivisible_boxes_are_warned_and_cut_witness :
  let part := partition_for_rank (seq 0 10) (seq 0 20) 2 3 in
  printed (part 0) = [Running_with 3; Warning_indivisible 10 3] ∧
  (∀ rank, rank < 3 → length (boxes_for_rank (part rank)) = 3) ∧
  distributed_boxes (seq 0 10) (seq 0 20) 2 3 = seq 0 9 ∧
  drop 9 (seq 0 10) = [9] ∧
  distributed_rays (seq 0 10) (seq 0 20) 2 3 = seq 0 18 ∧
  drop 18 (seq 0 20) = [18; 19].
Proof.
  pose proof (indivisible_boxes_are_warned_and_cut (seq 0 10) (seq 0 20) 2 3
                (Nat.lt_0_succ 2) ltac:(discriminate))
    as (Hprinted & _ & Hrank & Hall & _ & _ & _ & _ & Hrays & _).
  split_and!; [exact Hprinted| |exact Hall|reflexivity|exact Hrays|reflexivity].
  intros rank Hlt. by destruct (Hrank rank Hlt) as (_ & Hlen & _).
Defined.

(** C9 fails on ten boxes and three ranks: rank 0 warns, every rank takes
    three boxes (an even split), and box 9 is in the part of no rank. *)
Lemma ten_boxes_on_three_ranks_drop_one :
  printed (partition_for_rank (seq 0 10) (seq 0 20) 2 3 0)
  = [Running_with 3; Warning_indivisible 10 3] ∧
  (fun rank => length (boxes_for_rank (partition_for_rank (seq 0 10) (seq 0 20) 2 3 rank)))
    <$> seq 0 3 = [3; 3; 3] ∧
  ¬ no_box_dropped (seq 0 10) (seq 0 20) 2 3.
Proof.
  split_and!; [reflexivity|reflexivity|].
  intros Hall. specialize (Hall 9). vm_compute in Hall.
  assert (9 ∈ [0; 1; 2; 3; 4; 5; 6; 7; 8; 9]) as Hin by compute_done.
  apply Hall in Hin.
  assert (9 ∉ [0; 1; 2; 3; 4; 5; 6; 7; 8]) as Hout by compute_done.
  by apply Hout.
Qed.

(** ** More on the dispatch: what [queryImpl] receives, the split of the
    pairs, the policy fields that are not read *)

Section DispatchMore.
Context {BVH Bounds Pred float : Type}.
Variable bounds : BVH → Bounds.
Variable traverse_spatial : BVH → Pred → list Z.
Variable traverse_nearest : BVH → Pred → list (Z * float).
Variable getK : Pred → nat.
Variable curve_key : Bounds → Pred → nat.
Variable uninit_offset : nat.

Local Abbreviation spatial_inline In :=
  (queryDispatch_spatial_inline (In:=In) bounds traverse_spatial curve_key
     uninit_offset).
Local Abbreviation nearest_inline In :=
  (queryDispatch_nearest_inline (In:=In) bounds traverse_nearest getK curve_key
     uninit_offset).


(** X1.  The overload that collects indices and distances in two views runs
    the dispatch that collects the pairs and nothing else: the same
    traversals, the same failure, and on return the same offsets, with
    [indices(i)] and [distances(i)] the two halves of pair [i], whatever the
    two views held before. *)
Theorem split_pairs_unzips (uninit_index : Z) (uninit_distance : float)
    (uninit_pair : Z * float) bvh batch indices offset distances policy :
  let pairs_run :=
    nearest_inline (Z * float) uninit_pair bvh batch
      CallbackDefaultNearestPredicateWithDistance [] offset policy in
  let r :=
    queryDispatch_nearest_indices_distances bounds traverse_nearest getK curve_key
      uninit_offset uninit_index uninit_distance uninit_pair bvh batch indices offset
      distances policy in
  trace r = trace pairs_run ∧
  outcome r
  = match outcome pairs_run with
    | Returned (offsets, pairs) => Returned (offsets, pairs.*1, pairs.*2)
    | Thrown e => Thrown e
    end ∧
  ∀ offsets indices' distances',
    outcome r = Returned (offsets, indices', distances') →
    length indices' = length distances' ∧
    outcome pairs_run = Returned (offsets, zip indices' distances').
Proof.
  intros pairs_run r.
  assert (outcome r
          = match outcome pairs_run with
            | Returned (offsets, pairs) => Returned (offsets, pairs.*1, pairs.*2)
            | Thrown e => Thrown e
            end) as Hout.
  { unfold r, queryDispatch_nearest_indices_distances. rewrite outcome_bind.
    fold pairs_run. destruct (outcome pairs_run) as [[offs pairs]|e]; [|done].
    simpl. unfold parallel_for, reallocWithoutInitializing.
    rewrite (parallel_for_from_pair (fun j (pair : Z * float) v => <[j := pair.1]> v)
               (fun j (pair : Z * float) v => <[j := pair.2]> v)).
    simpl. fold (parallel_for pairs (fun j (pair : Z * float) v => <[j := pair.1]> v)
                   (replicate (length pairs) uninit_index)).
    fold (parallel_for pairs (fun j (pair : Z * float) v => <[j := pair.2]> v)
                   (replicate (length pairs) uninit_distance)).
    by rewrite !parallel_for_store. }
  split_and!.
  - unfold r, queryDispatch_nearest_indices_distances. rewrite trace_bind.
    fold pairs_run. destruct (outcome pairs_run); [|done]. simpl.
    by rewrite app_nil_r.
  - done.
  - intros offsets indices' distances'. rewrite Hout.
    destruct (outcome pairs_run) as [[offs pairs]|e]; [|done].
    intros [= <- <- <-]. split; [by rewrite !length_fmap|].
    by rewrite zip_fst_snd.
Qed.

(** X2.  No overload reads [_traversal_algorithm]: a policy that asks for
    [PriorityQueueBased_Deprecated], or for any algorithm, gives the very
    run of the policy it was made from. *)
Theorem traversal_algorithm_is_not_read {Value Out} (uninit : Value) bvh batch
    (callback : Pred → Z → list Value)
    (nearest_callback : Pred → Z → float → list Value)
    (post : PostCallback Z Out) (nearest_post_callback : PostCallback (Z * float) Out)
    (uninit_index : Z) (uninit_distance : float) (uninit_pair : Z * float)
    out indices distances post_out offset policy (a : NearestQueryAlgorithm) :
  let policy' := setTraversalAlgorithm a policy in
  spatial_inline Z uninit bvh batch callback out offset policy'
  = spatial_inline Z uninit bvh batch callback out offset policy ∧
  nearest_inline Z uninit bvh batch nearest_callback out offset policy'
  = nearest_inline Z uninit bvh batch nearest_callback out offset policy ∧
  queryDispatch_spatial_post bounds traverse_spatial curve_key uninit_offset
    uninit_index bvh batch post post_out offset policy'
  = queryDispatch_spatial_post bounds traverse_spatial curve_key uninit_offset
      uninit_index bvh batch post post_out offset policy ∧
  queryDispatch_nearest_post bounds traverse_nearest getK curve_key uninit_offset
    uninit_pair bvh batch nearest_post_callback post_out offset policy'
  = queryDispatch_nearest_post bounds traverse_nearest getK curve_key uninit_offset
      uninit_pair bvh batch nearest_post_callback post_out offset policy ∧
  queryDispatch_nearest_indices_distances bounds traverse_nearest getK curve_key
    uninit_offset uninit_index uninit_distance uninit_pair bvh batch indices offset
    distances policy'
  = queryDispatch_nearest_indices_distances bounds traverse_nearest getK curve_key
      uninit_offset uninit_index uninit_distance uninit_pair bvh batch indices offset
      distances policy.
Proof. by destruct policy as [b sort algo]. Qed.


(** X4.  An empty batch.  Under every policy, whatever the sign of the
    buffer size, both inline dispatches return the table of no query, the
    offsets [[0]] and no value, and never fail; a post-callback dispatch
    invokes its callback on that table. *)
Theorem empty_batch_returns_empty_table {Value Out} (uninit : Value) bvh
    (callback : Pred → Z → list Value)
    (nearest_callback : Pred → Z → float → list Value)
    (post : PostCallback Z Out) (uninit_index : Z) out post_out offset policy :
  outcome (spatial_inline Z uninit bvh [] callback out offset policy)
  = Returned ([0], []) ∧
  outcome (nearest_inline Z uninit bvh [] nearest_callback out offset policy)
  = Returned ([0], []) ∧
  outcome (queryDispatch_spatial_post bounds traverse_spatial curve_key uninit_offset
             uninit_index bvh [] post post_out offset policy)
  = Returned (post [] [0] [] post_out).
Proof.
  split_and!.
  - rewrite spatial_inline_outcome. by rewrite andb_false_r.
  - by rewrite nearest_inline_outcome.
  - unfold queryDispatch_spatial_post, queryDispatch_spatial_indices.
    rewrite outcome_bind, spatial_inline_outcome. by rewrite andb_false_r.
Qed.
End DispatchMore.

(** ** Loops that store into views *)

Lemma for_loop_ext {St} (body1 body2 : nat → St → St) lo hi s :
  (∀ j s', lo ≤ j < hi → body1 j s' = body2 j s') →
  for_loop lo hi body1 s = for_loop lo hi body2 s.
Proof.
  unfold for_loop. intros Hext.
  assert (∀ k lo' s', lo ≤ lo' → lo' + k ≤ lo + (hi - lo) →
    foldl (fun s j => body1 j s) s' (seq lo' k)
    = foldl (fun s j => body2 j s) s' (seq lo' k)) as H.
  { induction k as [|k IH]; intros lo' s' Hlo Hhi; simpl; [done|].
    rewrite Hext by lia. apply IH; lia. }
  apply H; lia.
Qed.

Lemma for_loop_ind {St} (P : nat → St → Prop) (body : nat → St → St) lo hi s :
  lo ≤ hi → P lo s →
  (∀ j s', lo ≤ j < hi → P j s' → P (S j) (body j s')) →
  P hi (for_loop lo hi body s).
Proof.
  unfold for_loop. intros Hle Hs Hstep.
  assert (∀ k lo' s', lo ≤ lo' → lo' + k ≤ hi → P lo' s' →
    P (lo' + k) (foldl (fun s j => body j s) s' (seq lo' k))) as H.
  { induction k as [|k IH]; intros lo' s' Hlo Hhi Hs'; simpl.
    - by rewrite Nat.add_0_r.
    - replace (lo' + S k) with (S lo' + k) by lia.
      apply IH; [lia|lia|]. apply Hstep; [lia|done]. }
  replace hi with (lo + (hi - lo)) at 1 by lia. apply H; [lia|lia|done].
Qed.

Lemma for_loop_empty {St} (body : nat → St → St) lo hi s :
  hi ≤ lo → for_loop lo hi body s = s.
Proof. intros Hle. unfold for_loop. by replace (hi - lo) with 0 by lia. Qed.

Lemma for_loop_foldl {St B} (f : St → B → St) (g : nat → B) lo hi s :
  for_loop lo hi (fun j acc => f acc (g j)) s = foldl f s (g <$> seq lo (hi - lo)).
Proof.
  unfold for_loop. generalize (hi - lo). intros k. revert lo s.
  induction k as [|k IH]; intros lo s; csimpl; [done|]. apply IH.
Qed.

(** [a(j) = f j; b(j) = g j] for [j] from [lo] to [hi]. *)
Lemma for_loop_store2 {A B} (f : nat → A) (g : nat → B) lo hi
    (s : list A * list B) :
  let r := for_loop lo hi (fun j st => (<[j := f j]> st.1, <[j := g j]> st.2)) s in
  length r.1 = length s.1 ∧ length r.2 = length s.2 ∧
  ∀ x,
    r.1 !! x = (if decide (lo ≤ x < hi ∧ x < length s.1) then Some (f x) else s.1 !! x) ∧
    r.2 !! x = (if decide (lo ≤ x < hi ∧ x < length s.2) then Some (g x) else s.2 !! x).
Proof.
  intros r. unfold r. destruct (decide (lo ≤ hi)) as [Hle|Hgt].
  - pose (P := fun (j : nat) (st : list A * list B) =>
      length st.1 = length s.1 ∧ length st.2 = length s.2 ∧
      ∀ x,
        st.1 !! x
        = (if decide (lo ≤ x < j ∧ x < length s.1) then Some (f x) else s.1 !! x) ∧
        st.2 !! x
        = (if decide (lo ≤ x < j ∧ x < length s.2) then Some (g x) else s.2 !! x)).
    apply (for_loop_ind P); [done| |]; unfold P.
    + split_and!; [done|done|]. intros x.
      rewrite !decide_False by lia. done.
    + intros j st Hj (Hl1 & Hl2 & Hx). simpl. rewrite !length_insert.
      split_and!; [done|done|]. intros x. destruct (Hx x) as [Hx1 Hx2].
      destruct (decide (x = j)) as [->|Hne].
      * split.
        -- destruct (decide (j < length s.1)) as [Hin|Hout].
           ++ rewrite decide_True by lia. apply list_lookup_insert_eq. lia.
           ++ rewrite decide_False by lia. rewrite list_insert_ge by lia.
              rewrite Hx1. by rewrite decide_False by lia.
        -- destruct (decide (j < length s.2)) as [Hin|Hout].
           ++ rewrite decide_True by lia. apply list_lookup_insert_eq. lia.
           ++ rewrite decide_False by lia. rewrite list_insert_ge by lia.
              rewrite Hx2. by rewrite decide_False by lia.
      * rewrite !list_lookup_insert_ne by done. rewrite Hx1, Hx2.
        split.
        -- destruct (decide (lo ≤ x < j ∧ x < length s.1)).
           ++ by rewrite decide_True by lia.
           ++ by rewrite decide_False by lia.
        -- destruct (decide (lo ≤ x < j ∧ x < length s.2)).
           ++ by rewrite decide_True by lia.
           ++ by rewrite decide_False by lia.
  - rewrite for_loop_empty by lia. split_and!; [done|done|]. intros x.
    by rewrite !decide_False by lia.
Qed.

(** ** The permutation left by the sort of the indices *)

Section SortedIndices.
Context {A : Type}.
Variable lt : A → A → bool.

Lemma sort_indices_Permutation (sa : list A) :
  sort_indices lt sa ≡ₚ seq 0 (length sa).
Proof. unfold sort_indices, iota. apply std_sort_Permutation. Qed.

Lemma sort_indices_lt (sa : list A) :
  Forall (fun p => p < length sa) (sort_indices lt sa).
Proof. rewrite sort_indices_Permutation. apply Forall_seq. intros; lia. Qed.

Lemma sort_indices_NoDup (sa : list A) : NoDup (sort_indices lt sa).
Proof. rewrite sort_indices_Permutation. apply NoDup_seq. Qed.

Hypothesis lt_asym : ∀ a b, lt a b = true → lt b a = false.

(** Read through the permutation, no element is smaller than the one
    before it. *)
Lemma sort_indices_Sorted (sa : list A) :
  Sorted (fun p p' => ∀ a a', sa !! p = Some a → sa !! p' = Some a' → lt a' a = false)
    (sort_indices lt sa).
Proof using lt_asym.
  unfold sort_indices. eapply Sorted_weaken; [|apply std_sort_Sorted].
  - intros p p' Hpp a a' Ha Ha'. unfold not_after in Hpp. by rewrite Ha', Ha in Hpp.
  - intros p p'. destruct (sa !! p), (sa !! p'); try done. apply lt_asym.
Qed.

Lemma applyPermutation_sort_indices_Sorted (sa : list A) :
  Sorted (fun a a' => lt a' a = false) (applyPermutation (sort_indices lt sa) sa).
Proof using lt_asym.
  unfold applyPermutation.
  eapply (Sorted_omap _
    (fun p p' => ∀ a a', sa !! p = Some a → sa !! p' = Some a' → lt a' a = false)).
  - intros p Hp. apply lookup_lt_is_Some_2.
    pose proof (sort_indices_lt sa) as Hall.
    by apply (proj1 (Forall_forall _ _) Hall).
  - intros p p' a a' Ha Ha' Hpp. by apply Hpp.
  - apply sort_indices_Sorted.
Qed.

(** The elements are sorted by a key first: the permutation maps the slice
    of every key onto itself. *)
Variable key : A → nat.
Hypothesis lt_key : ∀ a b, lt b a = false → key a ≤ key b.
Variable cs : list nat.

Lemma sort_indices_slice (sa : list A) i c :
  owned_by key cs sa → cs !! i = Some c →
  take c (drop (sum_list (take i cs)) (sort_indices lt sa))
  ≡ₚ seq (sum_list (take i cs)) c.
Proof using lt_asym lt_key.
  intros Hown Hc. set (lo := sum_list (take i cs)).
  set (P := sort_indices lt sa).
  pose proof (sort_indices_Permutation sa) as HP. fold P in HP.
  pose proof (sort_indices_lt sa) as Hall. fold P in Hall.
  pose proof (sort_indices_NoDup sa) as Hnd. fold P in Hnd.
  pose proof Hown as [Hlen Hslot].
  assert (length P = sum_list cs) as HlenP by (by rewrite HP, length_seq).
  apply lookup_lt_Some in Hc as Hi.
  pose proof (sum_list_take_S _ _ _ Hc) as HS. fold lo in HS.
  assert (lo + c ≤ sum_list cs) as Hfit.
  { pose proof (sum_list_take_mono cs (S i) (length cs) Hi) as Hm.
    rewrite firstn_all in Hm. lia. }
  set (S := applyPermutation P sa).
  assert (S ≡ₚ sa) as HS_perm by (by apply applyPermutation_Permutation).
  assert (owned_by key cs S) as HownS.
  { eapply owned_by_sorted_Permutation; [exact Hown|done|].
    eapply Sorted_weaken; [|apply applyPermutation_sort_indices_Sorted].
    intros a b. apply lt_key. }
  apply submseteq_length_Permutation.
  - apply NoDup_submseteq.
    + eapply sublist_NoDup; [exact Hnd|].
      etrans; [apply sublist_take|apply sublist_drop].
    + intros p Hp. apply list_elem_of_lookup in Hp as [y Hy].
      apply lookup_lt_Some in Hy as Hyc. rewrite length_take, length_drop in Hyc.
      rewrite lookup_take_lt, lookup_drop in Hy by lia.
      assert (p < length sa) as Hp.
      { apply (proj1 (Forall_lookup _ _) Hall _ _ Hy). }
      destruct (lookup_lt_is_Some_2 sa p Hp) as [a Ha].
      assert (S !! (lo + y) = Some a) as HSa.
      { unfold S. rewrite (lookup_applyPermutation P sa (lo + y) p Hall Hy). done. }
      assert (key a = i) as Hk.
      { apply (owned_by_slot key cs S i c y a HownS Hc); [lia|done]. }
      destruct (Hslot _ _ Ha) as (c' & y' & Hc' & Hy' & Hpeq).
      rewrite Hk in Hc', Hpeq. assert (c' = c) as -> by congruence.
      fold lo in Hpeq. apply elem_of_seq. lia.
  - rewrite length_seq, length_take, length_drop. lia.
Qed.
End SortedIndices.

(** ** The per-rank callback *)

Lemma fmap_lookup_total_seq {A} `{Inhabited A} (l : list A) lo c :
  lo + c ≤ length l → (fun j => l !!! j) <$> seq lo c = take c (drop lo l).
Proof.
  intros Hfit. apply list_eq. intros y. rewrite list_lookup_fmap.
  destruct (decide (y < c)) as [Hy|Hy].
  - rewrite lookup_seq_lt by done. rewrite lookup_take_lt, lookup_drop by done.
    simpl. symmetry. apply list_lookup_lookup_total_lt. lia.
  - rewrite lookup_seq_ge by lia. rewrite lookup_take_ge by lia. done.
Qed.

Lemma read_lookup {A} (undefined : A) (v : list A) i x :
  v !! i = Some x → read undefined v i = x.
Proof. unfold read. by intros ->. Qed.

Lemma list_fmap_ext_in {A B} (f g : A → B) (l : list A) :
  (∀ x, x ∈ l → f x = g x) → f <$> l = g <$> l.
Proof.
  induction l as [|x l IH]; intros Hext; csimpl; [done|].
  rewrite Hext by left. f_equal. apply IH. intros y Hy. apply Hext. by right.
Qed.

Section CallbackCorrect.
Context {float Ray Box Query : Type}.
Variable flt : float → float → bool.
Variable fzero : float.
Variable fadd fsub fmul fdiv fpow : float → float → float.
Variable fneg fexp : float → float.
Variable of_int : nat → float.
Variable kappa sigma temp pi : float.
Variable getGeometry : Query → Ray.
Variable overlapDistance : Ray → Box → float * float.
Variable uninit_box : Box.
Variable uninit_distance : float.
Variable uninit_cell : IntersectsBased.IntersectedCellForSorting float.
Variable fresh_rank : IntersectedRank float.

Local Abbreviation callback :=
  (AccumulateRayRankIntersections flt fzero fadd fsub fmul fdiv fpow fneg fexp of_int
     kappa sigma temp pi getGeometry overlapDistance uninit_box uninit_distance
     uninit_cell fresh_rank).
Local Abbreviation first_loop :=
  (evaluate_ray_cell_interaction fmul kappa getGeometry overlapDistance uninit_box
     uninit_distance uninit_cell).
Local Abbreviation step :=
  (accumulate_cell fadd fsub fmul fdiv fpow fneg fexp of_int sigma temp pi).
Local Abbreviation overlaps :=
  (overlaps_of_ray getGeometry overlapDistance uninit_box).
Local Abbreviation cell_lt := (IntersectsBased.IntersectedCellForSorting_lt flt).
(** [length] and [entrylength] of the intersection [x] of the table, for the
    ray of the query [q]. *)
Local Abbreviation hit boxes in_ q :=
  (fun x : nat =>
     overlapDistance (getGeometry q)
       (read uninit_box boxes (Z.to_nat ((in_ : list Z) !!! x)))).
(** What the second loop leaves in [out(i)], read off the views of the
    first loop, the permutation and the offsets. *)
Local Abbreviation rank_output optical_distances sort_array permutation offset :=
  (fun i : nat =>
     let acc :=
       foldl step (fzero, fzero)
         ((fun j => read uninit_distance optical_distances
                      ((permutation : list nat) !!! j))
            <$> seq ((offset : list nat) !!! i) (offset !!! (i + 1) - offset !!! i)) in
     MkIntersectedRank
       (MkIntersectedRankForSorting
          (IntersectsBased.entrylength
             (read uninit_cell sort_array (permutation !!! (offset !!! i)))) 0)
       acc.1 acc.2).

Lemma cell_lt_key (a b : IntersectsBased.IntersectedCellForSorting float) :
  cell_lt b a = false → IntersectsBased.ray_id a ≤ IntersectsBased.ray_id b.
Proof.
  unfold IntersectsBased.IntersectedCellForSorting_lt.
  destruct (Nat.eqb_spec (IntersectsBased.ray_id b) (IntersectsBased.ray_id a));
    [lia|].
  intros Hlt. by apply Nat.ltb_ge in Hlt.
Qed.

(** After the first loop, the cell [y] of the slice of ray [i] holds the
    optical distance and the sorting record of that intersection. *)
Lemma evaluate_ray_cell_interaction_spec (boxes : list Box) (queries : list Query)
    (cs : list nat) (in_ : list Z) :
  length queries = length cs → length in_ = sum_list cs →
  let r := first_loop boxes queries (offsets_of cs) in_ in
  length r.1 = length in_ ∧ length r.2 = length in_ ∧
  ∀ i q c y, queries !! i = Some q → cs !! i = Some c → y < c →
    r.1 !! (sum_list (take i cs) + y)
    = Some (fmul (hit boxes in_ q (sum_list (take i cs) + y)).1 kappa) ∧
    r.2 !! (sum_list (take i cs) + y)
    = Some (IntersectsBased.MkIntersectedCellForSorting
              (hit boxes in_ q (sum_list (take i cs) + y)).2 i).
Proof.
  intros Hqs Hin r. unfold r, evaluate_ray_cell_interaction.
  pose (P := fun (j : nat)
      (st : list float * list (IntersectsBased.IntersectedCellForSorting float)) =>
    length st.1 = length in_ ∧ length st.2 = length in_ ∧
    ∀ i q c y, i < j → queries !! i = Some q → cs !! i = Some c → y < c →
      st.1 !! (sum_list (take i cs) + y)
      = Some (fmul (hit boxes in_ q (sum_list (take i cs) + y)).1 kappa) ∧
      st.2 !! (sum_list (take i cs) + y)
      = Some (IntersectsBased.MkIntersectedCellForSorting
                (hit boxes in_ q (sum_list (take i cs) + y)).2 i)).
  match goal with |- length ?s.1 = _ ∧ _ => assert (P (length queries) s) as HP end.
  { apply parallel_for_ind.
    - unfold P. simpl. split_and!; [by rewrite length_replicate..|intros; lia].
    - intros j q st Hj (Hl1 & Hl2 & Hdone). unfold P.
      apply lookup_lt_Some in Hj as Hjn. rewrite Hqs in Hjn.
      destruct (lookup_lt_is_Some_2 cs j Hjn) as [cj Hcj].
      pose proof (sum_list_take_S _ _ _ Hcj) as HSj.
      rewrite !lookup_total_offsets_of by lia.
      rewrite Nat.add_1_r, HSj.
      set (lo := sum_list (take j cs)) in *.
      rewrite (for_loop_ext _
        (fun x (views : list float
                        * list (IntersectsBased.IntersectedCellForSorting float)) =>
           (<[x := fmul (hit boxes in_ q x).1 kappa]> views.1,
            <[x := IntersectsBased.MkIntersectedCellForSorting
                     (hit boxes in_ q x).2 j]> views.2))).
      2:{ intros x views _. by destruct (overlapDistance _ _). }
      destruct (for_loop_store2
        (fun x => fmul (hit boxes in_ q x).1 kappa)
        (fun x => IntersectsBased.MkIntersectedCellForSorting (hit boxes in_ q x).2 j)
        lo (lo + cj) st) as (Hr1 & Hr2 & Hrx).
      assert (lo + cj ≤ length in_) as Hfit.
      { rewrite Hin. pose proof (sum_list_take_mono cs (S j) (length cs) Hjn) as Hm.
        rewrite firstn_all in Hm. lia. }
      split_and!; [congruence|congruence|].
      intros i q' c y Hi Hq' Hc Hy. destruct (Hrx (sum_list (take i cs) + y)) as [Hx1 Hx2].
      rewrite Hx1, Hx2. clear Hx1 Hx2.
      pose proof (sum_list_take_S _ _ _ Hc) as HSi.
      destruct (decide (i = j)) as [->|Hne].
      + assert (q' = q) as -> by congruence. assert (c = cj) as -> by congruence.
        fold lo. rewrite !decide_True by lia. done.
      + pose proof (sum_list_take_mono cs (S i) j) as Hm. fold lo in Hm.
        rewrite !decide_False by lia. apply (Hdone i q' c y); [lia|done..]. }
  destruct HP as (Hl1 & Hl2 & Hdone). split_and!; [done|done|].
  intros i q c y Hq Hc Hy. apply (Hdone i q c y); [|done..].
  by apply lookup_lt_Some in Hq.
Qed.

(** The second loop, in index order: iteration [i] still finds the offsets
    of the table in [offset(i)] and [offset(i + 1)]. *)
Lemma callback_spec (boxes : list Box) (rank : nat) (queries : list Query)
    (offset : list nat) (in_ : list Z) (out : list (IntersectedRank float)) :
  length offset = length queries + 1 → offset !! 0 = Some 0 →
  let views := first_loop boxes queries offset in_ in
  let permutation := sort_indices cell_lt views.2 in
  let r := callback boxes rank queries offset in_ out in
  r.1 = seq 0 (length queries + 1) ∧ length r.2 = length queries ∧
  ∀ i, i < length queries →
    r.2 !! i = Some (rank_output views.1 views.2 permutation offset i).
Proof.
  intros Hlen H0 views permutation r.
  unfold r, AccumulateRayRankIntersections. fold views.
  unfold permutation. clear permutation r.
  destruct views as [od sa]. simpl.
  set (P := sort_indices cell_lt sa).
  set (n := length queries) in *.
  replace (length offset - 1) with n by lia. unfold realloc.
  pose (I := fun (j : nat) (st : list nat * list (IntersectedRank float)) =>
    length st.1 = S n ∧ length st.2 = n ∧
    (∀ x, x < j → st.1 !! x = Some x) ∧
    (j < n → ∀ x, j ≤ x → st.1 !! x = offset !! x) ∧
    (j = n → st.1 !! n = Some n) ∧
    (∀ i, i < j → st.2 !! i = Some (rank_output od sa P offset i))).
  match goal with |- ?s.1 = _ ∧ _ => assert (I n s) as HI end.
  { apply parallel_for_ind; unfold I.
    - simpl. rewrite length_replicate.
      split_and!; [lia|done|intros; lia|done| |intros; lia].
      intros <-. done.
    - intros j q [off o] Hj (Hl1 & Hl2 & Hlow & Hhigh & _ & Hout). simpl in *.
      apply lookup_lt_Some in Hj as Hjn. fold n in Hjn.
      specialize (Hhigh Hjn).
      assert (off !!! j = offset !!! j) as ->.
      { rewrite !list_lookup_total_alt. by rewrite Hhigh by lia. }
      assert (off !!! (j + 1) = offset !!! (j + 1)) as ->.
      { rewrite !list_lookup_total_alt. by rewrite Hhigh by lia. }
      rewrite (for_loop_foldl step (fun j0 => read uninit_distance od (P !!! j0))).
      destruct (foldl step (fzero, fzero) _) as [a b] eqn:Hfold. simpl.
      assert (length (if j + 1 =? n then <[n:=n]> (<[j:=j]> off) else <[j:=j]> off)
              = S n) as Hl1'.
      { destruct (j + 1 =? n); by rewrite ?length_insert. }
      split_and!.
      + done.
      + by rewrite length_insert.
      + intros x Hx. destruct (Nat.eqb_spec (j + 1) n) as [Hn|Hn].
        * rewrite list_lookup_insert_ne by lia.
          destruct (decide (x = j)) as [->|Hne].
          -- apply list_lookup_insert_eq. lia.
          -- rewrite list_lookup_insert_ne by done. apply Hlow. lia.
        * destruct (decide (x = j)) as [->|Hne].
          -- apply list_lookup_insert_eq. lia.
          -- rewrite list_lookup_insert_ne by done. apply Hlow. lia.
      + intros HSj x Hx. destruct (Nat.eqb_spec (j + 1) n) as [Hn|Hn]; [lia|].
        rewrite list_lookup_insert_ne by lia. apply Hhigh. lia.
      + intros HSj. destruct (Nat.eqb_spec (j + 1) n) as [Hn|Hn]; [|lia].
        apply list_lookup_insert_eq. rewrite length_insert. lia.
      + intros i Hi. destruct (decide (i = j)) as [->|Hne].
        * rewrite list_lookup_insert_eq by lia. by rewrite Hfold.
        * rewrite list_lookup_insert_ne by done. apply Hout. lia. }
  destruct HI as (Hl1 & Hl2 & Hlow & _ & Hlast & Hout).
  split_and!; [|done|done].
  apply list_eq. intros x. destruct (decide (x < n)) as [Hx|Hx].
  - rewrite lookup_seq_lt by lia. by apply Hlow.
  - destruct (decide (x = n)) as [->|Hne].
    + rewrite lookup_seq_lt by lia. by apply Hlast.
    + rewrite lookup_seq_ge by lia. apply lookup_ge_None. lia.
Qed.


(** X17.  With the iterations of the second loop run in index order, as
    the serial execution space runs them (iteration [i] reads the loop
    bound [offset(i + 1)], which iteration [i + 1] resets: no other
    schedule is covered).  A ray that meets no box of the rank, while a
    later ray does: its slice is empty, its output has the optical path
    length and the intensity contribution zero, and the entry length it
    reports is the one reported for the next ray, as
    [sort_array(permutation(offset(i)))] is then a record of a later
    ray. *)
Theorem callback_on_a_ray_without_boxes (boxes : list Box) (rank : nat)
    (queries : list Query) (offset : list nat) (in_ : list Z)
    (out : list (IntersectedRank float)) (i : nat) :
  reads_in_range boxes queries offset in_ →
  i < length queries →
  offset !!! (i + 1) = offset !!! i →
  let r := callback boxes rank queries offset in_ out in
  slice offset in_ i = [] ∧
  ∃ v,
    r.2 !! i = Some v ∧
    optical_path_length v = fzero ∧
    intensity_contribution v = fzero ∧
    ∀ v', r.2 !! (i + 1) = Some v' →
      entrylength (for_sorting v) = entrylength (for_sorting v').
Proof.
  intros ((Hlen & H0 & _ & _) & _ & _) Hi Hempty r.
  destruct (callback_spec boxes rank queries offset in_ out Hlen H0)
    as (_ & Hout & Hcells).
  fold r in Hout, Hcells. split.
  { unfold slice. rewrite Nat.add_1_r in Hempty. rewrite Hempty, Nat.sub_diag.
    done. }
  eexists. split; [by apply Hcells|]. simpl.
  rewrite Hempty, Nat.sub_diag. simpl. split_and!; [done|done|].
  intros v' Hv'. apply lookup_lt_Some in Hv' as Hi'. rewrite Hout in Hi'.
  rewrite (Hcells (i + 1) Hi') in Hv'. injection Hv' as <-. simpl.
  by rewrite Hempty.
Qed.
(** The comparison of the entry lengths is a strict total order (no NaN
    among them). *)
Hypothesis flt_irrefl : ∀ a, flt a a = false.
Hypothesis flt_trans : ∀ a b c, flt a b = true → flt b c = true → flt a c = true.
Hypothesis flt_total : ∀ a b, flt a b = false → flt b a = false → a = b.

Lemma cell_lt_asym (a b : IntersectsBased.IntersectedCellForSorting float) :
  cell_lt a b = true → cell_lt b a = false.
Proof using flt_irrefl flt_trans.
  unfold IntersectsBased.IntersectedCellForSorting_lt.
  destruct (Nat.eqb_spec (IntersectsBased.ray_id a) (IntersectsBased.ray_id b))
    as [Heq|Hne].
  - rewrite Heq, Nat.eqb_refl. apply (flt_asym flt flt_irrefl flt_trans).
  - destruct (Nat.eqb_spec (IntersectsBased.ray_id b) (IntersectsBased.ray_id a));
      [congruence|].
    intros Hlt. apply Nat.ltb_lt in Hlt. apply Nat.ltb_ge. lia.
Qed.

(** What the callback leaves for ray [i], in terms of the intersections of
    its slice. *)
Lemma callback_ray_facts (boxes : list Box) (queries : list Query) (cs : list nat)
    (in_ : list Z) i q c :
  length queries = length cs → length in_ = sum_list cs →
  queries !! i = Some q → cs !! i = Some c →
  let views := first_loop boxes queries (offsets_of cs) in_ in
  let permutation := sort_indices cell_lt views.2 in
  let v := rank_output views.1 views.2 permutation (offsets_of cs) i in
  ∃ m, m ≡ₚ overlaps boxes (offsets_of cs) in_ i q ∧
    Sorted (fun a b => flt b.2 a.2 = false) m ∧
    (optical_path_length v, intensity_contribution v)
    = foldl step (fzero, fzero) ((fun h => fmul h.1 kappa) <$> m) ∧
    ∀ h, head m = Some h → entrylength (for_sorting v) = h.2.
Proof using flt_irrefl flt_trans.
  intros Hqs Hin Hq Hc views permutation v.
  destruct (evaluate_ray_cell_interaction_spec boxes queries cs in_ Hqs Hin)
    as (Hl1 & Hl2 & Hcells).
  fold views in Hl1, Hl2, Hcells.
  set (od := views.1) in *. set (sa := views.2) in *.
  set (lo := sum_list (take i cs)).
  apply lookup_lt_Some in Hc as Hi.
  pose proof (sum_list_take_S _ _ _ Hc) as HS. fold lo in HS.
  assert (lo + c ≤ sum_list cs) as Hfit.
  { pose proof (sum_list_take_mono cs (S i) (length cs) Hi) as Hm.
    rewrite firstn_all in Hm. lia. }
  assert (owned_by IntersectsBased.ray_id cs sa) as Hown.
  { split; [congruence|]. intros x a Ha.
    apply lookup_lt_Some in Ha as Hx. rewrite Hl2, Hin in Hx.
    destruct (locate_slot _ _ Hx) as (i' & c' & y' & Hc' & Hy' & ->).
    apply lookup_lt_Some in Hc' as Hi'. rewrite <- Hqs in Hi'.
    destruct (lookup_lt_is_Some_2 queries i' Hi') as [q' Hq'].
    destruct (Hcells i' q' c' y' Hq' Hc' Hy') as [_ Hsa].
    rewrite Hsa in Ha. injection Ha as <-. simpl. by exists c', y'. }
  set (sub := take c (drop lo permutation)).
  assert (sub ≡ₚ seq lo c) as Hsub.
  { apply (sort_indices_slice cell_lt cell_lt_asym IntersectsBased.ray_id
             cell_lt_key cs sa i c Hown Hc). }
  assert (Forall (fun p => lo ≤ p < lo + c) sub) as Hrange.
  { rewrite Hsub. apply Forall_seq. intros; lia. }
  assert (∀ p, lo ≤ p < lo + c →
    od !! p = Some (fmul (hit boxes in_ q p).1 kappa) ∧
    sa !! p = Some (IntersectsBased.MkIntersectedCellForSorting
                      (hit boxes in_ q p).2 i)) as Hcell.
  { intros p Hp. replace p with (lo + (p - lo)) by lia.
    apply (Hcells i q c (p - lo)); [done|done|lia]. }
  assert (length permutation = sum_list cs) as HlenP.
  { unfold permutation. rewrite sort_indices_Permutation, length_seq. fold sa.
    congruence. }
  assert ((fun j => permutation !!! j) <$> seq lo c = sub) as Hreads.
  { apply fmap_lookup_total_seq. lia. }
  exists (hit boxes in_ q <$> sub). split_and!.
  - rewrite Hsub. unfold overlaps_of_ray.
    rewrite (slice_offsets_of cs in_ i c Hc). fold lo.
    rewrite <- (fmap_lookup_total_seq in_ lo c) by lia.
    by rewrite <- list_fmap_compose.
  - apply (Sorted_fmap _
      (fun p p' => flt (hit boxes in_ q p').2 (hit boxes in_ q p).2 = false));
      [done|].
    eapply (Sorted_weaken_Forall (fun p => lo ≤ p < lo + c)
              (fun p p' => ∀ a a', sa !! p = Some a → sa !! p' = Some a' →
                 cell_lt a' a = false)); [exact Hrange| |].
    + intros p p' Hp Hp' Hpp.
      destruct (Hcell p Hp) as [_ Hsp]. destruct (Hcell p' Hp') as [_ Hsp'].
      specialize (Hpp _ _ Hsp Hsp').
      unfold IntersectsBased.IntersectedCellForSorting_lt in Hpp. simpl in Hpp.
      by rewrite Nat.eqb_refl in Hpp.
    + apply Sorted_take, Sorted_drop.
      apply (sort_indices_Sorted cell_lt cell_lt_asym).
  - unfold v. simpl. rewrite !lookup_total_offsets_of by lia.
    rewrite Nat.add_1_r, HS. fold lo. replace (lo + c - lo) with c by lia.
    assert ((fun j => read uninit_distance od (permutation !!! j)) <$> seq lo c
            = (fun h : float * float => fmul h.1 kappa)
                <$> (hit boxes in_ q <$> sub)) as ->.
    { rewrite <- Hreads, <- !list_fmap_compose. apply list_fmap_ext_in.
      intros j Hj. simpl.
      assert (permutation !!! j ∈ sub) as Hin'.
      { rewrite <- Hreads. apply list_elem_of_fmap. by exists j. }
      apply (proj1 (Forall_forall _ _) Hrange) in Hin'.
      destruct (Hcell _ Hin') as [Hod _]. by apply read_lookup. }
    by destruct (foldl _ _ _).
  - intros h Hh. unfold v. simpl. rewrite !lookup_total_offsets_of by lia. fold lo.
    destruct sub as [|p0 sub'] eqn:Hsub'; [done|]. simpl in Hh. injection Hh as <-.
    assert (permutation !! lo = Some p0) as Hp0.
    { assert (take c (drop lo permutation) !! 0 = Some p0) as H0.
      { fold sub. by rewrite Hsub'. }
      apply lookup_lt_Some in H0 as Hc0. rewrite length_take in Hc0.
      rewrite lookup_take_lt, lookup_drop, Nat.add_0_r in H0 by lia. done. }
    rewrite (list_lookup_total_correct _ _ _ Hp0).
    apply Forall_cons in Hrange as [Hp0r _].
    destruct (Hcell p0 Hp0r) as [_ Hsa0].
    by rewrite (read_lookup _ _ _ _ Hsa0).
Qed.

(** X6.  With all its reads inside the views, the callback leaves one
    output per ray: the offsets are reset to [0, 1, ..., n], the output view
    has [n] cells, which together form a CSR table whose slice [i] is the
    one output of ray [i], every output carries the ray ID [0], and nothing
    of what the caller's output view held is read. *)
Theorem callback_leaves_one_output_per_ray (boxes : list Box) (rank : nat)
    (queries : list Query) (offset : list nat) (in_ : list Z)
    (out : list (IntersectedRank float)) :
  reads_in_range boxes queries offset in_ →
  let r := callback boxes rank queries offset in_ out in
  let n := length queries in
  r.1 = seq 0 (n + 1) ∧
  length r.2 = n ∧
  is_csr n r.1 r.2 ∧
  (∀ i, i < n → ∃ v, r.2 !! i = Some v ∧ slice r.1 r.2 i = [v]) ∧
  Forall (fun v => ray_id (for_sorting v) = 0) r.2 ∧
  r = callback boxes rank queries offset in_ [].
Proof.
  intros ((Hlen & H0 & _ & _) & _ & _) r n.
  destruct (callback_spec boxes rank queries offset in_ out Hlen H0)
    as (Hoff & Hout & Hcells).
  fold r n in Hoff, Hout, Hcells.
  assert (∀ i, i < n → ∃ v, r.2 !! i = Some v ∧ slice r.1 r.2 i = [v]) as Hslices.
  { intros i Hi. destruct (lookup_lt_is_Some_2 r.2 i) as [v Hv]; [lia|].
    exists v. split; [done|]. unfold slice. rewrite Hoff.
    rewrite !lookup_total_seq_lt by lia. simpl.
    replace (S i - i) with 1 by lia.
    by rewrite (drop_S _ _ _ Hv). }
  split_and!; [done|done| |done| |done].
  - rewrite Hoff. split_and!.
    + by rewrite length_seq.
    + by rewrite lookup_seq_lt by lia.
    + intros i a b Ha Hb. apply lookup_seq in Ha as [-> _].
      apply lookup_seq in Hb as [-> _]. lia.
    + rewrite lookup_seq_lt by lia. by rewrite Hout.
  - apply Forall_lookup_2. intros i v Hv.
    apply lookup_lt_Some in Hv as Hi. rewrite Hout in Hi.
    rewrite (Hcells i Hi) in Hv. by injection Hv as <-.
Qed.

(** X7.  With the iterations of the second loop run in index order, as
    the serial execution space runs them (iteration [i] reads the loop
    bound [offset(i + 1)], which iteration [i + 1] resets: no other
    schedule is covered), with all reads inside the views and a strict
    total order on the entry lengths, the output of ray [i] accumulates the
    boxes of its slice in the order of their entry lengths, whatever their
    order in the table:
    its optical path length and its intensity contribution are the fold of
    the loop step over the optical distances [length * kappa] of the
    intersections of the ray, each of them taken once, in an order in which
    no entry length is smaller than the one before it. *)
Theorem callback_accumulates_in_entry_order (boxes : list Box) (rank : nat)
    (queries : list Query) (offset : list nat) (in_ : list Z)
    (out : list (IntersectedRank float)) (i : nat) (q : Query) :
  reads_in_range boxes queries offset in_ →
  queries !! i = Some q →
  let r := callback boxes rank queries offset in_ out in
  ∃ v m,
    r.2 !! i = Some v ∧
    m ≡ₚ overlaps boxes offset in_ i q ∧
    Sorted (fun a b => flt b.2 a.2 = false) m ∧
    (optical_path_length v, intensity_contribution v)
    = foldl step (fzero, fzero) ((fun h => fmul h.1 kappa) <$> m).
Proof using flt_irrefl flt_trans.
  intros (Hcsr & _ & _) Hq r.
  pose proof Hcsr as (Hlen & H0 & _ & _).
  destruct (callback_spec boxes rank queries offset in_ out Hlen H0)
    as (_ & _ & Hcells).
  apply lookup_lt_Some in Hq as Hi. specialize (Hcells i Hi). fold r in Hcells.
  destruct (is_csr_inv _ _ _ Hcsr) as (cs & Hcs & -> & Hin).
  destruct (lookup_lt_is_Some_2 cs i) as [c Hc]; [lia|].
  destruct (callback_ray_facts boxes queries cs in_ i q c) as (m & Hm & Hsorted & Hfold & _);
    [congruence|done|done|done|].
  eexists _, m. split_and!; [exact Hcells|done|done|done].
Qed.

(** X8.  Under the same conditions, the entry length that the callback
    reports for a ray that meets at least one box of the rank is the entry
    length of one of these boxes, and no box of the ray is entered
    earlier. *)
Theorem callback_entry_length_is_least (boxes : list Box) (rank : nat)
    (queries : list Query) (offset : list nat) (in_ : list Z)
    (out : list (IntersectedRank float)) (i : nat) (q : Query) :
  reads_in_range boxes queries offset in_ →
  queries !! i = Some q →
  overlaps boxes offset in_ i q ≠ [] →
  let r := callback boxes rank queries offset in_ out in
  ∃ v,
    r.2 !! i = Some v ∧
    entrylength (for_sorting v) ∈ (overlaps boxes offset in_ i q).*2 ∧
    Forall (fun h => flt h.2 (entrylength (for_sorting v)) = false)
      (overlaps boxes offset in_ i q).
Proof using flt_irrefl flt_trans flt_total.
  intros (Hcsr & _ & _) Hq Hne r.
  pose proof Hcsr as (Hlen & H0 & _ & _).
  destruct (callback_spec boxes rank queries offset in_ out Hlen H0)
    as (_ & _ & Hcells).
  apply lookup_lt_Some in Hq as Hi. specialize (Hcells i Hi). fold r in Hcells.
  destruct (is_csr_inv _ _ _ Hcsr) as (cs & Hcs & -> & Hin).
  destruct (lookup_lt_is_Some_2 cs i) as [c Hc]; [lia|].
  destruct (callback_ray_facts boxes queries cs in_ i q c) as (m & Hm & Hsorted & _ & Hhead);
    [congruence|done|done|done|].
  eexists. split; [exact Hcells|].
  destruct m as [|h m'].
  { apply Permutation_nil in Hm. done. }
  rewrite (Hhead h eq_refl). rewrite <- Hm. split.
  - apply list_elem_of_fmap. exists h. split; [done|left].
  - assert (Transitive (fun a b : float * float => flt b.2 a.2 = false)) as Htrans.
    { intros a b c' Hab Hbc.
      by eapply (flt_not_after_trans flt flt_irrefl flt_trans flt_total). }
    apply Sorted_StronglySorted in Hsorted; [|done].
    apply StronglySorted_inv in Hsorted as [_ Hall].
    apply Forall_cons. split; [apply flt_irrefl|done].
Qed.

(** X16.  With the iterations of the second loop run in index order, as
    the serial execution space runs them (iteration [i] reads the loop
    bound [offset(i + 1)], which iteration [i + 1] resets: no other
    schedule is covered), the outputs of the callback do not depend on the
    order in which the traversal found the boxes of a ray.  For two tables
    with the same offsets whose slices hold the same boxes in two orders,
    the output of a ray that meets a box, and no two of its boxes at the
    same entry length, is the same for both tables. *)
Theorem callback_ignores_the_order_of_a_slice (boxes : list Box) (rank : nat)
    (queries : list Query) (offset : list nat) (in_ in_' : list Z)
    (out out' : list (IntersectedRank float)) (i : nat) (q : Query) :
  reads_in_range boxes queries offset in_ →
  reads_in_range boxes queries offset in_' →
  (∀ i, slice offset in_ i ≡ₚ slice offset in_' i) →
  queries !! i = Some q →
  overlaps boxes offset in_ i q ≠ [] →
  NoDup (overlaps boxes offset in_ i q).*2 →
  (callback boxes rank queries offset in_ out).2 !! i
  = (callback boxes rank queries offset in_' out').2 !! i.
Proof using flt_irrefl flt_trans flt_total.
  intros (Hcsr & _ & _) (Hcsr' & _ & _) Hslices Hq Hne Hnd.
  pose proof Hcsr as (Hlen & H0 & _ & _).
  destruct (callback_spec boxes rank queries offset in_ out Hlen H0)
    as (_ & _ & Hcells).
  destruct (callback_spec boxes rank queries offset in_' out' Hlen H0)
    as (_ & _ & Hcells').
  apply lookup_lt_Some in Hq as Hi.
  rewrite (Hcells i Hi), (Hcells' i Hi). clear Hcells Hcells'. f_equal.
  assert (overlaps boxes offset in_' i q ≡ₚ overlaps boxes offset in_ i q) as Hsame.
  { unfold overlaps_of_ray. by rewrite (Hslices i). }
  assert (length in_' = length in_) as Hin'.
  { destruct Hcsr as (_ & _ & _ & Hl). destruct Hcsr' as (_ & _ & _ & Hl').
    congruence. }
  destruct (is_csr_inv _ _ _ Hcsr) as (cs & Hcs & -> & Hin).
  rewrite Hin in Hin'.
  destruct (lookup_lt_is_Some_2 cs i) as [c Hc]; [lia|].
  destruct (callback_ray_facts boxes queries cs in_ i q c)
    as (m & Hm & Hsorted & Hfold & Hhead); [congruence|done|done|done|].
  destruct (callback_ray_facts boxes queries cs in_' i q c)
    as (m' & Hm' & Hsorted' & Hfold' & Hhead'); [congruence|done|done|done|].
  assert (Transitive (fun a b : float * float => flt b.2 a.2 = false)) as Htrans.
  { intros a b c' Hab Hbc.
    by eapply (flt_not_after_trans flt flt_irrefl flt_trans flt_total). }
  assert (m = m') as <-.
  { apply (@Sorted_unique_strong _ _ Htrans); [|done|done|by rewrite Hm, Hm', Hsame].
    intros h1 h2 Hh1 Hh2 H12 H21.
    apply (NoDup_fmap_elem_of_inj snd m);
      [by rewrite Hm|done|by rewrite Hm, <- Hsame, <- Hm'|].
    by apply flt_total. }
  destruct m as [|h m0]; [by apply Permutation_nil in Hm|].
  specialize (Hhead h eq_refl). specialize (Hhead' h eq_refl).
  match goal with
  | |- ?v = ?v' =>
      destruct v as [[e1 r1] o1 c1] eqn:Hv; destruct v' as [[e2 r2] o2 c2] eqn:Hv'
  end.
  simpl in *. congruence.
Qed.

(** After the first loop every sorting record sits in the slice of its
    ray. *)
Lemma sort_array_owned (boxes : list Box) (queries : list Query) (cs : list nat)
    (in_ : list Z) :
  length queries = length cs → length in_ = sum_list cs →
  owned_by IntersectsBased.ray_id cs
    (first_loop boxes queries (offsets_of cs) in_).2.
Proof.
  intros Hqs Hin.
  destruct (evaluate_ray_cell_interaction_spec boxes queries cs in_ Hqs Hin)
    as (_ & Hl2 & Hcells).
  split; [congruence|]. intros x a Ha.
  apply lookup_lt_Some in Ha as Hx. rewrite Hl2, Hin in Hx.
  destruct (locate_slot _ _ Hx) as (i' & c' & y' & Hc' & Hy' & ->).
  apply lookup_lt_Some in Hc' as Hi'. rewrite <- Hqs in Hi'.
  destruct (lookup_lt_is_Some_2 queries i' Hi') as [q' Hq'].
  destruct (Hcells i' q' c' y' Hq' Hc' Hy') as [_ Hsa].
  rewrite Hsa in Ha. injection Ha as <-. simpl. by exists c', y'.
Qed.

(** X19.  The sort of the callback never moves an intersection out of the
    slice of its ray.  On a CSR table and under a strict order on the entry
    lengths, the permutation that the callback sorts is a permutation of
    the indices of the intersections, and for every ray [i] and every [j]
    from [offset(i)] to [offset(i + 1)], [permutation(j)] lies between
    [offset(i)] and [offset(i + 1)] as well: the second loop reads, for a
    ray, intersections of that ray only. *)
Theorem callback_permutation_keeps_the_slices (boxes : list Box)
    (queries : list Query) (offset : list nat) (in_ : list Z) :
  is_csr (length queries) offset in_ →
  let sort_array := (first_loop boxes queries offset in_).2 in
  let permutation := sort_indices cell_lt sort_array in
  permutation ≡ₚ seq 0 (length in_) ∧
  ∀ i j, i < length queries →
    offset !!! i ≤ j < offset !!! (i + 1) →
    offset !!! i ≤ permutation !!! j < offset !!! (i + 1) ∧
    ∃ cell, sort_array !! (permutation !!! j) = Some cell ∧
            IntersectsBased.ray_id cell = i.
Proof using flt_irrefl flt_trans.
  intros Hcsr sort_array permutation.
  destruct (is_csr_inv _ _ _ Hcsr) as (cs & Hcs & -> & Hin).
  assert (length queries = length cs) as Hqs by done.
  pose proof (sort_array_owned boxes queries cs in_ Hqs Hin) as Hown.
  fold sort_array in Hown.
  assert (length sort_array = length in_) as Hlen.
  { destruct Hown as [Hl _]. congruence. }
  assert (permutation ≡ₚ seq 0 (length in_)) as HP.
  { unfold permutation. by rewrite sort_indices_Permutation, Hlen. }
  split; [done|]. intros i j Hi Hj.
  destruct (lookup_lt_is_Some_2 cs i) as [c Hc]; [lia|].
  pose proof (sum_list_take_S _ _ _ Hc) as HS.
  rewrite !lookup_total_offsets_of in Hj by lia.
  rewrite !lookup_total_offsets_of by lia.
  rewrite Nat.add_1_r, HS in *.
  set (lo := sum_list (take i cs)) in *.
  pose proof (sort_indices_slice cell_lt cell_lt_asym IntersectsBased.ray_id
                cell_lt_key cs sort_array i c Hown Hc) as Hsub.
  fold permutation lo in Hsub.
  assert (lo + c ≤ sum_list cs) as Hfit.
  { assert (i < length cs) as Hi' by lia.
    pose proof (sum_list_take_mono cs (S i) (length cs) Hi') as Hm.
    rewrite firstn_all in Hm. lia. }
  assert (length permutation = sum_list cs) as HlenP.
  { by rewrite HP, length_seq. }
  assert (permutation !!! j ∈ take c (drop lo permutation)) as Hin'.
  { apply list_elem_of_lookup. exists (j - lo).
    rewrite lookup_take_lt, lookup_drop by lia.
    replace (lo + (j - lo)) with j by lia.
    apply list_lookup_lookup_total_lt. lia. }
  rewrite Hsub in Hin'. apply elem_of_seq in Hin'. split; [lia|].
  destruct (lookup_lt_is_Some_2 sort_array (permutation !!! j)) as [cell Hcell];
    [lia|].
  exists cell. split; [done|].
  apply (owned_by_slot IntersectsBased.ray_id cs sort_array i c
           (permutation !!! j - lo) cell Hown Hc); [lia|].
  by replace (lo + (permutation !!! j - lo)) with (permutation !!! j) by lia.
Qed.
End CallbackCorrect.

(** ** [operator<] of the sorting records, and the host branch of the sort *)

Section LexicographicLt.
Context {float A : Type}.
Variable flt : float → float → bool.
Variable key : A → nat.
Variable ent : A → float.
Variable lt : A → A → bool.
Hypothesis lt_def :
  ∀ l r, lt l r = if key l =? key r then flt (ent l) (ent r) else key l <? key r.
Hypothesis record_ext : ∀ l r, key l = key r → ent l = ent r → l = r.
Hypothesis flt_irrefl : ∀ a, flt a a = false.
Hypothesis flt_trans : ∀ a b c, flt a b = true → flt b c = true → flt a c = true.
Hypothesis flt_total : ∀ a b, flt a b = false → flt b a = false → a = b.

Lemma lex_lt_iff l r :
  lt l r = true ↔ key l < key r ∨ (key l = key r ∧ flt (ent l) (ent r) = true).
Proof using lt_def.
  rewrite lt_def. destruct (Nat.eqb_spec (key l) (key r)) as [Heq|Hne].
  - split; [intros; right; done|]. intros [Hlt|[_ H]]; [lia|done].
  - rewrite Nat.ltb_lt. split; [by left|]. intros [Hlt|[Heq _]]; [done|lia].
Qed.

Lemma lex_lt_irrefl x : lt x x = false.
Proof using lt_def flt_irrefl. rewrite lt_def, Nat.eqb_refl. apply flt_irrefl. Qed.

Lemma lex_lt_trans x y z : lt x y = true → lt y z = true → lt x z = true.
Proof using lt_def flt_trans.
  rewrite !lex_lt_iff. intros [Hxy|[Hxy Hf]] [Hyz|[Hyz Hg]].
  - left. lia.
  - left. lia.
  - left. lia.
  - right. split; [lia|]. by eapply flt_trans.
Qed.

Lemma lex_lt_total x y : lt x y = false → lt y x = false → x = y.
Proof using lt_def record_ext flt_total.
  rewrite !lt_def. destruct (Nat.eqb_spec (key x) (key y)) as [Heq|Hne].
  - rewrite Heq, Nat.eqb_refl. intros Hxy Hyx. apply record_ext; [done|].
    by apply flt_total.
  - destruct (Nat.eqb_spec (key y) (key x)); [congruence|].
    rewrite !Nat.ltb_ge. lia.
Qed.
End LexicographicLt.

Lemma IntersectedRankForSorting_ext {float} (l r : IntersectedRankForSorting float) :
  ray_id l = ray_id r → entrylength l = entrylength r → l = r.
Proof. destruct l, r. simpl. by intros -> ->. Qed.

Lemma IntersectedCellForSorting_ext {float}
    (l r : IntersectsBased.IntersectedCellForSorting float) :
  IntersectsBased.ray_id l = IntersectsBased.ray_id r →
  IntersectsBased.entrylength l = IntersectsBased.entrylength r → l = r.
Proof. destruct l, r. simpl. by intros -> ->. Qed.

(** X5.  [operator<] of [IntersectedRankForSorting] and of
    [IntersectedCellForSorting] compares the ray IDs first and the entry
    lengths of equal rays next; as soon as [<] on the entry lengths is a
    strict total order (no NaN), so are they: irreflexive, transitive, and
    two records of which neither is smaller are the same record. *)
Theorem operator_lt_is_a_strict_total_order {float} (flt : float → float → bool) :
  (∀ a, flt a a = false) →
  (∀ a b c, flt a b = true → flt b c = true → flt a c = true) →
  (∀ a b, flt a b = false → flt b a = false → a = b) →
  let rank_lt := IntersectedRankForSorting_lt flt in
  let cell_lt := IntersectsBased.IntersectedCellForSorting_lt flt in
  ((∀ l r, rank_lt l r = true ↔
      ray_id l < ray_id r ∨
      (ray_id l = ray_id r ∧ flt (entrylength l) (entrylength r) = true)) ∧
   (∀ x, rank_lt x x = false) ∧
   (∀ x y z, rank_lt x y = true → rank_lt y z = true → rank_lt x z = true) ∧
   (∀ x y, rank_lt x y = false → rank_lt y x = false → x = y)) ∧
  ((∀ l r, cell_lt l r = true ↔
      IntersectsBased.ray_id l < IntersectsBased.ray_id r ∨
      (IntersectsBased.ray_id l = IntersectsBased.ray_id r ∧
       flt (IntersectsBased.entrylength l) (IntersectsBased.entrylength r) = true)) ∧
   (∀ x, cell_lt x x = false) ∧
   (∀ x y z, cell_lt x y = true → cell_lt y z = true → cell_lt x z = true) ∧
   (∀ x y, cell_lt x y = false → cell_lt y x = false → x = y)).
Proof.
  intros Hirrefl Htrans Htotal rank_lt cell_lt. split; split_and!.
  - apply (lex_lt_iff flt ray_id entrylength). done.
  - apply (lex_lt_irrefl flt ray_id entrylength); done.
  - apply (lex_lt_trans flt ray_id entrylength); done.
  - apply (lex_lt_total flt ray_id entrylength);
      [done|apply IntersectedRankForSorting_ext|done].
  - apply (lex_lt_iff flt IntersectsBased.ray_id IntersectsBased.entrylength). done.
  - apply (lex_lt_irrefl flt IntersectsBased.ray_id IntersectsBased.entrylength); done.
  - apply (lex_lt_trans flt IntersectsBased.ray_id IntersectsBased.entrylength); done.
  - apply (lex_lt_total flt IntersectsBased.ray_id IntersectsBased.entrylength);
      [done|apply IntersectedCellForSorting_ext|done].
Qed.

Section HostSort.
Context {A : Type}.
Variable lt : A → A → bool.
Hypothesis lt_irrefl : ∀ a, lt a a = false.
Hypothesis lt_trans : ∀ a b c, lt a b = true → lt b c = true → lt a c = true.
Hypothesis lt_total : ∀ a b, lt a b = false → lt b a = false → a = b.

Lemma sort_indices_StronglySorted (sa : list A) :
  StronglySorted (fun x x' => lt x' x = false)
    (omap (fun p => sa !! p) (sort_indices lt sa)).
Proof using lt_irrefl lt_trans lt_total.
  apply Sorted_StronglySorted.
  - intros a b c Hab Hbc.
    by eapply (flt_not_after_trans lt lt_irrefl lt_trans lt_total).
  - apply (applyPermutation_sort_indices_Sorted lt).
    apply (flt_asym lt lt_irrefl lt_trans).
Qed.
End HostSort.

(** X9.  The host branch of the sort ([std::iota], then [std::sort] of the
    indices by [operator<] of the records they point to), in [main] and in
    the per-rank callback, under a strict total order on the entry lengths:
    the permutation holds every index of the sort array once, and the
    records read through it are all the records, none of them smaller than
    any record read before it. *)
Theorem host_sort_is_a_sorted_permutation {float} (flt : float → float → bool)
    (sort_array : list (IntersectedRankForSorting float))
    (cells : list (IntersectsBased.IntersectedCellForSorting float)) :
  (∀ a, flt a a = false) →
  (∀ a b c, flt a b = true → flt b c = true → flt a c = true) →
  (∀ a b, flt a b = false → flt b a = false → a = b) →
  let permutation := sort_permutation flt sort_array in
  let cell_permutation :=
    sort_indices (IntersectsBased.IntersectedCellForSorting_lt flt) cells in
  (permutation ≡ₚ seq 0 (length sort_array) ∧
   omap (fun p => sort_array !! p) permutation ≡ₚ sort_array ∧
   StronglySorted (fun x x' => IntersectedRankForSorting_lt flt x' x = false)
     (omap (fun p => sort_array !! p) permutation)) ∧
  (cell_permutation ≡ₚ seq 0 (length cells) ∧
   omap (fun p => cells !! p) cell_permutation ≡ₚ cells ∧
   StronglySorted
     (fun x x' => IntersectsBased.IntersectedCellForSorting_lt flt x' x = false)
     (omap (fun p => cells !! p) cell_permutation)).
Proof.
  intros Hirrefl Htrans Htotal permutation cell_permutation.
  change permutation
    with (sort_indices (IntersectedRankForSorting_lt flt) sort_array).
  clear permutation. split; split_and!.
  - apply sort_indices_Permutation.
  - apply (applyPermutation_Permutation _ sort_array), sort_indices_Permutation.
  - apply sort_indices_StronglySorted.
    + apply (lex_lt_irrefl flt ray_id entrylength); done.
    + apply (lex_lt_trans flt ray_id entrylength); done.
    + apply (lex_lt_total flt ray_id entrylength);
        [done|apply IntersectedRankForSorting_ext|done].
  - apply sort_indices_Permutation.
  - apply (applyPermutation_Permutation _ cells), sort_indices_Permutation.
  - apply sort_indices_StronglySorted.
    + apply (lex_lt_irrefl flt IntersectsBased.ray_id IntersectsBased.entrylength);
        done.
    + apply (lex_lt_trans flt IntersectsBased.ray_id IntersectsBased.entrylength);
        done.
    + apply (lex_lt_total flt IntersectsBased.ray_id IntersectsBased.entrylength);
        [done|apply IntersectedCellForSorting_ext|done].
Qed.

(** ** The grid, the rays and the deposit of [main] *)

(** A loop whose iteration [k] stores one value at the cell [f k] of a
    view: when no two iterations store at the same cell, every cell [f k]
    ends with what iteration [k] stored, and the other cells are left as
    they were. *)
Lemma foldl_writes {K St A} `{EqDecision K} (proj : St → list A) (f : K → nat)
    (Φ : K → A → Prop) (body : St → K → St) (ks : list K) (s : St) :
  (∀ s k, k ∈ ks → ∃ v, Φ k v ∧ proj (body s k) = <[f k := v]> (proj s)) →
  (∀ k k', k ∈ ks → k' ∈ ks → f k = f k' → k = k') →
  length (proj (foldl body s ks)) = length (proj s) ∧
  (∀ k, k ∈ ks → f k < length (proj s) →
     ∃ v, Φ k v ∧ proj (foldl body s ks) !! f k = Some v) ∧
  (∀ x, (∀ k, k ∈ ks → f k ≠ x) → proj (foldl body s ks) !! x = proj s !! x).
Proof.
  revert s. induction ks as [|k0 ks IH]; intros s Hbody Hinj; simpl.
  - split_and!; [done| |done]. intros k Hk. by apply elem_of_nil in Hk.
  - destruct (Hbody s k0) as (v & Hv & Hs); [left|].
    destruct (IH (body s k0)) as (Hlen & Hhit & Hmiss).
    { intros s' k Hk. apply Hbody. by right. }
    { intros k k' Hk Hk'. apply Hinj; by right. }
    rewrite Hs, length_insert in Hlen. split_and!.
    + done.
    + intros k Hk Hfk. destruct (decide (k ∈ ks)) as [Hin|Hnin].
      * apply Hhit; [done|]. by rewrite Hs, length_insert.
      * apply elem_of_cons in Hk as [->|Hk]; [|done].
        exists v. split; [done|]. rewrite Hmiss.
        -- rewrite Hs. by apply list_lookup_insert_eq.
        -- intros k Hk Heq. apply Hnin.
           assert (k = k0) as -> by (apply Hinj; [by right|left|done]). done.
    + intros x Hx. rewrite Hmiss.
      * rewrite Hs. apply list_lookup_insert_ne. apply Hx. left.
      * intros k Hk. apply Hx. by right.
Qed.

Lemma for_loop_0 {St} (body : nat → St → St) n s :
  for_loop 0 n body s = foldl (fun s j => body j s) s (seq 0 n).
Proof. unfold for_loop. by rewrite Nat.sub_0_r. Qed.

Lemma MDRange2_foldl {St} (n0 n1 : nat) (body : nat → nat → St → St) (s : St) :
  MDRange2 n0 n1 body s
  = foldl (fun s (t : nat * nat) => body t.1 t.2 s) s
      (i ← seq 0 n0; j ← seq 0 n1; [(i, j)]).
Proof.
  unfold MDRange2.
  rewrite (for_loop_ext _ (fun i s => foldl (fun s j => body i j s) s (seq 0 n1)))
    by (intros; apply for_loop_0).
  rewrite for_loop_0. generalize (seq 0 n0) as l0. generalize (seq 0 n1) as l1.
  intros l1 l0. revert s. induction l0 as [|i l0 IH]; intros s; csimpl; [done|].
  rewrite foldl_app, <- IH. f_equal.
  clear IH. revert s. induction l1 as [|j l1 IH]; intros s; csimpl; [done|].
  by rewrite IH.
Qed.

Lemma MDRange3_foldl {St} (nx ny nz : nat) (body : nat → nat → nat → St → St)
    (s : St) :
  MDRange3 nx ny nz body s
  = foldl (fun s (t : nat * nat * nat) => body t.1.1 t.1.2 t.2 s) s
      (i ← seq 0 nx; j ← seq 0 ny; k ← seq 0 nz; [(i, j, k)]).
Proof.
  unfold MDRange3.
  rewrite (for_loop_ext _
    (fun i s =>
       foldl (fun s j => foldl (fun s k => body i j k s) s (seq 0 nz)) s (seq 0 ny))).
  2:{ intros i s' _.
      rewrite (for_loop_ext _ (fun j s => foldl (fun s k => body i j k s) s (seq 0 nz)))
        by (intros; apply for_loop_0).
      apply for_loop_0. }
  rewrite for_loop_0.
  generalize (seq 0 nx) as l0. generalize (seq 0 ny) as l1. generalize (seq 0 nz) as l2.
  intros l2 l1 l0. revert s. induction l0 as [|i l0 IH0]; intros s; csimpl; [done|].
  rewrite foldl_app, <- IH0. f_equal.
  clear IH0. revert s. induction l1 as [|j l1 IH1]; intros s; csimpl; [done|].
  rewrite foldl_app, <- IH1. f_equal.
  clear IH1. revert s. induction l2 as [|k l2 IH2]; intros s; csimpl; [done|].
  by rewrite IH2.
Qed.

(** [box_id = i + nx * j + nx * ny * k] is read back by division. *)
Lemma box_id_decode (nx ny i j k : nat) :
  i < nx → j < ny →
  (i + nx * j + nx * ny * k) mod nx = i ∧
  ((i + nx * j + nx * ny * k) / nx) mod ny = j ∧
  (i + nx * j + nx * ny * k) / (nx * ny) = k.
Proof.
  intros Hi Hj.
  assert ((i + nx * j + nx * ny * k) / nx = j + ny * k) as Hdiv.
  { symmetry. apply (Nat.div_unique _ _ _ i); [done|]. nia. }
  split_and!.
  - symmetry. apply (Nat.mod_unique _ _ (j + ny * k)); [done|]. nia.
  - rewrite Hdiv. symmetry. apply (Nat.mod_unique _ _ k); [done|]. nia.
  - symmetry. apply (Nat.div_unique _ _ _ (i + nx * j)); nia.
Qed.

Lemma box_id_lt (nx ny nz i j k : nat) :
  i < nx → j < ny → k < nz → i + nx * j + nx * ny * k < nx * ny * nz.
Proof.
  intros Hi Hj Hk.
  assert (nx * (j + 1) ≤ nx * ny) by (apply Nat.mul_le_mono_l; lia).
  assert (nx * ny * (k + 1) ≤ nx * ny * nz) by (apply Nat.mul_le_mono_l; lia).
  lia.
Qed.

Lemma box_id_encode (nx ny nz box_id : nat) :
  box_id < nx * ny * nz →
  box_id mod nx < nx ∧ (box_id / nx) mod ny < ny ∧ box_id / (nx * ny) < nz ∧
  box_id
  = box_id mod nx + nx * ((box_id / nx) mod ny) + nx * ny * (box_id / (nx * ny)).
Proof.
  intros Hid.
  assert (nx ≠ 0) as Hnx by nia. assert (ny ≠ 0) as Hny by nia.
  pose proof (Nat.mod_upper_bound box_id nx Hnx).
  pose proof (Nat.mod_upper_bound (box_id / nx) ny Hny).
  pose proof (Nat.div_mod_eq box_id nx) as H1.
  pose proof (Nat.div_mod_eq (box_id / nx) ny) as H2.
  rewrite Nat.Div0.div_div in H2.
  assert (box_id / (nx * ny) < nz) as Hk.
  { apply Nat.Div0.div_lt_upper_bound. nia. }
  split_and!; [done|done|done|]. nia.
Qed.

Lemma slot_decode (n i j : nat) : j < n → (j + i * n) / n = i ∧ (j + i * n) mod n = j.
Proof.
  intros Hj. split.
  - symmetry. apply (Nat.div_unique _ _ _ j); [done|]. nia.
  - symmetry. apply (Nat.mod_unique _ _ i); [done|]. nia.
Qed.

Section MainCorrect.
Context {float G : Type}.
Variable fzero : float.
Variable fadd fsub fmul fdiv : float → float → float.
Variable fneg fexp fcos fsin facos : float → float.
Variable of_int : nat → float.
Variable kappa pi two_pi : float.
Variable draw : G → float → float * G.
Variable draw_unit : G → float * G.
Variable uninit_box : ArborX.Box float.
Variable uninit_ray : ArborX.Ray float.

Local Abbreviation box_of := (grid_box fmul of_int).
Local Abbreviation shoot :=
  (initialize_ray fadd fsub fmul fcos fsin facos of_int two_pi draw draw_unit).
Local Abbreviation setup :=
  (problem_setup fadd fsub fmul fdiv fcos fsin facos of_int two_pi draw draw_unit
     uninit_box uninit_ray).

Lemma initialize_boxes_spec (nx ny nz : nat) (dx dy dz : float)
    (boxes0 : list (ArborX.Box float)) :
  length boxes0 = nx * ny * nz →
  let boxes := initialize_boxes fmul of_int nx ny nz dx dy dz boxes0 in
  length boxes = nx * ny * nz ∧
  ∀ i j k, i < nx → j < ny → k < nz →
    boxes !! (i + nx * j + nx * ny * k) = Some (box_of dx dy dz i j k).
Proof.
  intros Hlen boxes. unfold boxes, initialize_boxes. rewrite MDRange3_foldl.
  set (ks := i ← seq 0 nx; j ← seq 0 ny; k ← seq 0 nz; [(i, j, k)]).
  assert (∀ t : nat * nat * nat, t ∈ ks ↔ t.1.1 < nx ∧ t.1.2 < ny ∧ t.2 < nz) as Hks.
  { intros [[i j] k]. unfold ks. rewrite list_elem_of_bind. simpl. split.
    - intros (i' & Hin & Hi'). apply list_elem_of_bind in Hin as (j' & Hin & Hj').
      apply list_elem_of_bind in Hin as (k' & Hin & Hk').
      apply list_elem_of_singleton in Hin as [= -> -> ->].
      apply elem_of_seq in Hi', Hj', Hk'. lia.
    - intros (Hi & Hj & Hk). exists i. split; [|apply elem_of_seq; lia].
      apply list_elem_of_bind. exists j. split; [|apply elem_of_seq; lia].
      apply list_elem_of_bind. exists k. split; [|apply elem_of_seq; lia].
      by apply list_elem_of_singleton. }
  destruct (foldl_writes (fun s : list (ArborX.Box float) => s)
    (fun t : nat * nat * nat => t.1.1 + nx * t.1.2 + nx * ny * t.2)
    (fun t v => v = box_of dx dy dz t.1.1 t.1.2 t.2)
    (fun s (t : nat * nat * nat) =>
       <[t.1.1 + nx * t.1.2 + nx * ny * t.2 := box_of dx dy dz t.1.1 t.1.2 t.2]> s)
    ks boxes0) as (Hl & Hhit & _).
  { intros s t _. by eexists. }
  { intros [[i j] k] [[i' j'] k'] Ht Ht' Heq. simpl in Heq.
    apply Hks in Ht as (Hi & Hj & Hk). apply Hks in Ht' as (Hi' & Hj' & Hk').
    simpl in *.
    destruct (box_id_decode nx ny i j k Hi Hj) as (H1 & H2 & H3).
    destruct (box_id_decode nx ny i' j' k' Hi' Hj') as (H1' & H2' & H3').
    rewrite Heq in H1, H2, H3. congruence. }
  split; [congruence|]. intros i j k Hi Hj Hk.
  destruct (Hhit (i, j, k)) as (v & -> & Hv).
  - apply Hks. simpl. lia.
  - simpl. rewrite Hlen. by apply box_id_lt.
  - done.
Qed.

(** X10.  "Example::initialize_boxes" writes every cell of the view of
    boxes, allocated without initialisation, exactly once: the cell
    [(i, j, k)] of the grid is stored at [i + nx * j + nx * ny * k], two
    cells of the grid never share an index, and the box at any index below
    [nx * ny * nz] is the grid cell that the index decodes to. *)
Theorem initialize_boxes_fills_the_grid (nx ny nz : nat) (dx dy dz : float) :
  let boxes :=
    initialize_boxes fmul of_int nx ny nz dx dy dz
      (replicate (nx * ny * nz) uninit_box) in
  length boxes = nx * ny * nz ∧
  (∀ i j k, i < nx → j < ny → k < nz →
     i + nx * j + nx * ny * k < nx * ny * nz ∧
     boxes !! (i + nx * j + nx * ny * k) = Some (box_of dx dy dz i j k)) ∧
  (∀ i j k i' j' k', i < nx → j < ny → i' < nx → j' < ny →
     i + nx * j + nx * ny * k = i' + nx * j' + nx * ny * k' →
     i = i' ∧ j = j' ∧ k = k') ∧
  (∀ box_id, box_id < nx * ny * nz →
     boxes !! box_id
     = Some (box_of dx dy dz (box_id mod nx) ((box_id / nx) mod ny)
               (box_id / (nx * ny)))).
Proof.
  intros boxes.
  destruct (initialize_boxes_spec nx ny nz dx dy dz (replicate (nx * ny * nz) uninit_box))
    as [Hlen Hcell]; [by rewrite length_replicate|].
  fold boxes in Hlen, Hcell. split_and!.
  - done.
  - intros i j k Hi Hj Hk. split; [by apply box_id_lt|]. by apply Hcell.
  - intros i j k i' j' k' Hi Hj Hi' Hj' Heq.
    destruct (box_id_decode nx ny i j k Hi Hj) as (H1 & H2 & H3).
    destruct (box_id_decode nx ny i' j' k' Hi' Hj') as (H1' & H2' & H3').
    rewrite Heq in H1, H2, H3. split_and!; congruence.
  - intros box_id Hid.
    destruct (box_id_encode nx ny nz box_id Hid) as (Hi & Hj & Hk & Heq).
    rewrite Heq at 1. by apply Hcell.
Qed.

(** X20.  The grid has no gap.  After "Example::initialize_boxes" the upper
    face of a box along an axis and the lower face of its neighbour along
    that axis carry the same coordinate ([(i + 1) * dx] in both boxes), and
    the boxes on the lower border of the grid start at [0 * dx], [0 * dy]
    and [0 * dz]. *)
Theorem neighbouring_boxes_share_their_faces (nx ny nz : nat) (dx dy dz : float)
    (i j k : nat) :
  let boxes :=
    initialize_boxes fmul of_int nx ny nz dx dy dz
      (replicate (nx * ny * nz) uninit_box) in
  let box_at i j k := boxes !! (i + nx * j + nx * ny * k) in
  (i + 1 < nx → j < ny → k < nz →
   ArborX.c0 ∘ ArborX.maxCorner <$> box_at i j k
   = ArborX.c0 ∘ ArborX.minCorner <$> box_at (i + 1) j k ∧
   is_Some (box_at i j k)) ∧
  (i < nx → j + 1 < ny → k < nz →
   ArborX.c1 ∘ ArborX.maxCorner <$> box_at i j k
   = ArborX.c1 ∘ ArborX.minCorner <$> box_at i (j + 1) k ∧
   is_Some (box_at i j k)) ∧
  (i < nx → j < ny → k + 1 < nz →
   ArborX.c2 ∘ ArborX.maxCorner <$> box_at i j k
   = ArborX.c2 ∘ ArborX.minCorner <$> box_at i j (k + 1) ∧
   is_Some (box_at i j k)) ∧
  (i < nx → j < ny → k < nz →
   ArborX.minCorner <$> box_at 0 j k
   = Some (ArborX.MkPoint (fmul (of_int 0) dx) (fmul (of_int j) dy)
             (fmul (of_int k) dz))).
Proof.
  intros boxes box_at.
  destruct (initialize_boxes_spec nx ny nz dx dy dz (replicate (nx * ny * nz) uninit_box))
    as [_ Hcell]; [by rewrite length_replicate|].
  fold boxes in Hcell. unfold box_at. split_and!.
  - intros Hi Hj Hk. rewrite !Hcell by lia. done.
  - intros Hi Hj Hk. rewrite !Hcell by lia. done.
  - intros Hi Hj Hk. rewrite !Hcell by lia. done.
  - intros Hi Hj Hk. rewrite Hcell by lia. done.
Qed.

Lemma initialize_rays_spec (boxes : list (ArborX.Box float))
    (num_boxes rays_per_box : nat) (dx dy dz : float)
    (rays0 : list (ArborX.Ray float)) (rand_pool : G) :
  let rays :=
    (initialize_rays fadd fsub fmul fcos fsin facos of_int two_pi draw draw_unit
       uninit_box boxes num_boxes rays_per_box dx dy dz rays0 rand_pool).1 in
  length rays = length rays0 ∧
  ∀ i j, i < num_boxes → j < rays_per_box → j + i * rays_per_box < length rays0 →
    ∃ g, rays !! (j + i * rays_per_box)
         = Some (shoot (read uninit_box boxes i) dx dy dz g).1.
Proof.
  intros rays. unfold rays, initialize_rays. rewrite MDRange2_foldl.
  set (ks := i ← seq 0 num_boxes; j ← seq 0 rays_per_box; [(i, j)]).
  assert (∀ t : nat * nat, t ∈ ks ↔ t.1 < num_boxes ∧ t.2 < rays_per_box) as Hks.
  { intros [i j]. unfold ks. rewrite list_elem_of_bind. simpl. split.
    - intros (i' & Hin & Hi'). apply list_elem_of_bind in Hin as (j' & Hin & Hj').
      apply list_elem_of_singleton in Hin as [= -> ->].
      apply elem_of_seq in Hi', Hj'. lia.
    - intros (Hi & Hj). exists i. split; [|apply elem_of_seq; lia].
      apply list_elem_of_bind. exists j. split; [|apply elem_of_seq; lia].
      by apply list_elem_of_singleton. }
  destruct (foldl_writes (fun s : list (ArborX.Ray float) * G => s.1)
    (fun t : nat * nat => t.2 + t.1 * rays_per_box)
    (fun t v => ∃ g, v = (shoot (read uninit_box boxes t.1) dx dy dz g).1)
    (fun (s : list (ArborX.Ray float) * G) (t : nat * nat) =>
       let '(rays, g) := s in
       let '(ray, g) := shoot (read uninit_box boxes t.1) dx dy dz g in
       (<[t.2 + t.1 * rays_per_box := ray]> rays, g))
    ks (rays0, rand_pool)) as (Hl & Hhit & _).
  { intros [rs g] t _.
    destruct (shoot (read uninit_box boxes t.1) dx dy dz g) as [ray g'] eqn:Hray.
    exists ray. split; [|done]. exists g. by rewrite Hray. }
  { intros [i j] [i' j'] Ht Ht' Heq. simpl in Heq.
    apply Hks in Ht as (Hi & Hj). apply Hks in Ht' as (Hi' & Hj'). simpl in *.
    destruct (slot_decode rays_per_box i j Hj) as [H1 H2].
    destruct (slot_decode rays_per_box i' j' Hj') as [H1' H2'].
    rewrite Heq in H1, H2. congruence. }
  split; [done|]. intros i j Hi Hj Hfit.
  destruct (Hhit (i, j)) as (v & [g ->] & Hv).
  - apply Hks. simpl. lia.
  - done.
  - by exists g.
Qed.

(** X11.  Where the energy of a ray goes.  In the set-up of [main], the ray
    [l] of the part of a rank is a ray that "Example::initialize_rays" shot
    from the box with the global index [bid = l / rays_per_box + startbox],
    the index at which the rank deposits the energy of the ray: that box is
    box [l / rays_per_box] of the part of the rank, and [bid] lies among the
    indices of the rank. *)
Theorem rays_of_a_rank_leave_from_its_boxes (nx ny nz rays_per_box : nat)
    (lx ly lz : float) (rand_pool : G) (nranks rank l : nat) :
  let boxes := (setup nx ny nz rays_per_box lx ly lz rand_pool).1 in
  let rays := (setup nx ny nz rays_per_box lx ly lz rand_pool).2 in
  let dx := fdiv lx (of_int nx) in
  let dy := fdiv ly (of_int ny) in
  let dz := fdiv lz (of_int nz) in
  let part := partition_for_rank boxes rays rays_per_box nranks rank in
  let bid := global_box_id (num_boxes_per_rank part) rank rays_per_box l in
  rank < nranks →
  l < length (rays_for_rank part) →
  length (rays_for_rank part) = num_boxes_per_rank part * rays_per_box ∧
  num_boxes_per_rank part * rank ≤ bid < num_boxes_per_rank part * (rank + 1) ∧
  ∃ b g,
    boxes !! bid = Some b ∧
    boxes_for_rank part !! (l / rays_per_box) = Some b ∧
    rays_for_rank part !! l = Some (shoot b dx dy dz g).1.
Proof.
  intros boxes rays dx dy dz part bid Hrank Hl.
  set (N := nx * ny * nz).
  destruct (initialize_boxes_spec nx ny nz dx dy dz (replicate N uninit_box))
    as [HlenB _]; [by rewrite length_replicate|].
  change (initialize_boxes _ _ _ _ _ _ _ _ _) with boxes in HlenB.
  destruct (initialize_rays_spec boxes N rays_per_box dx dy dz
              (replicate (rays_per_box * N) uninit_ray) rand_pool) as [HlenR Hray].
  change (initialize_rays _ _ _ _ _ _ _ _ _ _ _ _ _ _ _ _ _ _ _).1 with rays
    in HlenR, Hray.
  rewrite length_replicate in HlenR, Hray.
  set (per := N / nranks).
  assert (num_boxes_per_rank part = per) as Hper.
  { unfold part, partition_for_rank. simpl. by rewrite HlenB. }
  assert (nranks * per ≤ N) as Hdiv by apply Nat.Div0.mul_div_le.
  assert (per * (rank + 1) ≤ N) as Hfit.
  { assert (per * (rank + 1) ≤ per * nranks) by (apply Nat.mul_le_mono_l; lia). lia. }
  assert (rays_for_rank part
          = take (per * rays_per_box)
              (drop (per * rays_per_box * rank) rays)) as HR.
  { unfold part, partition_for_rank, subview. simpl. rewrite HlenB. fold N per.
    f_equal. lia. }
  assert (boxes_for_rank part = take per (drop (per * rank) boxes)) as HB.
  { unfold part, partition_for_rank, subview. simpl. rewrite HlenB. fold N per.
    f_equal. lia. }
  assert (per * rays_per_box * (rank + 1) ≤ rays_per_box * N) as HfitR.
  { replace (per * rays_per_box * (rank + 1))
      with (rays_per_box * (per * (rank + 1))) by lia.
    by apply Nat.mul_le_mono_l. }
  assert (length (rays_for_rank part) = per * rays_per_box) as HlenP.
  { rewrite HR, length_take, length_drop, HlenR. lia. }
  rewrite HlenP in Hl. rewrite Hper.
  assert (rays_per_box ≠ 0) as Hrpb by (intros ->; lia).
  set (q := l / rays_per_box).
  assert (q < per) as Hq.
  { apply Nat.Div0.div_lt_upper_bound. lia. }
  pose proof (Nat.div_mod_eq l rays_per_box) as Hlq. fold q in Hlq.
  pose proof (Nat.mod_upper_bound l rays_per_box Hrpb) as Hj.
  assert (bid = q + per * rank) as Hbid.
  { unfold bid, global_box_id. by rewrite Hper. }
  split; [done|]. split; [lia|].
  destruct (lookup_lt_is_Some_2 boxes bid) as [b Hb]; [lia|].
  destruct (Hray bid (l mod rays_per_box)) as [g Hg]; [lia|done| |].
  { assert (rays_per_box * (bid + 1) ≤ rays_per_box * N)
      by (apply Nat.mul_le_mono_l; lia). lia. }
  exists b, g. split_and!.
  - done.
  - rewrite HB, lookup_take_lt, lookup_drop by done.
    by replace (per * rank + q) with bid by lia.
  - rewrite HR, lookup_take_lt, lookup_drop by done.
    replace (per * rays_per_box * rank + l) with (l mod rays_per_box + bid * rays_per_box)
      by lia.
    rewrite Hg. by rewrite (read_lookup _ _ _ _ Hb).
Qed.

(** A loop of atomic updates: the cell [b] ends with the updates of the
    iterations that address it, applied in index order. *)
Lemma parallel_for_from_alter {Q A} (g : nat → A → A) (f : nat → nat) (qs : list Q)
    (i0 : nat) (e : list A) (b : nat) :
  parallel_for_from i0 qs (fun i _ e => alter (g i) (f i) e) e !! b
  = (fun x => foldl (fun x i => g i x) x
                (filter (fun i => f i = b) (seq i0 (length qs)))) <$> e !! b.
Proof.
  revert i0 e. induction qs as [|q qs IH]; intros i0 e; simpl.
  - by destruct (e !! b).
  - rewrite IH. destruct (decide (f i0 = b)) as [Heq|Hne].
    + rewrite filter_cons_True by done. rewrite <- Heq at 1.
      rewrite list_lookup_alter_eq. rewrite Heq. by destruct (e !! b).
    + rewrite filter_cons_False by done. by rewrite list_lookup_alter_ne.
Qed.

Lemma parallel_for_from_alter_length {Q A} (g : nat → A → A) (f : nat → nat)
    (qs : list Q) (i0 : nat) (e : list A) :
  length (parallel_for_from i0 qs (fun i _ e => alter (g i) (f i) e) e) = length e.
Proof.
  revert i0 e. induction qs as [|q qs IH]; intros i0 e; simpl; [done|].
  by rewrite IH, length_alter.
Qed.

(** The indices below [n * m] whose quotient by [m] is [q]. *)
Lemma filter_seq_quotient (m n q d : nat) :
  q < n →
  filter (fun i => i / m + d = d + q) (seq 0 (n * m)) = seq (q * m) m.
Proof.
  intros Hq. destruct (decide (m = 0)) as [->|Hm].
  { by rewrite !Nat.mul_0_r. }
  replace (n * m) with (q * m + (m + (n - q - 1) * m)) by nia.
  rewrite !seq_app, !filter_app. simpl.
  rewrite (filter_none _ (seq 0 (q * m))), (filter_all _ (seq (q * m) m)),
    (filter_none _ (seq (q * m + m) _)).
  - by rewrite app_nil_r.
  - apply Forall_seq. intros i Hi.
    assert (q + 1 ≤ i / m); [|lia]. apply Nat.div_le_lower_bound; [done|]. lia.
  - apply Forall_seq. intros i Hi.
    assert (i / m = q); [|lia]. symmetry.
    apply (Nat.div_unique _ _ _ (i - q * m)); lia.
  - apply Forall_seq. intros i Hi.
    assert (i / m < q); [|lia]. apply Nat.Div0.div_lt_upper_bound. lia.
Qed.

(** The box of every ray of a rank is a box of the rank. *)
Lemma global_box_id_in_rank {Box Ray} (boxes : list Box) (rays : list Ray)
    (rays_per_box nranks rank i : nat) :
  let part := partition_for_rank boxes rays rays_per_box nranks rank in
  let per := num_boxes_per_rank part in
  i < length (rays_for_rank part) →
  per * rank ≤ global_box_id per rank rays_per_box i < per * (rank + 1).
Proof.
  intros part per Hi.
  assert (per = length boxes / nranks) as Hper by done.
  assert (i < per * rays_per_box) as Hlen.
  { unfold part, partition_for_rank, subview in Hi. simpl in Hi.
    rewrite length_take, <- Hper in Hi. lia. }
  assert (rays_per_box ≠ 0) as Hrpb.
  { intros Hz. rewrite Hz, Nat.mul_0_r in Hlen. lia. }
  assert (i / rays_per_box < per) as Hq.
  { apply Nat.Div0.div_lt_upper_bound. lia. }
  unfold global_box_id. lia.
Qed.

(** A cell that no ray addresses is left as it was. *)
Lemma evaluate_ray_intensities_untouched {Ray} (rays_for_rank : list Ray)
    (offsets : list nat) (values : list (IntersectedRank float))
    (permutation : list nat) (num_boxes per rank rays_per_box bid : nat) :
  bid < num_boxes →
  (∀ i, i < length rays_for_rank → global_box_id per rank rays_per_box i ≠ bid) →
  evaluate_ray_intensities fzero fadd fmul fdiv fneg fexp of_int kappa pi
    rays_for_rank offsets values permutation num_boxes per rank rays_per_box !! bid
  = Some fzero.
Proof.
  intros Hbid Hnone. unfold evaluate_ray_intensities, parallel_for, atomic_add.
  rewrite (parallel_for_from_alter
             (fun i e => fadd e (deposited fzero fadd fmul fdiv fneg fexp of_int kappa
                                   pi offsets values permutation rays_per_box i))
             (global_box_id per rank rays_per_box)).
  rewrite lookup_replicate_2 by done. simpl. f_equal.
  rewrite filter_none; [done|].
  apply Forall_seq. intros i Hi. apply Hnone. lia.
Qed.

(** X12.  A rank deposits energy in its own boxes only.  The view of
    energies of a rank has one cell per box of the whole grid; after
    "Evaluating ray intensities" on the rays of the part of the rank, every
    cell outside the indices [startbox .. startbox + num_boxes_per_rank) of
    the rank is still zero, whatever the partial results are (the rank is
    one of the [nranks] ranks and [rays] holds the rays of all boxes, so
    that the subviews of the rank are inside the views). *)
Theorem rank_deposits_only_in_its_boxes {Box Ray} (boxes : list Box)
    (rays : list Ray) (rays_per_box nranks rank : nat) (offsets : list nat)
    (values : list (IntersectedRank float)) (permutation : list nat) :
  rank < nranks →
  length rays = rays_per_box * length boxes →
  let part := partition_for_rank boxes rays rays_per_box nranks rank in
  let per := num_boxes_per_rank part in
  let energy :=
    evaluate_ray_intensities fzero fadd fmul fdiv fneg fexp of_int kappa pi
      (rays_for_rank part) offsets values permutation (length boxes) per rank
      rays_per_box in
  length energy = length boxes ∧
  ∀ bid, bid < length boxes → ¬ (per * rank ≤ bid < per * (rank + 1)) →
    energy !! bid = Some fzero.
Proof.
  intros _ _ part per energy. split.
  - unfold energy, evaluate_ray_intensities, parallel_for, atomic_add.
    rewrite (parallel_for_from_alter_length
               (fun i e => fadd e (deposited fzero fadd fmul fdiv fneg fexp of_int kappa
                                     pi offsets values permutation rays_per_box i))
               (global_box_id per rank rays_per_box)).
    by rewrite length_replicate.
  - intros bid Hbid Hout. apply evaluate_ray_intensities_untouched; [done|].
    intros i Hi Heq.
    pose proof (global_box_id_in_rank boxes rays rays_per_box nranks rank i Hi) as Hin.
    fold part per in Hin. rewrite Heq in Hin. done.
Qed.

(** X18.  The boxes that the even split leaves to no rank receive no
    energy: on every rank, the cells of the last [num_boxes mod nranks]
    boxes of the grid are still zero after "Evaluating ray intensities",
    whatever the partial results are. *)
Theorem dropped_boxes_receive_no_energy {Box Ray} (boxes : list Box)
    (rays : list Ray) (rays_per_box nranks rank : nat) (offsets : list nat)
    (values : list (IntersectedRank float)) (permutation : list nat) (bid : nat) :
  rank < nranks →
  length rays = rays_per_box * length boxes →
  length boxes / nranks * nranks ≤ bid < length boxes →
  let part := partition_for_rank boxes rays rays_per_box nranks rank in
  evaluate_ray_intensities fzero fadd fmul fdiv fneg fexp of_int kappa pi
    (rays_for_rank part) offsets values permutation (length boxes)
    (num_boxes_per_rank part) rank rays_per_box !! bid
  = Some fzero.
Proof.
  intros Hrank _ Hbid part. apply evaluate_ray_intensities_untouched; [lia|].
  intros i Hi Heq.
  pose proof (global_box_id_in_rank boxes rays rays_per_box nranks rank i Hi) as Hin.
  fold part in Hin. rewrite Heq in Hin.
  change (num_boxes_per_rank part) with (length boxes / nranks) in Hin.
  assert (length boxes / nranks * (rank + 1) ≤ length boxes / nranks * nranks)
    by (apply Nat.mul_le_mono_l; lia).
  lia.
Qed.

(** X13.  What a box receives.  When the rank holds all the rays of its
    boxes, the energy of its box [q] is the sum, taken in index order from
    zero, of what the rays [q * rays_per_box .. (q + 1) * rays_per_box) of
    the rank deposit: the [rays_per_box] rays of that box, and no other
    ray. *)
Theorem box_energy_sums_its_rays {Ray} (rays_for_rank : list Ray)
    (offsets : list nat) (values : list (IntersectedRank float))
    (permutation : list nat) (num_boxes per rank rays_per_box q : nat) :
  length rays_for_rank = per * rays_per_box →
  q < per →
  per * rank + q < num_boxes →
  evaluate_ray_intensities fzero fadd fmul fdiv fneg fexp of_int kappa pi
    rays_for_rank offsets values permutation num_boxes per rank rays_per_box
    !! (per * rank + q)
  = Some (foldl fadd fzero
            (deposited fzero fadd fmul fdiv fneg fexp of_int kappa pi offsets values
               permutation rays_per_box
             <$> seq (q * rays_per_box) rays_per_box)).
Proof.
  intros Hlen Hq Hfit. unfold evaluate_ray_intensities, parallel_for, atomic_add.
  rewrite (parallel_for_from_alter
             (fun i e => fadd e (deposited fzero fadd fmul fdiv fneg fexp of_int kappa
                                   pi offsets values permutation rays_per_box i))
             (global_box_id per rank rays_per_box)).
  rewrite lookup_replicate_2 by done. simpl. f_equal.
  rewrite Hlen. unfold global_box_id.
  rewrite (filter_seq_quotient rays_per_box per q (per * rank) Hq).
  by rewrite foldl_fmap.
Qed.
End MainCorrect.

(** ** More on the partition of the boxes over the ranks *)

(** X14.  When the number of boxes is a multiple of the number of ranks
    and [main] made [rays_per_box] rays per box, rank 0 prints no warning,
    every rank takes [num_boxes / nranks] consecutive boxes and the rays of
    these boxes, and the parts of the ranks, one after the other, are all
    the boxes and all the rays: no box and no ray is left out or taken
    twice. *)
Theorem divisible_boxes_are_all_distributed {Box Ray} (boxes : list Box)
    (rays : list Ray) (rays_per_box nranks : nat) :
  0 < nranks →
  length boxes mod nranks = 0 →
  length rays = rays_per_box * length boxes →
  let part := partition_for_rank boxes rays rays_per_box nranks in
  let per := length boxes / nranks in
  printed (part 0) = [Running_with nranks] ∧
  (∀ rank, rank < nranks →
     length (boxes_for_rank (part rank)) = per ∧
     length (rays_for_rank (part rank)) = per * rays_per_box ∧
     (∀ q, q < per → boxes_for_rank (part rank) !! q = boxes !! (per * rank + q)) ∧
     (∀ l, l < per * rays_per_box →
        rays_for_rank (part rank) !! l = rays !! (per * rays_per_box * rank + l))) ∧
  distributed_boxes boxes rays rays_per_box nranks = boxes ∧
  flat_map (fun rank => rays_for_rank (part rank)) (seq 0 nranks) = rays.
Proof.
  intros Hranks Hmod Hrays part per.
  pose proof (Nat.div_mod_eq (length boxes) nranks) as Hdiv. fold per in Hdiv.
  rewrite Hmod, Nat.add_0_r in Hdiv.
  split_and!.
  - unfold part, partition_for_rank. simpl. by rewrite Hmod.
  - intros rank Hrank.
    assert (per * (rank + 1) ≤ length boxes) as Hfit.
    { assert (per * (rank + 1) ≤ per * nranks) by (apply Nat.mul_le_mono_l; lia).
      lia. }
    assert (per * rays_per_box * (rank + 1) ≤ length rays) as HfitR.
    { rewrite Hrays. replace (per * rays_per_box * (rank + 1))
        with (rays_per_box * (per * (rank + 1))) by lia.
      by apply Nat.mul_le_mono_l. }
    unfold part, partition_for_rank. simpl. fold per. split_and!.
    + by apply length_subview_of_chunk.
    + by apply length_subview_of_chunk.
    + intros q Hq. unfold subview. simpl.
      rewrite lookup_take_lt, lookup_drop by lia. done.
    + intros l Hl. unfold subview. simpl.
      rewrite lookup_take_lt, lookup_drop by lia. done.
  - unfold distributed_boxes. simpl. fold per. rewrite flat_map_chunks.
    apply take_ge. lia.
  - unfold part, partition_for_rank. simpl. fold per.
    rewrite (flat_map_chunks rays (per * rays_per_box) nranks).
    apply take_ge. rewrite Hrays, Hdiv. lia.
Qed.

(** X15.  With more ranks than boxes the quotient [num_boxes / nranks] is
    [0]: every rank gets no box and no ray, the ranks together hold no box,
    and rank 0 warns as soon as there is a box at all. *)
Theorem more_ranks_than_boxes_leave_every_rank_empty {Box Ray} (boxes : list Box)
    (rays : list Ray) (rays_per_box nranks : nat) :
  length boxes < nranks →
  let part := partition_for_rank boxes rays rays_per_box nranks in
  (∀ rank,
     num_boxes_per_rank (part rank) = 0 ∧
     boxes_for_rank (part rank) = [] ∧
     rays_for_rank (part rank) = []) ∧
  distributed_boxes boxes rays rays_per_box nranks = [] ∧
  (boxes ≠ [] →
   printed (part 0) = [Running_with nranks; Warning_indivisible (length boxes) nranks]).
Proof.
  intros Hlt part.
  pose proof (Nat.div_small _ _ Hlt) as Hdiv.
  pose proof (Nat.mod_small _ _ Hlt) as Hmod.
  assert (∀ rank,
     num_boxes_per_rank (part rank) = 0 ∧
     boxes_for_rank (part rank) = [] ∧
     rays_for_rank (part rank) = []) as Hempty.
  { intros rank. unfold part, partition_for_rank, subview. simpl.
    rewrite Hdiv. simpl. done. }
  split_and!.
  - done.
  - unfold distributed_boxes. fold part.
    induction (seq 0 nranks) as [|r l IH]; [done|]. cbn [flat_map]. cbv beta.
    destruct (Hempty r) as (_ & Hb & _). by rewrite Hb.
  - intros Hne. unfold part, partition_for_rank. simpl. rewrite Hmod.
    destruct boxes as [|b boxes']; [done|]. done.
Qed.

(** ** Scenarios of the callback and of [main] *)

Lemma example_reads_in_range (a b c : Z) :
  Forall (fun x => (0 ≤ x < 3)%Z) [a; b; c] →
  reads_in_range example_boxes example_queries [0; 2; 3] [a; b; c].
Proof.
  intros Hall. split_and!.
  - split_and!; [done|done| |done].
    intros [|[|[|i]]] x y Hx Hy; simpl in *; simplify_eq; lia.
  - exact Hall.
  - intros [|[|i]] Hi; simpl in *; lia.
Qed.

Lemma example_table_in_range :
  reads_in_range example_boxes example_queries [0; 2; 3] [1; 0; 2]%Z.
Proof. apply example_reads_in_range. repeat constructor; lia. Qed.

Lemma example_sorted_table_in_range :
  reads_in_range example_boxes example_queries [0; 2; 3] [0; 1; 2]%Z.
Proof. apply example_reads_in_range. repeat constructor; lia. Qed.

(** X5 on integers. *)
Lemma operator_lt_is_a_strict_total_order_witness :
  (∀ x : IntersectedRankForSorting Z, IntersectedRankForSorting_lt Z.ltb x x = false) ∧
  (∀ x : IntersectsBased.IntersectedCellForSorting Z,
     IntersectsBased.IntersectedCellForSorting_lt Z.ltb x x = false).
Proof.
  pose proof (operator_lt_is_a_strict_total_order Z.ltb Z.ltb_irrefl Z_ltb_trans
                Z_ltb_total) as H.
  cbv zeta in H. destruct H as [(_ & H1 & _) (_ & H2 & _)].
  split; [exact H1|exact H2].
Defined.

(** X6 on the table of the example, whose first ray meets the boxes [1]
    and [0], in that order, and whose second ray meets the box [2]. *)
Lemma callback_leaves_one_output_per_ray_witness :
  (example_rank_callback [1; 0; 2]%Z).1 = [0; 1; 2] ∧
  length (example_rank_callback [1; 0; 2]%Z).2 = 2.
Proof.
  pose proof (callback_leaves_one_output_per_ray Z.ltb 0%Z Z.add Z.sub Z.mul Z.div
                Z.pow Z.opp id Z.of_nat 10%Z 1%Z 2%Z 3%Z id example_overlapDistance
                0%Z 0%Z (IntersectsBased.MkIntersectedCellForSorting 0%Z 0)
                (MkIntersectedRank (MkIntersectedRankForSorting 0%Z 0) 0%Z 0%Z)
                example_boxes 0 example_queries [0; 2; 3] [1; 0; 2]%Z []
                example_table_in_range) as H.
  cbv zeta in H. destruct H as (H1 & H2 & _).
  split; [exact H1|exact H2].
Defined.

(** X7 on the same table: the first ray runs [1 * 10] through the box [0]
    and then [3 * 10] through the box [1]. *)
Lemma callback_accumulates_in_entry_order_witness :
  ∃ v, (example_rank_callback [1; 0; 2]%Z).2 !! 0 = Some v ∧
       optical_path_length v = 40%Z.
Proof.
  pose proof (callback_accumulates_in_entry_order Z.ltb 0%Z Z.add Z.sub Z.mul Z.div
                Z.pow Z.opp id Z.of_nat 10%Z 1%Z 2%Z 3%Z id example_overlapDistance
                0%Z 0%Z (IntersectsBased.MkIntersectedCellForSorting 0%Z 0)
                (MkIntersectedRank (MkIntersectedRankForSorting 0%Z 0) 0%Z 0%Z)
                Z.ltb_irrefl Z_ltb_trans
                example_boxes 0 example_queries [0; 2; 3] [1; 0; 2]%Z [] 0 0%Z
                example_table_in_range eq_refl) as H.
  cbv zeta in H. destruct H as (v & m & Hv & _).
  exists v. split; [exact Hv|].
  vm_compute in Hv. by injection Hv as <-.
Defined.

(** X8 on the same table: the first ray enters the rank at [0], where it
    enters the box [0]. *)
Lemma callback_entry_length_is_least_witness :
  ∃ v, (example_rank_callback [1; 0; 2]%Z).2 !! 0 = Some v ∧
       entrylength (for_sorting v) = 0%Z.
Proof.
  pose proof (callback_entry_length_is_least Z.ltb 0%Z Z.add Z.sub Z.mul Z.div
                Z.pow Z.opp id Z.of_nat 10%Z 1%Z 2%Z 3%Z id example_overlapDistance
                0%Z 0%Z (IntersectsBased.MkIntersectedCellForSorting 0%Z 0)
                (MkIntersectedRank (MkIntersectedRankForSorting 0%Z 0) 0%Z 0%Z)
                Z.ltb_irrefl Z_ltb_trans Z_ltb_total
                example_boxes 0 example_queries [0; 2; 3] [1; 0; 2]%Z [] 0 0%Z
                example_table_in_range eq_refl ltac:(vm_compute; discriminate)) as H.
  cbv zeta in H. destruct H as (v & Hv & _).
  exists v. split; [exact Hv|].
  vm_compute in Hv. by injection Hv as <-.
Defined.

(** X9 on the sort array of the hosts B and A. *)
Lemma host_sort_is_a_sorted_permutation_witness :
  sort_permutation Z.ltb (for_sorting <$> [host_B; host_A]) ≡ₚ [0; 1].
Proof.
  pose proof (host_sort_is_a_sorted_permutation Z.ltb
                (for_sorting <$> [host_B; host_A]) []
                Z.ltb_irrefl Z_ltb_trans Z_ltb_total) as H.
  cbv zeta in H. destruct H as [(H1 & _) _]. exact H1.
Defined.

(** X11 on the grid of two boxes, two ranks and two rays per box: the ray
    [1] of the rank [1] leaves from the box [1]. *)
Lemma rays_of_a_rank_leave_from_its_boxes_witness :
  let part := partition_for_rank example_setup.1 example_setup.2 2 2 1 in
  length (rays_for_rank part) = 2 ∧
  1 ≤ global_box_id (num_boxes_per_rank part) 1 2 1 < 2.
Proof.
  pose proof (rays_of_a_rank_leave_from_its_boxes Z.add Z.sub Z.mul Z.div id id id
                Z.of_nat 6%Z example_draw example_draw_unit
                (ArborX.MkBox (ArborX.MkPoint 0 0 0) (ArborX.MkPoint 0 0 0))%Z
                (ArborX.MkRay (ArborX.MkPoint 0 0 0) (ArborX.MkPoint 0 0 0))%Z
                2 1 1 2 4%Z 2%Z 2%Z 0 2 1 1 ltac:(lia) ltac:(vm_compute; lia)) as H.
  cbv zeta in H. destruct H as (H1 & H2 & _).
  split; [exact H1|exact H2].
Defined.

(** X13 on a rank with two boxes and two rays per box: the box [1]
    receives what the rays [2] and [3] deposit. *)
Lemma box_energy_sums_its_rays_witness :
  evaluate_ray_intensities 0%Z Z.add Z.mul Z.div Z.opp id Z.of_nat 10%Z 3%Z
    [(); (); (); ()] [0; 1; 2; 3; 4] [host_A; host_B; host_C; host_A] [0; 1; 2; 3]
    2 2 0 2 !! 1
  = Some (foldl Z.add 0%Z
            (deposited 0%Z Z.add Z.mul Z.div Z.opp id Z.of_nat 10%Z 3%Z
               [0; 1; 2; 3; 4] [host_A; host_B; host_C; host_A] [0; 1; 2; 3] 2
             <$> [2; 3])).
Proof.
  exact (box_energy_sums_its_rays 0%Z Z.add Z.mul Z.div Z.opp id Z.of_nat 10%Z 3%Z
           [(); (); (); ()] [0; 1; 2; 3; 4] [host_A; host_B; host_C; host_A]
           [0; 1; 2; 3] 2 2 0 2 1 eq_refl ltac:(lia) ltac:(lia)).
Defined.

(** X14 on four boxes, two rays per box and two ranks. *)
Lemma divisible_boxes_are_all_distributed_witness :
  distributed_boxes (seq 0 4) (seq 0 8) 2 2 = seq 0 4.
Proof.
  pose proof (divisible_boxes_are_all_distributed (seq 0 4) (seq 0 8) 2 2
                ltac:(lia) eq_refl eq_refl) as H.
  cbv zeta in H. destruct H as (_ & _ & H & _). exact H.
Defined.

(** X15 on one box and three ranks. *)
Lemma more_ranks_than_boxes_leave_every_rank_empty_witness :
  distributed_boxes [7] (seq 0 2) 2 3 = [].
Proof.
  pose proof (more_ranks_than_boxes_leave_every_rank_empty [7] (seq 0 2) 2 3
                ltac:(simpl; lia)) as H.
  cbv zeta in H. destruct H as (_ & H & _). exact H.
Defined.

(** X16 on the two tables of the example, which list the boxes of the
    first ray in two orders. *)
Lemma callback_ignores_the_order_of_a_slice_witness :
  (example_rank_callback [1; 0; 2]%Z).2 !! 0
  = (example_rank_callback [0; 1; 2]%Z).2 !! 0.
Proof.
  apply (callback_ignores_the_order_of_a_slice Z.ltb 0%Z Z.add Z.sub Z.mul Z.div
           Z.pow Z.opp id Z.of_nat 10%Z 1%Z 2%Z 3%Z id example_overlapDistance
           0%Z 0%Z (IntersectsBased.MkIntersectedCellForSorting 0%Z 0)
           (MkIntersectedRank (MkIntersectedRankForSorting 0%Z 0) 0%Z 0%Z)
           Z.ltb_irrefl Z_ltb_trans Z_ltb_total
           example_boxes 0 example_queries [0; 2; 3] [1; 0; 2]%Z [0; 1; 2]%Z [] []
           0 0%Z example_table_in_range example_sorted_table_in_range).
  - intros [|[|[|i]]]; [apply Permutation_swap|done|done|done].
  - reflexivity.
  - vm_compute. discriminate.
  - vm_compute. apply NoDup_cons. split; [|apply NoDup_singleton].
    intros Hin. apply list_elem_of_singleton in Hin. discriminate.
Defined.

(** X17 on a table whose first ray meets no box: it reports the entry
    length [1] of the second ray. *)
Lemma callback_on_a_ray_without_boxes_witness :
  ∃ v,
    (AccumulateRayRankIntersections Z.ltb 0%Z Z.add Z.sub Z.mul Z.div Z.pow Z.opp id
       Z.of_nat 10%Z 1%Z 2%Z 3%Z id example_overlapDistance 0%Z 0%Z
       (IntersectsBased.MkIntersectedCellForSorting 0%Z 0)
       (MkIntersectedRank (MkIntersectedRankForSorting 0%Z 0) 0%Z 0%Z)
       example_boxes 0 example_queries [0; 0; 1] [2]%Z []).2 !! 0 = Some v ∧
    optical_path_length v = 0%Z ∧
    entrylength (for_sorting v) = 1%Z.
Proof.
  assert (reads_in_range example_boxes example_queries [0; 0; 1] [2]%Z) as Hrange.
  { split_and!.
    - split_and!; [done|done| |done].
      intros [|[|[|i]]] x y Hx Hy; simpl in *; simplify_eq; lia.
    - repeat constructor; simpl; lia.
    - intros [|[|i]] Hi; simpl in *; lia. }
  pose proof (callback_on_a_ray_without_boxes Z.ltb 0%Z Z.add Z.sub Z.mul Z.div
                Z.pow Z.opp id Z.of_nat 10%Z 1%Z 2%Z 3%Z id example_overlapDistance
                0%Z 0%Z (IntersectsBased.MkIntersectedCellForSorting 0%Z 0)
                (MkIntersectedRank (MkIntersectedRankForSorting 0%Z 0) 0%Z 0%Z)
                example_boxes 0 example_queries [0; 0; 1] [2]%Z [] 0
                Hrange ltac:(simpl; lia) eq_refl) as H.
  cbv zeta in H. destruct H as (_ & v & Hv & Hopl & _).
  exists v. split_and!; [exact Hv|exact Hopl|].
  vm_compute in Hv. by injection Hv as <-.
Defined.

(** X18 on ten boxes and three ranks: the box [9] receives nothing on the
    rank [2]. *)
Lemma dropped_boxes_receive_no_energy_witness :
  evaluate_ray_intensities 0%Z Z.add Z.mul Z.div Z.opp id Z.of_nat 10%Z 3%Z
    (rays_for_rank (partition_for_rank (seq 0 10) (seq 0 20) 2 3 2))
    [0; 1; 2; 3; 4; 5; 6] [host_A; host_B; host_C; host_A; host_B; host_C]
    [0; 1; 2; 3; 4; 5] 10 3 2 2 !! 9
  = Some 0%Z.
Proof.
  exact (dropped_boxes_receive_no_energy 0%Z Z.add Z.mul Z.div Z.opp id Z.of_nat
           10%Z 3%Z (seq 0 10) (seq 0 20) 2 3 2 [0; 1; 2; 3; 4; 5; 6]
           [host_A; host_B; host_C; host_A; host_B; host_C] [0; 1; 2; 3; 4; 5] 9
           ltac:(lia) eq_refl ltac:(simpl; lia)).
Defined.

(** X12 on ten boxes and three ranks: the rank [2] leaves the box [0],
    which is a box of the rank [0], at zero. *)
Lemma rank_deposits_only_in_its_boxes_witness :
  evaluate_ray_intensities 0%Z Z.add Z.mul Z.div Z.opp id Z.of_nat 10%Z 3%Z
    (rays_for_rank (partition_for_rank (seq 0 10) (seq 0 20) 2 3 2))
    [0; 1; 2; 3; 4; 5; 6] [host_A; host_B; host_C; host_A; host_B; host_C]
    [0; 1; 2; 3; 4; 5] 10 3 2 2 !! 0
  = Some 0%Z.
Proof.
  pose proof (rank_deposits_only_in_its_boxes 0%Z Z.add Z.mul Z.div Z.opp id Z.of_nat
                10%Z 3%Z (seq 0 10) (seq 0 20) 2 3 2 [0; 1; 2; 3; 4; 5; 6]
                [host_A; host_B; host_C; host_A; host_B; host_C] [0; 1; 2; 3; 4; 5]
                ltac:(lia) eq_refl) as H.
  cbv zeta in H. destruct H as [_ H].
  apply (H 0); simpl; lia.
Defined.

(** X19 on the table of the example, whose first slice lists the box [1]
    before the box [0]: the sort swaps the two intersections of the first
    ray and leaves the one of the second ray in place. *)
Lemma callback_permutation_keeps_the_slices_witness :
  sort_indices (IntersectsBased.IntersectedCellForSorting_lt Z.ltb)
    (evaluate_ray_cell_interaction Z.mul 10%Z id example_overlapDistance 0%Z 0%Z
       (IntersectsBased.MkIntersectedCellForSorting 0%Z 0)
       example_boxes example_queries [0; 2; 3] [1; 0; 2]%Z).2
  = [1; 0; 2] ∧
  sort_indices (IntersectsBased.IntersectedCellForSorting_lt Z.ltb)
    (evaluate_ray_cell_interaction Z.mul 10%Z id example_overlapDistance 0%Z 0%Z
       (IntersectsBased.MkIntersectedCellForSorting 0%Z 0)
       example_boxes example_queries [0; 2; 3] [1; 0; 2]%Z).2
  ≡ₚ [0; 1; 2].
Proof.
  split; [reflexivity|].
  pose proof (callback_permutation_keeps_the_slices Z.ltb Z.mul 10%Z id
                example_overlapDistance 0%Z 0%Z
                (IntersectsBased.MkIntersectedCellForSorting 0%Z 0)
                Z.ltb_irrefl Z_ltb_trans
                example_boxes example_queries [0; 2; 3] [1; 0; 2]%Z
                (proj1 example_table_in_range)) as H.
  cbv zeta in H. destruct H as [H _]. exact H.
Defined.
